(** * Entropy bot: scoring, move generation, evaluation and search

    A shallow embedding of the TypeScript code blocks of the bot's design
    documents (common components, the minimax and heuristic Order bots, the
    Chaos strategies), followed by the properties established about them.

    Conventions of the embedding:
    - a JavaScript [number] that is an index, a coordinate, a count or a
      score is a [Z]; evaluator results, which carry the factors [0.5],
      [1.5] and [2.5], are rationals [Q] (every such value is a small
      multiple of 1/2, so the double-precision arithmetic of the source is
      exact on them); [-Infinity] and [Infinity] are added by [num];
    - a board is a [list Color]; reads go through [cell], writes through
      [array_set].  Properties about boards are stated for boards of exactly
      49 cells ([wf_board]), the only ones the engine is handed; there every
      read and write of the source is in range;
    - a [for] loop accumulating into a variable is a fold over the list of
      its index values ([range], [sum_over]); a loop with [break] is a
      recursive function over that list;
    - [Array.prototype.sort] is stable (ECMAScript 2019), modelled by a
      stable insertion sort ([sortBy]);
    - [Date.now()] reads a [Clock], an arbitrary sequence of values, so a
      statement for every clock covers every moment the deadline can pass;
      the search threads the clock and the transposition table through a
      state monad. *)

From Stdlib Require Import ZArith QArith List String Ascii Lia Bool.
From Stdlib Require Import Sorted Permutation.
From stdpp Require Import base strings gmap list pretty.
Import ListNotations.
Open Scope Z_scope.

(** ** Common components *)

Module Common.

(** [type Color = 'R' | 'G' | 'Y' | 'B' | 'W' | 'K' | 'P' | '']; the empty
    string marks an empty cell. *)
Inductive Color : Set := R | G | Y | B | W | K | P | Empty.

#[global] Instance Color_eq_dec : EqDecision Color.
Proof. solve_decision. Defined.

Definition Color_code (c : Color) : nat :=
  match c with
  | R => 0 | G => 1 | Y => 2 | B => 3 | W => 4 | K => 5 | P => 6 | Empty => 7
  end%nat.

Definition Color_of_code (n : nat) : Color :=
  match n with
  | 0 => R | 1 => G | 2 => Y | 3 => B | 4 => W | 5 => K | 6 => P | _ => Empty
  end%nat.

#[global] Instance Color_countable : Countable Color.
Proof.
  apply (inj_countable' Color_code Color_of_code).
  intros []; reflexivity.
Defined.

(** [a === b] on colors. *)
Definition color_eqb (a b : Color) : bool := bool_decide (a = b).

(** The string a color is in the source. *)
Definition Color_string (c : Color) : string :=
  match c with
  | R => "R" | G => "G" | Y => "Y" | B => "B"
  | W => "W" | K => "K" | P => "P" | Empty => ""
  end.

Definition BoardState := list Color.
Definition Position := string.

Inductive Turn : Set := chaos | order.

Record GameState := { state : BoardState; nextToken : Color; turn : Turn }.

Record Coordinates := { row : Z; col : Z }.

Record Move := { from : Z; to : Z }.

#[global] Instance Move_eq_dec : EqDecision Move.
Proof. solve_decision. Defined.

(** [OrderMove] and [ChaosMove] are objects with the single field [move];
    they are represented by the string in that field. *)
Definition OrderMove := string.
Definition ChaosMove := string.

Definition BOARD_SIZE : Z := 7.
Definition TOTAL_SQUARES : Z := 49.
Definition COLORS : list Color := [R; G; Y; B; W; K; P].

(** The Board invariant: exactly 49 cells. *)
Definition wf_board (s : BoardState) : Prop := length s = 49%nat.

(** [{ ...gameState, state: newState }] *)
Definition with_state (gs : GameState) (s : BoardState) : GameState :=
  {| state := s; nextToken := nextToken gs; turn := turn gs |}.

(** *** Arrays and loops *)

(** [a[i]] for an array of colors, [i] in range. *)
Definition cell (a : list Color) (i : Z) : Color :=
  if i <? 0 then Empty else nth (Z.to_nat i) a Empty.

(** [a[i] = v], [i] in range. *)
Definition array_set {A} (a : list A) (i : Z) (v : A) : list A :=
  if i <? 0 then a else <[Z.to_nat i := v]> a.

(** [a.slice(s, e)] for [0 <= s <= e]. *)
Definition slice {A} (a : list A) (s e : Z) : list A :=
  firstn (Z.to_nat (e - s)) (skipn (Z.to_nat s) a).

(** The values of [i] in [for (let i = lo; i < hi; i++)]. *)
Definition range (lo hi : Z) : list Z :=
  map (fun k => lo + Z.of_nat k) (seq 0 (Z.to_nat (hi - lo))).

(** [let t = 0; for (const x of l) t += f(x); return t]. *)
Definition sum_over {A} (l : list A) (f : A -> Z) : Z :=
  fold_left (fun total x => total + f x) l 0.

Definition len {A} (a : list A) : Z := Z.of_nat (length a).

Definition nonEmpty (c : Color) : bool := negb (color_eqb c Empty).
Definition isEmpty (c : Color) : bool := color_eqb c Empty.

(** *** Coordinate system *)

Definition indexToCoords (idx : Z) : Coordinates :=
  {| row := idx / 7; col := Z.rem idx 7 |}.

Definition coordsToIndex (row col : Z) : Z := row * 7 + col.

Definition isValidCoord (row col : Z) : bool :=
  (0 <=? row) && (row <? 7) && (0 <=? col) && (col <? 7).

(** [String.fromCharCode(n)] for a code below 256. *)
Definition fromCharCode (n : Z) : string :=
  String (ascii_of_nat (Z.to_nat n)) EmptyString.

Definition charCode (c : ascii) : Z := Z.of_nat (nat_of_ascii c).

Definition indexToPosition (idx : Z) : Position :=
  let row := idx / 7 in
  let col := Z.rem idx 7 in
  fromCharCode (charCode "a"%char + row) +:+ pretty (col + 1).

(** [parseInt] of a one-character string; [None] is [NaN]. *)
Definition parseDigit (c : ascii) : option Z :=
  let n := charCode c in
  if (48 <=? n) && (n <=? 57) then Some (n - 48) else None.

(** [positionToIndex]; [None] when the source would compute [NaN]. *)
Definition positionToIndex (pos : Position) : option Z :=
  match pos with
  | String c0 (String c1 _) =>
      let row := charCode c0 - charCode "a"%char in
      match parseDigit c1 with
      | Some d => Some (row * 7 + (d - 1))
      | None => None
      end
  | _ => None
  end.

(** A cell address as the interface prints it: a row letter [a]..[g]
    followed by a column digit [1]..[7]. *)
Definition validAddress (pos : Position) : bool :=
  match pos with
  | String c0 (String c1 EmptyString) =>
      (charCode "a"%char <=? charCode c0) && (charCode c0 <=? charCode "g"%char)
      && (charCode "1"%char <=? charCode c1) && (charCode c1 <=? charCode "7"%char)
  | _ => false
  end.

(** *** Move generation *)

(** [DIRECTIONS], as pairs [(dRow, dCol)]: up, down, left, right. *)
Definition DIRECTIONS : list (Z * Z) := [(-1, 0); (1, 0); (0, -1); (0, 1)].

(** The [while (true)] loop of [generateLegalMoves]: one iteration per unit
    of [fuel].  [slide_fuel_enough] shows that 7 iterations reach the
    [break] for every direction of [DIRECTIONS]. *)
Fixpoint slide (fuel : nat) (state : BoardState) (dRow dCol : Z)
    (fromIdx row col : Z) : list Move :=
  match fuel with
  | O => []
  | S fuel' =>
      let row := row + dRow in
      let col := col + dCol in
      if negb (isValidCoord row col) then []
      else
        let toIdx := coordsToIndex row col in
        if nonEmpty (cell state toIdx) then []
        else {| from := fromIdx; to := toIdx |}
               :: slide fuel' state dRow dCol fromIdx row col
  end.

Definition slide_fuel : nat := 7.

Definition movesOfPiece (state : BoardState) (fromIdx : Z) : list Move :=
  let c := indexToCoords fromIdx in
  flat_map (fun d => slide slide_fuel state (fst d) (snd d) fromIdx (row c) (col c))
           DIRECTIONS.

(** The moves yielded by the generator, in order. *)
Definition generateLegalMoves (state : BoardState) : list Move :=
  flat_map (fun fromIdx =>
              if isEmpty (cell state fromIdx) then []
              else movesOfPiece state fromIdx)
           (range 0 49).

Definition getAllLegalMoves (state : BoardState) : list Move :=
  generateLegalMoves state.

Definition getLegalMovesForPiece (state : BoardState) (fromIdx : Z) : list Move :=
  if isEmpty (cell state fromIdx) then [] else movesOfPiece state fromIdx.

(** A slide as the rules describe it: a piece at the origin, a destination
    [k >= 1] steps away in one of the four directions, on the board, with
    every cell from the first step to the destination empty. *)
Definition legalSlide (s : BoardState) (m : Move) : Prop :=
  0 <= from m < 49
  /\ cell s (from m) <> Empty
  /\ exists dRow dCol k,
       In (dRow, dCol) DIRECTIONS /\ 1 <= k
       /\ to m = coordsToIndex (row (indexToCoords (from m)) + k * dRow)
                               (col (indexToCoords (from m)) + k * dCol)
       /\ forall j, 1 <= j <= k ->
            isValidCoord (row (indexToCoords (from m)) + j * dRow)
                         (col (indexToCoords (from m)) + j * dCol) = true
            /\ cell s (coordsToIndex (row (indexToCoords (from m)) + j * dRow)
                                     (col (indexToCoords (from m)) + j * dCol))
               = Empty.

(** A permutation of the seven color identities, extended to cells: the
    empty marker stays, distinct colors stay distinct. *)
Definition colorPermutation (f : Color -> Color) : Prop :=
  f Empty = Empty /\ forall a b, f a = f b -> a = b.

(** Replacing every cell's color by its image. *)
Definition relabel (f : Color -> Color) (s : list Color) : list Color := map f s.

(** *** Move application *)

Definition applyMove (state : BoardState) (move : Move) : BoardState :=
  let newState := state in
  let newState := array_set newState (to move) (cell newState (from move)) in
  array_set newState (from move) Empty.

Definition applyPlacement (state : BoardState) (position : Z) (color : Color)
  : BoardState :=
  array_set state position color.

(** [formatOrderMove(move: Move | null)] *)
Definition formatOrderMove (move : option Move) : OrderMove :=
  match move with
  | None => "pass"
  | Some m => indexToPosition (from m) +:+ "-" +:+ indexToPosition (to m)
  end.

(** *** Scoring *)

Definition getRow (state : BoardState) (row : Z) : list Color :=
  map (fun col => cell state (row * 7 + col)) (range 0 7).

Definition getColumn (state : BoardState) (col : Z) : list Color :=
  map (fun row => cell state (row * 7 + col)) (range 0 7).

Definition isPalindrome (seq : list Color) : bool :=
  let n := len seq in
  forallb (fun i => color_eqb (cell seq i) (cell seq (n - 1 - i)))
          (range 0 (n / 2)).

(** The loop state of [getPalindromeSignature]. *)
Record SigState := {
  mapping : gmap Color string;
  nextLetter : Z;
  signature : string
}.

Definition sigStep (st : SigState) (color : Color) : SigState :=
  let st1 :=
    match mapping st !! color with
    | Some _ => st
    | None =>
        {| mapping := <[color := fromCharCode (nextLetter st)]> (mapping st);
           nextLetter := nextLetter st + 1;
           signature := signature st |}
    end in
  {| mapping := mapping st1;
     nextLetter := nextLetter st1;
     signature := signature st1 +:+ default "undefined" (mapping st1 !! color) |}.

Definition getPalindromeSignature (seq : list Color) : string :=
  signature
    (fold_left sigStep seq
       {| mapping := ∅; nextLetter := charCode "A"%char; signature := "" |}).

(** [PALINDROME_SCORES: Record<string, number>] *)
Definition PALINDROME_SCORES : gmap string Z :=
  list_to_map
    [ ("AA", 2);
      ("ABA", 3); ("AAA", 7);
      ("ABBA", 6); ("AAAA", 16);
      ("ABCBA", 8); ("AABAA", 12); ("ABABA", 14); ("ABBBA", 12); ("AAAAA", 30);
      ("AABBAA", 16); ("ABAABA", 18); ("ABBBBA", 22); ("ABCCBA", 12);
      ("AAAAAA", 50);
      ("ABCDCBA", 15); ("AAABAAA", 29); ("AABABAA", 25); ("AABBBAA", 23);
      ("AABCBAA", 19); ("ABAAABA", 25); ("ABABABA", 27); ("ABACABA", 21);
      ("ABBABBA", 27); ("ABBBBBA", 37); ("ABBCBBA", 19); ("ABCACBA", 15);
      ("ABCBCBA", 21); ("ABCCCBA", 19); ("AAAAAAA", 77) ].

(** [PALINDROME_SCORES[signature] || seq.length]: the right operand is
    taken when the left one is [undefined] or [0]. *)
Definition scorePalindrome (seq : list Color) : Z :=
  let signature := getPalindromeSignature seq in
  match PALINDROME_SCORES !! signature with
  | Some v => if v =? 0 then len seq else v
  | None => len seq
  end.

Definition scoreSequence (sequence : list Color) : Z :=
  let filled := List.filter nonEmpty sequence in
  if len filled <? 2 then 0
  else
    sum_over (range 2 (len filled + 1)) (fun n =>
      sum_over (range 0 (len filled - n + 1)) (fun start =>
        let substring := slice filled start (start + n) in
        if isPalindrome substring then scorePalindrome substring else 0)).

Definition calculateFullBoardScore (state : BoardState) : Z :=
  let totalScore := sum_over (range 0 7) (fun row => scoreSequence (getRow state row)) in
  totalScore + sum_over (range 0 7) (fun col => scoreSequence (getColumn state col)).

(** Incremental scoring: only the rows and columns of the two cells of the
    move are scored, before and after. *)
Definition affectedScore (s : BoardState) (fromRow fromCol toRow toCol : Z) : Z :=
  let score := 0 in
  let score := score + scoreSequence (getRow s fromRow) in
  let score := score + scoreSequence (getColumn s fromCol) in
  let score := if negb (toRow =? fromRow)
               then score + scoreSequence (getRow s toRow) else score in
  if negb (toCol =? fromCol)
  then score + scoreSequence (getColumn s toCol) else score.

Definition calculateScoreDelta (oldState newState : BoardState) (move : Move) : Z :=
  let f := indexToCoords (from move) in
  let t := indexToCoords (to move) in
  let oldScore := affectedScore oldState (row f) (col f) (row t) (col t) in
  let newScore := affectedScore newState (row f) (col f) (row t) (col t) in
  newScore - oldScore.

(** The loop states of [getPalindromeSignature] on a sequence and on its
    relabeling by [f]: the same letters handed out, to corresponding colors. *)
Definition sig_related (f : Color -> Color) (st st' : SigState) : Prop :=
  nextLetter st' = nextLetter st
  /\ signature st' = signature st
  /\ forall c, mapping st' !! f c = mapping st !! c.

(** *** Numbers with infinities *)

Inductive num : Set := NegInf | Fin (q : Q) | PosInf.

(** [a < b] *)
Definition num_ltb (a b : num) : bool :=
  match a, b with
  | NegInf, NegInf => false
  | NegInf, _ => true
  | Fin _, NegInf => false
  | Fin x, Fin y => negb (Qle_bool y x)
  | Fin _, PosInf => true
  | PosInf, _ => false
  end.

(** [a <= b] *)
Definition num_leb (a b : num) : bool := negb (num_ltb b a).

(** [Math.max(a, b)] and [Math.min(a, b)] *)
Definition num_max (a b : num) : num := if num_ltb a b then b else a.
Definition num_min (a b : num) : num := if num_ltb b a then b else a.

(** Numeric equality of two results. *)
Definition num_eq (a b : num) : Prop :=
  match a, b with
  | NegInf, NegInf => True
  | Fin x, Fin y => (x == y)%Q
  | PosInf, PosInf => True
  | _, _ => False
  end.

(** *** Sorting *)

(** [l.sort(cmp)]: the element [x] goes before [y] when [cmp x y <= 0];
    equal elements keep their order. *)
Fixpoint insertBy {A} (cmp : A -> A -> Z) (x : A) (l : list A) : list A :=
  match l with
  | [] => [x]
  | y :: l' => if cmp x y <=? 0 then x :: l else y :: insertBy cmp x l'
  end.

Definition sortBy {A} (cmp : A -> A -> Z) (l : list A) : list A :=
  fold_right (insertBy cmp) [] l.

(** *** Board analysis *)

(** [(m.get(k) || 0)] *)
Definition getOr0 (m : gmap Color Z) (k : Color) : Z := default 0 (m !! k).

Definition inferRemainingColors (state : BoardState) : gmap Color Z :=
  fold_left
    (fun remaining color =>
       if nonEmpty color
       then <[color := getOr0 remaining color - 1]> remaining
       else remaining)
    state
    (list_to_map [(R, 7); (G, 7); (Y, 7); (B, 7); (W, 7); (K, 7); (P, 7)]).

Definition getColorDistribution (state : BoardState) : gmap Color Z :=
  fold_left
    (fun distribution color =>
       if nonEmpty color
       then <[color := getOr0 distribution color + 1]> distribution
       else distribution)
    state ∅.

Inductive Phase : Set := early | mid | late.

Definition determineGamePhase (state : BoardState) : Phase :=
  let filledCount := len (List.filter nonEmpty state) in
  if filledCount <? 16 then early
  else if filledCount <? 35 then mid
  else late.

Definition getEmptyPositions (state : BoardState) : list Z :=
  List.filter (fun i => isEmpty (cell state i)) (range 0 49).

Definition getFilledPositions (state : BoardState) : list Z :=
  List.filter (fun i => nonEmpty (cell state i)) (range 0 49).

Record PatternPotential := {
  almostComplete : Z;
  twoMove : Z;
  threeMove : Z
}.

Definition checkNearPalindromes (sequence : list Color) : Z :=
  let count := 0 in
  let filled := List.filter nonEmpty sequence in
  if 2 <=? len filled
  then if color_eqb (cell filled 0) (cell filled (len filled - 1))
       then count + 1 else count
  else count.

Definition analyzeSequencePotential (sequence : list Color) : PatternPotential :=
  let emptyCount := len (List.filter isEmpty sequence) in
  if emptyCount =? 1 then
    {| almostComplete := 0 + checkNearPalindromes sequence;
       twoMove := 0; threeMove := 0 |}
  else if emptyCount =? 2 then
    {| almostComplete := 0;
       twoMove := 0 + checkNearPalindromes sequence; threeMove := 0 |}
  else if emptyCount =? 3 then
    {| almostComplete := 0; twoMove := 0;
       threeMove := 0 + checkNearPalindromes sequence |}
  else {| almostComplete := 0; twoMove := 0; threeMove := 0 |}.

(** The fourteen lines of a board, rows first, in the order every
    row-then-column pair of loops of the source visits them. *)
Definition boardLines (state : BoardState) : list (list Color) :=
  map (getRow state) (range 0 7) ++ map (getColumn state) (range 0 7).

Definition analyzePatternPotential (state : BoardState) : PatternPotential :=
  fold_left
    (fun acc line =>
       let potential := analyzeSequencePotential line in
       {| almostComplete := almostComplete acc + almostComplete potential;
          twoMove := twoMove acc + twoMove potential;
          threeMove := threeMove acc + threeMove potential |})
    (boardLines state)
    {| almostComplete := 0; twoMove := 0; threeMove := 0 |}.

(** *** Board control *)

Definition calculateCenterControl (state : BoardState) : Z :=
  let centerSquares :=
    [coordsToIndex 2 3; coordsToIndex 3 3; coordsToIndex 2 4; coordsToIndex 3 4] in
  sum_over centerSquares (fun idx => if nonEmpty (cell state idx) then 1 else 0).

Definition calculateEdgeControl (state : BoardState) : Z :=
  sum_over (range 0 49) (fun i =>
    let c := indexToCoords i in
    let isEdge := (row c =? 0) || (row c =? 6) || (col c =? 0) || (col c =? 6) in
    if isEdge && nonEmpty (cell state i) then 1 else 0).

(** The [colorCounts] map of [countColorGroups]. *)
Definition colorCountsOf (sequence : list Color) : gmap Color Z :=
  fold_left
    (fun colorCounts color =>
       if nonEmpty color
       then <[color := getOr0 colorCounts color + 1]> colorCounts
       else colorCounts)
    sequence ∅.

(** Colors that appear two or more times: one group each. *)
Definition countColorGroups (sequence : list Color) : Z :=
  sum_over (map snd (map_to_list (colorCountsOf sequence)))
           (fun count => if 2 <=? count then 1 else 0).

Definition calculateConnectedGroups (state : BoardState) : Z :=
  sum_over (boardLines state) countColorGroups.

Definition calculateBoardControl (state : BoardState) : Q :=
  let centerControl := calculateCenterControl state in
  let edgeControl := calculateEdgeControl state in
  let connectedGroups := calculateConnectedGroups state in
  (inject_Z centerControl * 2 + inject_Z edgeControl * 1
   + inject_Z connectedGroups * 1.5)%Q.

(** *** Time management *)

(** The wall clock: the values successive calls of [Date.now()] return,
    then [later] for ever. *)
Record Clock := { readings : list Z; later : Z }.

Definition Date_now (c : Clock) : Z * Clock :=
  match readings c with
  | t :: rest => (t, {| readings := rest; later := later c |})
  | [] => (later c, c)
  end.

Record TimeManager := { startTime : Z; timeLimit : Z }.

(** [new TimeManager(timeLimitSeconds)], the limit given in milliseconds. *)
Definition newTimeManager (timeLimitMs : Z) (c : Clock) : TimeManager * Clock :=
  let (now, c') := Date_now c in
  ({| startTime := now; timeLimit := timeLimitMs |}, c').

Definition elapsed (tm : TimeManager) (c : Clock) : Z * Clock :=
  let (now, c') := Date_now c in (now - startTime tm, c').

Definition remaining (tm : TimeManager) (c : Clock) : Z * Clock :=
  let (e, c') := elapsed tm c in (timeLimit tm - e, c').

Definition shouldStop (tm : TimeManager) (c : Clock) : bool * Clock :=
  let (e, c') := elapsed tm c in (timeLimit tm <=? e, c').

(** *** LRU cache over an insertion-ordered [Map] *)

Section JsMap.
Context {V : Type}.

(** A JavaScript [Map<string, V>]: the entries in insertion order. *)
Definition JsMap := list (string * V).

Definition map_has (m : JsMap) (key : string) : bool :=
  existsb (fun e => bool_decide (fst e = key)) m.

Fixpoint map_get (m : JsMap) (key : string) : option V :=
  match m with
  | [] => None
  | (k, v) :: m' => if bool_decide (k = key) then Some v else map_get m' key
  end.

Definition map_delete (m : JsMap) (key : string) : JsMap :=
  List.filter (fun e => negb (bool_decide (fst e = key))) m.

(** [m.set(key, value)]: an existing key keeps its place. *)
Fixpoint map_set (m : JsMap) (key : string) (value : V) : JsMap :=
  match m with
  | [] => [(key, value)]
  | (k, v) :: m' =>
      if bool_decide (k = key) then (k, value) :: m'
      else (k, v) :: map_set m' key value
  end.

Record LRUCache := { cache : JsMap; maxSize : Z }.

Definition newLRUCache (maxSize : Z) : LRUCache :=
  {| cache := []; maxSize := maxSize |}.

Definition lru_get (c : LRUCache) (key : string) : option V * LRUCache :=
  if negb (map_has (cache c) key) then (None, c)
  else
    match map_get (cache c) key with
    | Some value =>
        let m := map_delete (cache c) key in
        let m := map_set m key value in
        (Some value, {| cache := m; maxSize := maxSize c |})
    | None => (None, c)
    end.

Definition lru_set (c : LRUCache) (key : string) (value : V) : LRUCache :=
  let m := cache c in
  let m := if map_has m key then map_delete m key else m in
  let m := map_set m key value in
  let m := if maxSize c <? len m
           then match m with
                | (firstKey, _) :: _ => map_delete m firstKey
                | [] => m
                end
           else m in
  {| cache := m; maxSize := maxSize c |}.
End JsMap.

Arguments JsMap : clear implicits.
Arguments LRUCache : clear implicits.

(** *** Optimized scoring *)

(** [a.join('')] for an array of colors. *)
Definition joinColors (a : list Color) : string :=
  fold_right (fun c acc => Color_string c +:+ acc) "" a.

(** [scoreSequenceCached], with the module-level [sequenceScoreCache]
    passed in and returned.  [has(key)] holds exactly when [get(key)] is
    defined, so the two calls are one lookup. *)
Definition scoreSequenceCached (sequence : list Color)
    (sequenceScoreCache : JsMap Z) : Z * JsMap Z :=
  let key := joinColors sequence in
  match map_get sequenceScoreCache key with
  | Some cached => (cached, sequenceScoreCache)
  | None =>
      let score := scoreSequence sequence in
      let cache :=
        if 1000 <? len sequenceScoreCache
        then match sequenceScoreCache with
             | (firstKey, _) :: _ => map_delete sequenceScoreCache firstKey
             | [] => sequenceScoreCache
             end
        else sequenceScoreCache in
      (score, map_set cache key score)
  end.

End Common.

(** ** Order bot: minimax with alpha-beta pruning *)

Module Minimax.
Import Common.

Record MinimaxResult := { score : num; move : option Move }.

(** What a search reads and writes besides its arguments: the wall clock
    and the transposition table (one [LRUCache<string, number>] object
    shared by every call).  [fired] is a ghost flag, written by [poll] and
    read by no code: some [shouldStop()] so far has answered [true]. *)
Record World := { clock : Clock; table : LRUCache num; fired : bool }.

(** Computations over the world. *)
Definition M (A : Type) : Type := World -> A * World.

Definition ret {A} (a : A) : M A := fun w => (a, w).

Definition bind {A B} (m : M A) (k : A -> M B) : M B :=
  fun w => let (a, w') := m w in k a w'.

Notation "x <- m ;; k" := (bind m (fun x => k))
  (at level 100, m at next level, right associativity).

(** [timeManager.shouldStop()] *)
Definition poll (timeManager : TimeManager) : M bool :=
  fun w => let (b, c) := shouldStop timeManager (clock w) in
           (b, {| clock := c; table := table w; fired := fired w || b |}).

(** [timeManager.remaining()] *)
Definition timeLeft (timeManager : TimeManager) : M Z :=
  fun w => let (r, c) := remaining timeManager (clock w) in
           (r, {| clock := c; table := table w; fired := fired w |}).

(** [transpositionTable.get(key)] and [transpositionTable.set(key, value)] *)
Definition tableGet (key : string) : M (option num) :=
  fun w => let (v, t) := lru_get (table w) key in
           (v, {| clock := clock w; table := t; fired := fired w |}).

Definition tableSet (key : string) (value : num) : M unit :=
  fun w => (tt, {| clock := clock w; table := lru_set (table w) key value;
                   fired := fired w |}).

(** *** Evaluation function *)

Definition calculatePatternPotential (state : BoardState) : Z :=
  let analysis := analyzePatternPotential state in
  almostComplete analysis * 10 + twoMove analysis * 5 + threeMove analysis * 2.

Definition isDisruptable (sequence : list Color) : bool :=
  let emptyCount := len (List.filter isEmpty sequence) in
  let filledCount := len (List.filter nonEmpty sequence) in
  (0 <? emptyCount) && (2 <=? filledCount).

Definition calculateChaosOpportunities (state : BoardState) : Q :=
  let emptyCount := len (getEmptyPositions state) in
  let disruptablePatterns :=
    sum_over (boardLines state) (fun line => if isDisruptable line then 1 else 0) in
  (inject_Z emptyCount * 0.5 + inject_Z disruptablePatterns * 2)%Q.

Definition evaluatePosition (gameState : GameState) : Q :=
  let state := state gameState in
  let currentScore := calculateFullBoardScore state in
  let potential := calculatePatternPotential state in
  let chaosOpportunities := calculateChaosOpportunities state in
  let boardControl := calculateBoardControl state in
  (inject_Z currentScore * 100 + inject_Z potential * 50
   + boardControl * 20 + chaosOpportunities * -30)%Q.

(** *** Transposition table *)

(** [state.join('')]: an empty cell contributes the empty string. *)
Definition getBoardStateKey (state : BoardState) : string :=
  fold_right (fun c acc => Color_string c +:+ acc) "" state.

Definition isGameOver (state : BoardState) : bool :=
  len (getEmptyPositions state) =? 0.

(** *** Move ordering *)

Definition orderMovesByHeuristic (state : BoardState) (moves : list Move)
  : list Move :=
  let scoredMoves :=
    map (fun move =>
           let newState := applyMove state move in
           (move, calculateScoreDelta state newState move)) moves in
  let scoredMoves := sortBy (fun a b => snd b - snd a) scoredMoves in
  map fst scoredMoves.

Definition evaluatePatternDisruption (state : BoardState) (position : Z)
    (color : Color) : Z :=
  let c := indexToCoords position in
  let rowBefore := getRow state (row c) in
  let colBefore := getColumn state (col c) in
  let potentialBefore :=
    almostComplete (analyzeSequencePotential rowBefore)
    + almostComplete (analyzeSequencePotential colBefore) in
  let newState := applyPlacement state position color in
  let rowAfter := getRow newState (row c) in
  let colAfter := getColumn newState (col c) in
  let potentialAfter :=
    almostComplete (analyzeSequencePotential rowAfter)
    + almostComplete (analyzeSequencePotential colAfter) in
  potentialBefore - potentialAfter.

Definition orderChaosPlacementsByHeuristic (state : BoardState)
    (positions : list Z) (color : Color) : list Z :=
  let scoredPositions :=
    map (fun pos => (pos, evaluatePatternDisruption state pos color)) positions in
  let scoredPositions := sortBy (fun a b => snd b - snd a) scoredPositions in
  map fst scoredPositions.

(** *** Minimax *)

(** The recursive call [minimax(gameState, depth - 1, alpha, beta,
    isMaximizing, timeManager, transpositionTable)] as the two players see
    it. *)
Definition Search := GameState -> num -> num -> bool -> M num.

Section Players.
Variable search : Search.
Variable timeManager : TimeManager.

(** The [for] loop of [maximizingPlayer]. *)
Fixpoint maximizingLoop (gameState : GameState) (orderedMoves : list Move)
    (maxEval alpha beta : num) : M num :=
  match orderedMoves with
  | [] => ret maxEval
  | move :: rest =>
      stop <- poll timeManager ;;
      if stop || num_leb beta alpha then ret maxEval
      else
        let newState := applyMove (state gameState) move in
        eval <- search (with_state gameState newState) alpha beta false ;;
        let maxEval := num_max maxEval eval in
        let alpha := num_max alpha eval in
        if num_leb beta alpha then ret maxEval
        else maximizingLoop gameState rest maxEval alpha beta
  end.

Definition maximizingPlayer (gameState : GameState) (alpha beta : num) : M num :=
  let maxEval := NegInf in
  let moves := getAllLegalMoves (state gameState) in
  let orderedMoves := orderMovesByHeuristic (state gameState) moves in
  passEval <- search gameState alpha beta false ;;
  let maxEval := num_max maxEval passEval in
  let alpha := num_max alpha maxEval in
  maximizingLoop gameState orderedMoves maxEval alpha beta.

(** The [for] loop of [minimizingPlayer]. *)
Fixpoint minimizingLoop (gameState : GameState) (orderedPositions : list Z)
    (minEval alpha beta : num) : M num :=
  match orderedPositions with
  | [] => ret minEval
  | position :: rest =>
      stop <- poll timeManager ;;
      if stop || num_leb beta alpha then ret minEval
      else
        let newState :=
          applyPlacement (state gameState) position (nextToken gameState) in
        eval <- search (with_state gameState newState) alpha beta true ;;
        let minEval := num_min minEval eval in
        let beta := num_min beta eval in
        if num_leb beta alpha then ret minEval
        else minimizingLoop gameState rest minEval alpha beta
  end.

Definition minimizingPlayer (gameState : GameState) (alpha beta : num) : M num :=
  let minEval := PosInf in
  let emptyPositions := getEmptyPositions (state gameState) in
  let orderedPositions :=
    orderChaosPlacementsByHeuristic (state gameState) emptyPositions
                                    (nextToken gameState) in
  minimizingLoop gameState orderedPositions minEval alpha beta.
End Players.

(** [minimax], by recursion on [depth] (every recursive call of the source
    passes [depth - 1], and [depth === 0] stops the recursion). *)
Fixpoint minimax (depth : nat) (timeManager : TimeManager)
    (gameState : GameState) (alpha beta : num) (isMaximizing : bool) : M num :=
  stop <- poll timeManager ;;
  if stop then ret (Fin (evaluatePosition gameState))
  else
    let stateKey := getBoardStateKey (state gameState) in
    cached <- tableGet stateKey ;;
    match cached with
    | Some v => ret v
    | None =>
        let leaf :=
          let eval := Fin (evaluatePosition gameState) in
          _ <- tableSet stateKey eval ;;
          ret eval in
        match depth with
        | O => leaf
        | S depth' =>
            if isGameOver (state gameState) then leaf
            else if isMaximizing
                 then maximizingPlayer (minimax depth' timeManager) timeManager
                                       gameState alpha beta
                 else minimizingPlayer (minimax depth' timeManager) timeManager
                                       gameState alpha beta
        end
    end.

(** *** Iterative deepening *)

(** The [for] loop of [iterativeDeepening]; [maxDepth] is at least 1, and
    [search] is [minimax] at depth [maxDepth - 1]. *)
Fixpoint rootLoop (search : Search) (timeManager : TimeManager)
    (gameState : GameState) (orderedMoves : list Move)
    (bestScore : num) (bestMove : option Move) : M MinimaxResult :=
  match orderedMoves with
  | [] => ret {| score := bestScore; move := bestMove |}
  | m :: rest =>
      stop <- poll timeManager ;;
      if stop then ret {| score := bestScore; move := bestMove |}
      else
        let newState := applyMove (state gameState) m in
        score <- search (with_state gameState newState) NegInf PosInf false ;;
        if num_ltb bestScore score
        then rootLoop search timeManager gameState rest score (Some m)
        else rootLoop search timeManager gameState rest bestScore bestMove
  end.

Definition iterativeDeepening (gameState : GameState) (maxDepth : nat)
    (timeManager : TimeManager) : M MinimaxResult :=
  let allMoves := getAllLegalMoves (state gameState) in
  let orderedMoves := orderMovesByHeuristic (state gameState) allMoves in
  rootLoop (minimax (Nat.pred maxDepth) timeManager) timeManager gameState
           orderedMoves NegInf None.

(** Ghost step: forget earlier answers of the deadline poll, so that
    [fired] tells after an iteration whether a poll fired during it. *)
Definition clearFired : M unit :=
  fun w => (tt, {| clock := clock w; table := table w; fired := false |}).

(** The [while] loop of [orderNextTurn]: [depths] lists the values of
    [depth] still to come; after the last one the condition is evaluated
    once more, with [depth <= 4] false. *)
Fixpoint deepeningLoop (gameState : GameState) (timeManager : TimeManager)
    (depths : list nat) (bestMove : option Move) : M (option Move) :=
  left <- timeLeft timeManager ;;
  match depths with
  | [] => ret bestMove
  | depth :: rest =>
      if negb (500 <? left) then ret bestMove
      else
        _ <- clearFired ;;
        result <- iterativeDeepening gameState depth timeManager ;;
        let bestMove :=
          match move result with
          | Some m => Some m
          | None => bestMove
          end in
        deepeningLoop gameState timeManager rest bestMove
  end.

(** The world [orderNextTurn] starts its loop in. *)
Definition initialWorld (capacity : Z) (c : Clock) : World :=
  {| clock := c; table := newLRUCache capacity; fired := false |}.

(** [orderNextTurn], started on a given wall clock, with a transposition
    table of the given capacity (5000 in the source). *)
Definition orderNextTurnWith (capacity : Z) (gameState : GameState)
    (c : Clock) : OrderMove :=
  let (timeManager, c) := newTimeManager 2000 c in
  let (bestMove, _) :=
    deepeningLoop gameState timeManager [1; 2; 3; 4]%nat None
                  (initialWorld capacity c) in
  formatOrderMove bestMove.

Definition orderNextTurn (gameState : GameState) (c : Clock) : OrderMove :=
  orderNextTurnWith 5000 gameState c.

(** *** The iterations of a run, as observed from outside *)

(** One iteration of the deepening loop: its depth, the answer the
    deadline poll gives when the iteration starts (the poll made before its
    first root move), what it returned, and whether some deadline poll
    fired while it ran (it was cut off). *)
Record Iteration := {
  itDepth : nat;
  itFirstPoll : bool;
  itResult : MinimaxResult;
  itCutOff : bool
}.

(** The iterations [deepeningLoop] goes through, in order. *)
Fixpoint iterations (gameState : GameState) (timeManager : TimeManager)
    (depths : list nat) : M (list Iteration) :=
  left <- timeLeft timeManager ;;
  match depths with
  | [] => ret []
  | depth :: rest =>
      if negb (500 <? left) then ret []
      else
        _ <- clearFired ;;
        fun w =>
          let (result, w') := iterativeDeepening gameState depth timeManager w in
          let (its, w'') := iterations gameState timeManager rest w' in
          ({| itDepth := depth;
              itFirstPoll := fst (poll timeManager w);
              itResult := result;
              itCutOff := fired w' |} :: its, w'')
  end.

Definition iterationsOf (capacity : Z) (gameState : GameState) (c : Clock)
  : list Iteration :=
  let (timeManager, c) := newTimeManager 2000 c in
  fst (iterations gameState timeManager [1; 2; 3; 4]%nat
                  (initialWorld capacity c)).

(** The step of the driver: a reported move replaces the one held. *)
Definition adopt (best : option Move) (it : Iteration) : option Move :=
  match move (itResult it) with
  | Some m => Some m
  | None => best
  end.

(** The move of the last iteration that reported one. *)
Definition lastReported (its : list Iteration) : option Move :=
  fold_left adopt its None.

(** The move of the deepest iteration that ran to completion. *)
Definition deepestCompleted (its : list Iteration) : option Move :=
  fold_left (fun best it =>
               if itCutOff it then best else move (itResult it)) its None.

(** *** Invariants of a run *)

(** Only evaluator results are ever stored in the transposition table. *)
Definition table_ok (t : LRUCache num) : Prop :=
  forall k v, In (k, v) (cache t) -> v <> NegInf.

Definition world_ok (w : World) : Prop := table_ok (table w).

(** A search that never returns [-Infinity] and keeps the table so. *)
Definition search_ok (search : Search) : Prop :=
  forall gs alpha beta b w,
    world_ok w ->
    fst (search gs alpha beta b w) <> NegInf
    /\ world_ok (snd (search gs alpha beta b w)).

(** *** Killer moves *)

(** The [KillerMoves] class: the map from depth to the moves kept for it.
    The array fetched with [get] is the one stored in the map, so
    [unshift] and [pop] change the entry. *)
Record KillerMoves := { killers : gmap Z (list Move) }.

Definition maxPerDepth : Z := 2.

Definition newKillerMoves : KillerMoves := {| killers := ∅ |}.

Definition getKillers (this : KillerMoves) (depth : Z) : list Move :=
  default [] (killers this !! depth).

Definition addKiller (this : KillerMoves) (depth : Z) (move : Move)
  : KillerMoves :=
  let map :=
    match killers this !! depth with
    | Some _ => killers this
    | None => <[depth := []]> (killers this)
    end in
  let moves := default [] (map !! depth) in
  if negb (existsb (fun m => (from m =? from move) && (to m =? to move)) moves)
  then
    let moves := move :: moves in
    let moves := if maxPerDepth <? len moves then removelast moves else moves in
    {| killers := <[depth := moves]> map |}
  else {| killers := map |}.

(** What [addKiller] maintains: no move twice and at most [maxPerDepth]
    moves at every depth. *)
Definition killers_ok (this : KillerMoves) : Prop :=
  forall depth, NoDup (getKillers this depth)
                /\ len (getKillers this depth) <= maxPerDepth.

End Minimax.

(** ** Order bot: heuristic evaluation *)

Module Heuristic.
Import Common.

Definition calculatePatternPotential (state : BoardState) : Z :=
  let analysis := analyzePatternPotential state in
  almostComplete analysis * 10 + twoMove analysis * 5 + threeMove analysis * 2.

(** The center squares c4, d4, c5, d5; the [extendedCenter] array of the
    source is empty, so its loop adds nothing. *)
Definition calculateCenterControl (state : BoardState) : Q :=
  let centerSquares :=
    [coordsToIndex 2 3; coordsToIndex 3 3; coordsToIndex 2 4; coordsToIndex 3 4] in
  let control :=
    sum_over centerSquares (fun idx => if nonEmpty (cell state idx) then 1 else 0) in
  let extendedCenter : list Z := [] in
  fold_left (fun control idx =>
               if nonEmpty (cell state idx) then (control + 0.5)%Q else control)
            extendedCenter (inject_Z control).

Definition calculateEdgeControl (state : BoardState) : Z :=
  sum_over (range 0 49) (fun i =>
    let c := indexToCoords i in
    let isEdge := (row c =? 0) || (row c =? 6) || (col c =? 0) || (col c =? 6) in
    if isEdge && nonEmpty (cell state i) then 1 else 0).

(** Colors with two or more pieces: [count - 1] each. *)
Definition countColorGroups (sequence : list Color) : Z :=
  sum_over (map snd (map_to_list (colorCountsOf sequence)))
           (fun count => if 2 <=? count then count - 1 else 0).

Definition calculateConnectedGroups (state : BoardState) : Z :=
  sum_over (boardLines state) countColorGroups.

Definition calculateBoardControl (state : BoardState) : Q :=
  let centerControl := calculateCenterControl state in
  let edgeControl := calculateEdgeControl state in
  let connectedGroups := calculateConnectedGroups state in
  (centerControl * 2 + inject_Z edgeControl * 1
   + inject_Z connectedGroups * 1.5)%Q.

Definition isVulnerableToDisruption (sequence : list Color) : bool :=
  let emptyCount := len (List.filter isEmpty sequence) in
  let filledCount := len (List.filter nonEmpty sequence) in
  if (emptyCount =? 0) || (filledCount <? 2) then false
  else
    let filled := List.filter nonEmpty sequence in
    if (2 <=? len filled)
       && color_eqb (cell filled 0) (cell filled (len filled - 1))
    then true
    else
      existsb (fun i => color_eqb (cell filled i) (cell filled (i + 1)))
              (range 0 (len filled - 1)).

Definition countDisruptablePatterns (state : BoardState) : Z :=
  sum_over (boardLines state)
           (fun line => if isVulnerableToDisruption line then 1 else 0).

Definition calculateChaosOpportunities (state : BoardState) : Q :=
  let emptyCount := len (getEmptyPositions state) in
  let disruptablePatterns := countDisruptablePatterns state in
  (inject_Z emptyCount * 0.5 + inject_Z disruptablePatterns * 2)%Q.

Definition evaluateNextTokenPositions (state : BoardState) (nextToken : Color) : Z :=
  let emptyPositions := getEmptyPositions state in
  sum_over emptyPositions (fun pos =>
    let c := indexToCoords pos in
    let rowColors := getRow state (row c) in
    let colColors := getColumn state (col c) in
    let rowHasNextToken := existsb (fun x => color_eqb x nextToken) rowColors in
    let colHasNextToken := existsb (fun x => color_eqb x nextToken) colColors in
    if rowHasNextToken || colHasNextToken then 2 else 0).

Definition analyzeColorDistribution (state : BoardState) (nextToken : Color) : Z :=
  let remaining := inferRemainingColors state in
  let onBoard := getColorDistribution state in
  let nextTokenRemaining := getOr0 remaining nextToken in
  let nextTokenOnBoard := getOr0 onBoard nextToken in
  let score := 0 in
  let score := if nextTokenOnBoard <=? 1 then score + 10 else score in
  let score := if 4 <=? nextTokenOnBoard then score - 5 else score in
  let uniqueColors := Z.of_nat (size onBoard) in
  let score := score + uniqueColors * 2 in
  score + evaluateNextTokenPositions state nextToken.

Definition calculateColorDiversity (sequence : list Color) : Q :=
  let uniqueColors :=
    Z.of_nat (size (list_to_set (List.filter nonEmpty sequence) : gset Color)) in
  if uniqueColors =? 1 then 3
  else if uniqueColors =? 2 then 2.5
  else if uniqueColors =? 3 then 2
  else 1.

Definition calculateSequenceFertility (sequence : list Color) : Q :=
  let emptyCount := len (List.filter isEmpty sequence) in
  let filledCount := 7 - emptyCount in
  if (filledCount =? 0) || (filledCount =? 1) then 0
  else if (2 <=? filledCount) && (filledCount <=? 4) then
    let colorDiversity := calculateColorDiversity sequence in
    (inject_Z (5 - emptyCount) * colorDiversity * 2)%Q
  else if (5 <=? filledCount) && (filledCount <=? 6) then
    (inject_Z filledCount * 1.5)%Q
  else 10.

Definition calculateFertility (state : BoardState) : Q :=
  fold_left (fun totalFertility line =>
               (totalFertility + calculateSequenceFertility line)%Q)
            (boardLines state) 0%Q.

Definition evaluatePosition (gameState : GameState) : Q :=
  let state := state gameState in
  let nextToken := nextToken gameState in
  let immediate := calculateFullBoardScore state in
  let potential := calculatePatternPotential state in
  let control := calculateBoardControl state in
  let opportunities := calculateChaosOpportunities state in
  let distribution := analyzeColorDistribution state nextToken in
  let fertility := calculateFertility state in
  (inject_Z immediate * 100 + inject_Z potential * 50 + control * 30
   + opportunities * -40 + inject_Z distribution * 20 + fertility * 25)%Q.

(** *** The mover's decision *)

(** The [for] loop of [orderNextTurn] over the moves still to be yielded
    by the generator; the early [break] ends it. *)
Fixpoint orderNextTurnLoop (gameState : GameState) (currentScore : Z)
    (moves : list Move) (bestMove : option Move) (bestEvaluation : Q)
  : option Move :=
  match moves with
  | [] => bestMove
  | move :: rest =>
      let newState := applyMove (state gameState) move in
      let newGameState := with_state gameState newState in
      let evaluation := evaluatePosition newGameState in
      let better := negb (Qle_bool evaluation bestEvaluation) in
      let bestEvaluation := if better then evaluation else bestEvaluation in
      let bestMove := if better then Some move else bestMove in
      if negb (Qle_bool evaluation (inject_Z currentScore + 20))
      then bestMove
      else orderNextTurnLoop gameState currentScore rest bestMove bestEvaluation
  end.

(** [orderNextTurn] of the heuristic bot, before formatting. *)
Definition chosenMove (gameState : GameState) : option Move :=
  let currentScore := calculateFullBoardScore (state gameState) in
  let bestEvaluation := evaluatePosition gameState in
  orderNextTurnLoop gameState currentScore
    (generateLegalMoves (state gameState)) None bestEvaluation.

Definition orderNextTurn (gameState : GameState) : OrderMove :=
  formatOrderMove (chosenMove gameState).

(** The loop of [findBestMove], which starts from [-Infinity]. *)
Fixpoint findBestMoveLoop (gameState : GameState) (currentScore : Z)
    (moves : list Move) (bestMove : option Move) (bestEval : num)
  : option Move :=
  match moves with
  | [] => bestMove
  | move :: rest =>
      let newState := applyMove (state gameState) move in
      let eval := evaluatePosition (with_state gameState newState) in
      let better := num_ltb bestEval (Fin eval) in
      let bestEval := if better then Fin eval else bestEval in
      let bestMove := if better then Some move else bestMove in
      if negb (Qle_bool eval (inject_Z currentScore + 20))
      then bestMove
      else findBestMoveLoop gameState currentScore rest bestMove bestEval
  end.

Definition findBestMove (gameState : GameState) : option Move :=
  let currentScore := calculateFullBoardScore (state gameState) in
  findBestMoveLoop gameState currentScore
    (generateLegalMoves (state gameState)) None NegInf.

End Heuristic.

(** ** Chaos bot: the Spoiler strategy and the hybrid *)

Module Chaos.
Import Common.

Definition evaluatePatternBreaking (state : BoardState) (position : Z)
    (color : Color) : Z :=
  let c := indexToCoords position in
  let rowBefore := getRow state (row c) in
  let rowPotentialBefore := analyzeSequencePotential rowBefore in
  let tempState := array_set state position color in
  let rowAfter := getRow tempState (row c) in
  let rowPotentialAfter := analyzeSequencePotential rowAfter in
  let colBefore := getColumn state (col c) in
  let colPotentialBefore := analyzeSequencePotential colBefore in
  let colAfter := getColumn tempState (col c) in
  let colPotentialAfter := analyzeSequencePotential colAfter in
  let rowDisruption :=
    (almostComplete rowPotentialBefore - almostComplete rowPotentialAfter) * 10
    + (twoMove rowPotentialBefore - twoMove rowPotentialAfter) * 5 in
  let colDisruption :=
    (almostComplete colPotentialBefore - almostComplete colPotentialAfter) * 10
    + (twoMove colPotentialBefore - twoMove colPotentialAfter) * 5 in
  rowDisruption + colDisruption.

Inductive Direction : Set := horizontal | vertical.

Definition couldFormPalindrome (state : BoardState) (startRow startCol length : Z)
    (direction : Direction) (position : Z) : bool :=
  let sequence :=
    map (fun i =>
           let idx := match direction with
                      | horizontal => coordsToIndex startRow (startCol + i)
                      | vertical => coordsToIndex (startRow + i) startCol
                      end in
           cell state idx)
        (range 0 length) in
  let posInSequence :=
    match direction with
    | horizontal => col (indexToCoords position) - startCol
    | vertical => row (indexToCoords position) - startRow
    end in
  if (posInSequence <? 0) || (length <=? posInSequence) then false
  else
    let emptyCount := len (List.filter isEmpty sequence) in
    let filledCount := length - emptyCount in
    if filledCount <? 2 then false
    else
      let matches :=
        sum_over (range 0 (length / 2)) (fun i =>
          let left := cell sequence i in
          let right := cell sequence (length - 1 - i) in
          if nonEmpty left && nonEmpty right && color_eqb left right
          then 1 else 0) in
      1 <=? matches.

Definition evaluateOpportunityDenial (state : BoardState) (position : Z) : Z :=
  let c := indexToCoords position in
  sum_over (range 2 8) (fun n =>
    sum_over (range (Z.max 0 (col c - n + 1)) (Z.min 6 (col c) + 1)) (fun start =>
      if 7 <? start + n then 0
      else if couldFormPalindrome state (row c) start n horizontal position
           then n else 0)
    + sum_over (range (Z.max 0 (row c - n + 1)) (Z.min 6 (row c) + 1)) (fun start =>
      if 7 <? start + n then 0
      else if couldFormPalindrome state start (col c) n vertical position
           then n else 0)).

Definition calculateIsolationScore (state : BoardState) (position : Z)
    (color : Color) : Z :=
  let c := indexToCoords position in
  let rowColors := getRow state (row c) in
  let colColors := getColumn state (col c) in
  let sameColorInRow := len (List.filter (fun x => color_eqb x color) rowColors) in
  let sameColorInCol := len (List.filter (fun x => color_eqb x color) colColors) in
  (7 - sameColorInRow) + (7 - sameColorInCol).

Definition calculateBlockingScore (state : BoardState) (position : Z)
    (color : Color) : Z :=
  let c := indexToCoords position in
  let rowPotential := analyzeSequencePotential (getRow state (row c)) in
  let colPotential := analyzeSequencePotential (getColumn state (col c)) in
  almostComplete rowPotential * 10 + twoMove rowPotential * 5
  + almostComplete colPotential * 10 + twoMove colPotential * 5.

Definition evaluateBagAwareness (state : BoardState) (position : Z)
    (color : Color) : Z :=
  let remaining := inferRemainingColors state in
  let colorCount := getOr0 remaining color in
  if colorCount <=? 2
  then 0 + calculateIsolationScore state position color
  else 0 + calculateBlockingScore state position color.

Definition selectTopMovesByQuickHeuristic (state : BoardState)
    (moves : list Move) (count : Z) : list Move :=
  if len moves <=? count then moves
  else
    let scoredMoves :=
      map (fun move =>
             let newState := applyMove state move in
             (move, calculateScoreDelta state newState move)) moves in
    let scoredMoves := sortBy (fun a b => snd b - snd a) scoredMoves in
    map fst (slice scoredMoves 0 count).

Definition estimateOrderBestMove (state : BoardState) : Z :=
  let currentScore := calculateFullBoardScore state in
  let allMoves := getAllLegalMoves state in
  let topMoves := selectTopMovesByQuickHeuristic state allMoves 50 in
  fold_left (fun bestScore move =>
               let newState := applyMove state move in
               let score := calculateFullBoardScore newState in
               if bestScore <? score then score else bestScore)
            topMoves currentScore.

Definition evaluateSpoilerPlacement (gameState : GameState) (position : Z)
    (color : Color) : Z :=
  let newState := applyPlacement (state gameState) position color in
  let patternBreaking := evaluatePatternBreaking newState position color in
  let opportunityDenial := evaluateOpportunityDenial newState position in
  let bagAwareness := evaluateBagAwareness newState position color in
  let orderBestScore := estimateOrderBestMove newState in
  - patternBreaking * 50 + - opportunityDenial * 30 + - bagAwareness * 20
  + orderBestScore * 100.

(** [formatChaosMove(position)]; [None] is [undefined], for which
    [indexToPosition] computes with [NaN]: [String.fromCharCode(NaN)] is the
    character of code 0 and [NaN + 1] prints as [NaN]. *)
Definition formatChaosMove (position : option Z) : ChaosMove :=
  match position with
  | Some p => indexToPosition p
  | None => fromCharCode 0 +:+ "NaN"
  end.

(** A selection loop of the Chaos bots: the candidate whose score is
    strictly better than the best so far replaces it. *)
Definition selectBest (better : num -> num -> bool) (scoreOf : Z -> num)
    (candidates : list Z) (start : num) (fallback : option Z) : option Z :=
  snd (fold_left (fun acc position =>
                    let score := scoreOf position in
                    if better score (fst acc) then (score, Some position) else acc)
                 candidates (start, fallback)).

(** [chaosNextTurn] of the Spoiler strategy. *)
Definition chaosNextTurn (gameState : GameState) : ChaosMove :=
  let color := nextToken gameState in
  let emptyPositions := getEmptyPositions (state gameState) in
  let bestPosition :=
    selectBest num_ltb
      (fun position =>
         Fin (inject_Z (evaluateSpoilerPlacement gameState position color)))
      emptyPositions PosInf (head emptyPositions) in
  formatChaosMove bestPosition.

Section Hybrid.
(** The two evaluators the hybrid blends; what it returns is examined for
    every pair of them. *)
Variable evaluateCompleteSpoilerPlacement : GameState -> Z -> Q.
Variable evaluateEntropy : GameState -> Z -> Color -> Q.

Definition chaosNextTurnHybrid (gameState : GameState) : ChaosMove :=
  let color := nextToken gameState in
  let phase := determineGamePhase (state gameState) in
  let emptyPositions := getEmptyPositions (state gameState) in
  let (spoilerWeight, gapWeight) :=
    match phase with
    | early => (0.4, 0.6)
    | mid => (0.6, 0.4)
    | late => (0.8, 0.2)
    end%Q in
  let bestPosition :=
    selectBest (fun a b => num_ltb b a)
      (fun position =>
         let spoilerScore :=
           (- evaluateCompleteSpoilerPlacement gameState position)%Q in
         let gapScore := evaluateEntropy gameState position color in
         let normalizedSpoiler := (spoilerScore / 100)%Q in
         let normalizedGap := (gapScore / 100)%Q in
         Fin (normalizedSpoiler * spoilerWeight + normalizedGap * gapWeight)%Q)
      emptyPositions NegInf (head emptyPositions) in
  formatChaosMove bestPosition.
End Hybrid.

(** *** Strategy selection *)

Inductive Strategy : Set := spoiler | gap | hybrid.

Definition selectChaosStrategy (gameState : GameState) : Strategy :=
  let phase := determineGamePhase (state gameState) in
  let emptyCount := len (getEmptyPositions (state gameState)) in
  let moveCount := len (getAllLegalMoves (state gameState)) in
  if (500 <? moveCount)
     && negb (match phase with early => true | _ => false end)
  then spoiler
  else if (match phase with early => true | _ => false end)
          && (35 <? emptyCount)
  then gap
  else hybrid.

End Chaos.

(** ** What the design text says of the evaluator *)

Module Design.
Import Common.

(** "Weighted sum of six components": immediate score x100, pattern
    potential x50, board control x30, opponent-opportunity penalty x-40,
    announced-color preparation x20, line fertility x25. *)
Definition weightedSum (immediate potential control opportunities
                        distribution fertility : Q) : Q :=
  (immediate * 100 + potential * 50 + control * 30 + opportunities * -40
   + distribution * 20 + fertility * 25)%Q.

(** A "vulnerable" line: at least one empty cell, at least two filled
    cells, and either matching endpoints or an adjacent same-color pair
    among the filled cells. *)
Definition vulnerableLine (line : list Color) : Prop :=
  let filled := List.filter nonEmpty line in
  In Empty line
  /\ 2 <= len filled
  /\ (cell filled 0 = cell filled (len filled - 1)
      \/ exists i, 0 <= i /\ i + 1 < len filled
                   /\ cell filled i = cell filled (i + 1)).

End Design.

(** ** Sample states *)

Module Samples.
Import Common.

Definition emptyBoard : BoardState := repeat Empty 49.

(** One R on cell 24 (d4), G announced. *)
Definition loneR : GameState :=
  {| state := array_set emptyBoard 24 R; nextToken := G; turn := order |}.

(** R on cell 3 (a4) and G on cell 8 (b2), B announced. *)
Definition twoPieces : GameState :=
  {| state := array_set (array_set emptyBoard 3 R) 8 G;
     nextToken := B; turn := order |}.

(** R on a1 and a3, and R on b2: sliding b2 up to a2 completes RRR in the
    first row. *)
Definition board_RRR : BoardState :=
  [R; Empty; R; Empty; Empty; Empty; Empty;
   Empty; R; Empty; Empty; Empty; Empty; Empty]
  ++ repeat Empty 35.

(** A board with no empty cell. *)
Definition fullBoard : GameState :=
  {| state := repeat R 49; nextToken := G; turn := chaos |}.

(** Exchanging R and G. *)
Definition swapRG (c : Color) : Color :=
  match c with R => G | G => R | c => c end.

(** A clock that stands still at 0: the deadline never passes. *)
Definition stillClock : Clock := {| readings := []; later := 0 |}.

(** A clock that reads 0 for the first [n] calls and 5000 afterwards. *)
Definition clockJumpingAfter (n : nat) : Clock :=
  {| readings := repeat 0 n; later := 5000 |}.

Definition tm0 : TimeManager := {| startTime := 0; timeLimit := 2000 |}.

End Samples.

(** ** Notions for the further properties *)

Module Notions.
Import Common.

(** The board read with rows and columns exchanged. *)
Definition transpose (s : BoardState) : BoardState :=
  map (fun i => cell s (coordsToIndex (col (indexToCoords i)) (row (indexToCoords i))))
      (range 0 49).

(** The board read with every row from right to left. *)
Definition mirror (s : BoardState) : BoardState :=
  map (fun i => cell s (coordsToIndex (row (indexToCoords i))
                                      (6 - col (indexToCoords i))))
      (range 0 49).

(** Every entry of the score cache is the score of the sequences it is
    the key of. *)
Definition cache_sound (cache : JsMap Z) : Prop :=
  forall key v sequence,
    map_get cache key = Some v -> joinColors sequence = key ->
    scoreSequence sequence = v.

(** The keys of a [Map], in insertion order. *)
Definition keysOf {V} (m : JsMap V) : list string := map fst m.

(** The representation invariant of an [LRUCache]: the keys of the
    underlying [Map] are distinct and there are at most [maxSize] of them. *)
Definition lru_ok {V} (c : LRUCache V) : Prop :=
  NoDup (keysOf (cache c)) /\ len (cache c) <= maxSize c.

(** The keys of [ks] other than [key], followed by [key]: the order of use
    after [key] has been touched. *)
Definition touched (ks : list string) (key : string) : list string :=
  List.filter (fun k => negb (bool_decide (k = key))) ks ++ [key].

(** How many cells of a line or board hold the color [c]. *)
Definition countColor (c : Color) (l : list Color) : Z :=
  len (List.filter (fun x => color_eqb x c) l).

(** The seven token colors. *)
Definition COLORS : list Color := [R; G; Y; B; W; K; P].

(** The moves of the piece on cell [fromIdx] in the direction [d]: none when
    the cell is empty. *)
Definition slidesToward (state : BoardState) (d : Z * Z) (fromIdx : Z)
  : list Move :=
  if isEmpty (cell state fromIdx) then []
  else slide slide_fuel state (fst d) (snd d) fromIdx
             (row (indexToCoords fromIdx)) (col (indexToCoords fromIdx)).

End Notions.

Import Common.

(** * Properties *)

(** ** Loops and arrays *)

Section Basics.

Lemma in_range (lo hi i : Z) : In i (range lo hi) <-> lo <= i < hi.
Proof.
  unfold range. rewrite in_map_iff. split.
  - intros (k & <- & Hk). apply in_seq in Hk. lia.
  - intros Hi. exists (Z.to_nat (i - lo)). split; [lia|].
    apply in_seq. lia.
Qed.

Lemma length_range (lo hi : Z) : length (range lo hi) = Z.to_nat (hi - lo).
Proof. unfold range. now rewrite length_map, length_seq. Qed.

Lemma sum_over_acc {A} (f : A -> Z) (l : list A) (a : Z) :
  fold_left (fun total x => total + f x) l a = a + sum_over l f.
Proof.
  unfold sum_over. revert a.
  induction l as [|x l IH]; intros a; simpl; [lia|].
  rewrite (IH (a + f x)), (IH (0 + f x)). lia.
Qed.

Lemma sum_over_nil {A} (f : A -> Z) : sum_over [] f = 0.
Proof. reflexivity. Qed.

Lemma sum_over_cons {A} (f : A -> Z) (x : A) (l : list A) :
  sum_over (x :: l) f = f x + sum_over l f.
Proof. unfold sum_over at 1. simpl. now rewrite sum_over_acc. Qed.

Lemma sum_over_ext {A} (f g : A -> Z) (l : list A) :
  (forall x, In x l -> f x = g x) -> sum_over l f = sum_over l g.
Proof.
  induction l as [|x l IH]; intros H; [reflexivity|].
  rewrite !sum_over_cons, (H x), IH; auto with datatypes.
Qed.

Lemma sum_over_zero {A} (f : A -> Z) (l : list A) :
  (forall x, In x l -> f x = 0) -> sum_over l f = 0.
Proof.
  induction l as [|x l IH]; intros H; [reflexivity|].
  rewrite sum_over_cons, (H x), IH; auto with datatypes.
Qed.

Lemma sum_over_sub {A} (f g : A -> Z) (l : list A) :
  sum_over l f - sum_over l g = sum_over l (fun x => f x - g x).
Proof.
  induction l as [|x l IH]; [reflexivity|].
  rewrite !sum_over_cons, <- IH. lia.
Qed.

Lemma sum_over_bounds {A} (f : A -> Z) (l : list A) (k : Z) :
  (forall x, In x l -> 0 <= f x <= k) -> 0 <= sum_over l f <= k * len l.
Proof.
  unfold len. induction l as [|x l IH]; intros H.
  - rewrite sum_over_nil. simpl. lia.
  - rewrite sum_over_cons. simpl length.
    specialize (H x (or_introl eq_refl)) as Hx.
    assert (0 <= sum_over l f <= k * Z.of_nat (length l))
      by (apply IH; auto with datatypes).
    lia.
Qed.

Lemma cell_nth (a : list Color) (i : Z) :
  0 <= i -> cell a i = nth (Z.to_nat i) a Empty.
Proof. intros Hi. unfold cell. destruct (Z.ltb_spec i 0); [lia|reflexivity]. Qed.

Lemma cell_array_set (a : list Color) (i j : Z) (v : Color) :
  0 <= i < len a -> 0 <= j ->
  cell (array_set a i v) j = if bool_decide (i = j) then v else cell a j.
Proof.
  unfold len. intros Hi Hj. unfold array_set.
  destruct (Z.ltb_spec i 0); [lia|].
  rewrite !cell_nth, !nth_lookup by lia.
  case_bool_decide as Hij.
  - subst j. rewrite list_lookup_insert_eq by lia. reflexivity.
  - rewrite list_lookup_insert_ne by lia. reflexivity.
Qed.

Lemma length_array_set {A} (a : list A) (i : Z) (v : A) :
  length (array_set a i v) = length a.
Proof. unfold array_set. destruct (i <? 0); [reflexivity|apply length_insert]. Qed.

Lemma wf_array_set (s : BoardState) (i : Z) (v : Color) :
  wf_board s -> wf_board (array_set s i v).
Proof. unfold wf_board. now rewrite length_array_set. Qed.

Lemma board_ext (s1 s2 : BoardState) :
  wf_board s1 -> wf_board s2 ->
  (forall i, 0 <= i < 49 -> cell s1 i = cell s2 i) -> s1 = s2.
Proof.
  unfold wf_board. intros H1 H2 H.
  apply (nth_ext _ _ Empty Empty); [congruence|].
  intros n Hn. specialize (H (Z.of_nat n)).
  rewrite !cell_nth, Nat2Z.id in H by lia. apply H. lia.
Qed.

Lemma color_eqb_eq (a b : Color) : color_eqb a b = true <-> a = b.
Proof. unfold color_eqb. apply bool_decide_eq_true. Qed.

Lemma nonEmpty_true (c : Color) : nonEmpty c = true <-> c <> Empty.
Proof.
  unfold nonEmpty, color_eqb. rewrite negb_true_iff, bool_decide_eq_false.
  reflexivity.
Qed.

Lemma isEmpty_true (c : Color) : isEmpty c = true <-> c = Empty.
Proof. apply color_eqb_eq. Qed.

Lemma isEmpty_nonEmpty (c : Color) : isEmpty c = negb (nonEmpty c).
Proof. unfold nonEmpty, isEmpty. now rewrite negb_involutive. Qed.

End Basics.

(** ** The score table (C7) *)

Lemma PALINDROME_SCORES_nonzero (sig : string) (v : Z) :
  PALINDROME_SCORES !! sig = Some v -> v <> 0.
Proof.
  assert (H : map_Forall (fun _ v => v <> 0) PALINDROME_SCORES).
  { apply map_Forall_to_list. vm_compute. repeat constructor; discriminate. }
  intros Hv. exact (H sig v Hv).
Qed.

(** C7.  The score table holds exactly the 30 signatures of lengths 2 to 7
    with the points of the external-interface contract, and
    [scorePalindrome] returns the table entry of the sequence's signature,
    or the sequence's length when the signature is absent. *)
Theorem score_table_contract :
  size PALINDROME_SCORES = 30%nat
  /\ PALINDROME_SCORES !! "AA" = Some 2
  /\ PALINDROME_SCORES !! "ABA" = Some 3
  /\ PALINDROME_SCORES !! "AAA" = Some 7
  /\ PALINDROME_SCORES !! "ABBA" = Some 6
  /\ PALINDROME_SCORES !! "AAAA" = Some 16
  /\ PALINDROME_SCORES !! "ABCBA" = Some 8
  /\ PALINDROME_SCORES !! "AABAA" = Some 12
  /\ PALINDROME_SCORES !! "ABABA" = Some 14
  /\ PALINDROME_SCORES !! "ABBBA" = Some 12
  /\ PALINDROME_SCORES !! "AAAAA" = Some 30
  /\ PALINDROME_SCORES !! "AABBAA" = Some 16
  /\ PALINDROME_SCORES !! "ABAABA" = Some 18
  /\ PALINDROME_SCORES !! "ABBBBA" = Some 22
  /\ PALINDROME_SCORES !! "ABCCBA" = Some 12
  /\ PALINDROME_SCORES !! "AAAAAA" = Some 50
  /\ PALINDROME_SCORES !! "ABCDCBA" = Some 15
  /\ PALINDROME_SCORES !! "AAABAAA" = Some 29
  /\ PALINDROME_SCORES !! "AABABAA" = Some 25
  /\ PALINDROME_SCORES !! "AABBBAA" = Some 23
  /\ PALINDROME_SCORES !! "AABCBAA" = Some 19
  /\ PALINDROME_SCORES !! "ABAAABA" = Some 25
  /\ PALINDROME_SCORES !! "ABABABA" = Some 27
  /\ PALINDROME_SCORES !! "ABACABA" = Some 21
  /\ PALINDROME_SCORES !! "ABBABBA" = Some 27
  /\ PALINDROME_SCORES !! "ABBBBBA" = Some 37
  /\ PALINDROME_SCORES !! "ABBCBBA" = Some 19
  /\ PALINDROME_SCORES !! "ABCACBA" = Some 15
  /\ PALINDROME_SCORES !! "ABCBCBA" = Some 21
  /\ PALINDROME_SCORES !! "ABCCCBA" = Some 19
  /\ PALINDROME_SCORES !! "AAAAAAA" = Some 77
  /\ forall seq : list Color,
       scorePalindrome seq
       = match PALINDROME_SCORES !! getPalindromeSignature seq with
         | Some points => points
         | None => len seq
         end.
Proof.
  repeat (split; [vm_compute; reflexivity|]).
  intros seq. unfold scorePalindrome.
  destruct (PALINDROME_SCORES !! getPalindromeSignature seq) as [v|] eqn:Hv;
    [|reflexivity].
  apply PALINDROME_SCORES_nonzero in Hv.
  destruct (Z.eqb_spec v 0); [contradiction|reflexivity].
Qed.

(** ** Scores of the lines AAAAAAA and ABCBA (C1) *)

(** The claim as stated fails: a line of seven identical colors does not
    score 77. *)
Lemma scoreSequence_seven_equal_not_77 :
  scoreSequence [R; R; R; R; R; R; R] <> 77.
Proof. vm_compute. discriminate. Qed.

(** C1, amended.  Every palindromic sub-run is looked up in the table and
    added: a line whose filled cells are seven identical colors scores
    378 = 77 + 2*50 + 3*30 + 4*16 + 5*7 + 6*2, and a line whose filled cells
    are ABCBA with three distinct colors scores 11 = 8 + 3. *)
Theorem scoreSequence_all_subruns (line : list Color) (a b c : Color) :
  (List.filter nonEmpty line = [a; a; a; a; a; a; a] ->
   scoreSequence line = 378)
  /\ (List.filter nonEmpty line = [a; b; c; b; a] ->
      a <> b -> a <> c -> b <> c ->
      scoreSequence line = 11).
Proof.
  split.
  - intros H. unfold scoreSequence. cbv zeta. rewrite H.
    destruct a; vm_compute; reflexivity.
  - intros H Hab Hac Hbc. unfold scoreSequence. cbv zeta. rewrite H.
    destruct a, b, c; try contradiction; vm_compute; reflexivity.
Qed.

Lemma scoreSequence_all_subruns_witness :
  scoreSequence [P; P; P; P; P; P; P] = 378
  /\ scoreSequence [R; G; Empty; Y; G; R; Empty] = 11.
Proof.
  split.
  - apply (proj1 (scoreSequence_all_subruns
                    [P; P; P; P; P; P; P] P P P)).
    reflexivity.
  - apply (proj2 (scoreSequence_all_subruns
                    [R; G; Empty; Y; G; R; Empty] R G Y));
      [reflexivity | discriminate | discriminate | discriminate].
Defined.

(** ** Move generation (C2) *)

Section SlideLoop.
Variables (state : BoardState) (dRow dCol fromIdx : Z).

(** [steps row col] bounds the number of iterations left before the walk
    leaves the board. *)
Variable steps : Z -> Z -> Z.
Hypothesis steps_decrease : forall row col,
  isValidCoord (row + dRow) (col + dCol) = true ->
  0 <= steps (row + dRow) (col + dCol) < steps row col.

Lemma slide_fuel_irrelevant (fuel1 fuel2 : nat) (row col : Z) :
  steps row col < Z.of_nat fuel1 -> steps row col < Z.of_nat fuel2 ->
  slide fuel1 state dRow dCol fromIdx row col
  = slide fuel2 state dRow dCol fromIdx row col.
Proof.
  revert fuel2 row col.
  induction fuel1 as [|fuel1 IH]; intros [|fuel2] row col H1 H2; simpl;
    try reflexivity.
  - destruct (isValidCoord (row + dRow) (col + dCol)) eqn:Hv; simpl;
      [|reflexivity].
    apply steps_decrease in Hv. lia.
  - destruct (isValidCoord (row + dRow) (col + dCol)) eqn:Hv; simpl;
      [|reflexivity].
    apply steps_decrease in Hv. lia.
  - destruct (isValidCoord (row + dRow) (col + dCol)) eqn:Hv; simpl;
      [|reflexivity].
    destruct (nonEmpty _); [reflexivity|].
    f_equal. apply steps_decrease in Hv. apply IH; lia.
Qed.

Lemma slide_length (fuel : nat) (row col : Z) :
  len (slide fuel state dRow dCol fromIdx row col) <= Z.max 0 (steps row col).
Proof.
  unfold len. revert row col.
  induction fuel as [|fuel IH]; intros row col; simpl; [lia|].
  destruct (isValidCoord (row + dRow) (col + dCol)) eqn:Hv; simpl; [|lia].
  destruct (nonEmpty _); simpl; [lia|].
  apply steps_decrease in Hv.
  specialize (IH (row + dRow) (col + dCol)). lia.
Qed.
End SlideLoop.

Lemma slide_sound (state : BoardState) (dRow dCol fromIdx : Z) (fuel : nat)
    (row col : Z) (m : Move) :
  In m (slide fuel state dRow dCol fromIdx row col) ->
  from m = fromIdx
  /\ exists k, 1 <= k
     /\ to m = coordsToIndex (row + k * dRow) (col + k * dCol)
     /\ forall j, 1 <= j <= k ->
          isValidCoord (row + j * dRow) (col + j * dCol) = true
          /\ cell state (coordsToIndex (row + j * dRow) (col + j * dCol)) = Empty.
Proof.
  revert row col.
  induction fuel as [|fuel IH]; intros row col; simpl; [contradiction|].
  destruct (isValidCoord (row + dRow) (col + dCol)) eqn:Hv; simpl;
    [|contradiction].
  destruct (nonEmpty (cell state (coordsToIndex (row + dRow) (col + dCol))))
    eqn:Hc; [contradiction|].
  assert (Hc' : cell state (coordsToIndex (row + dRow) (col + dCol)) = Empty).
  { destruct (cell state _); (reflexivity || discriminate). }
  intros [<- | Hin].
  - split; [reflexivity|]. exists 1. split; [lia|]. split.
    + simpl. now rewrite !Z.mul_1_l.
    + intros j Hj. assert (j = 1) as -> by lia.
      now rewrite !Z.mul_1_l.
  - destruct (IH _ _ Hin) as (Hf & k & Hk & Hto & Hall).
    split; [exact Hf|]. exists (k + 1). split; [lia|]. split.
    + rewrite Hto. f_equal; ring.
    + intros j Hj. destruct (Z.eq_dec j 1) as [-> | Hj1].
      * now rewrite !Z.mul_1_l.
      * specialize (Hall (j - 1) ltac:(lia)).
        replace (row + dRow + (j - 1) * dRow) with (row + j * dRow) in Hall
          by ring.
        replace (col + dCol + (j - 1) * dCol) with (col + j * dCol) in Hall
          by ring.
        exact Hall.
Qed.

(** The loop always reaches its [break] within 7 iterations: more fuel
    yields the same moves. *)
Lemma slide_fuel_enough (state : BoardState) (d : Z * Z) (fromIdx row col : Z)
    (fuel : nat) :
  In d DIRECTIONS -> 0 <= row < 7 -> 0 <= col < 7 -> (7 <= fuel)%nat ->
  slide fuel state (fst d) (snd d) fromIdx row col
  = slide slide_fuel state (fst d) (snd d) fromIdx row col.
Proof.
  unfold slide_fuel, isValidCoord.
  intros Hd Hr Hc Hf. simpl in Hd.
  destruct Hd as [<- | [<- | [<- | [<- | []]]]]; simpl fst; simpl snd.
  - apply (slide_fuel_irrelevant _ _ _ _ (fun r _ => r)); unfold isValidCoord; lia.
  - apply (slide_fuel_irrelevant _ _ _ _ (fun r _ => 6 - r)); unfold isValidCoord; lia.
  - apply (slide_fuel_irrelevant _ _ _ _ (fun _ c => c)); unfold isValidCoord; lia.
  - apply (slide_fuel_irrelevant _ _ _ _ (fun _ c => 6 - c)); unfold isValidCoord; lia.
Qed.

Lemma indexToCoords_bounds (idx : Z) :
  0 <= idx < 49 ->
  0 <= row (indexToCoords idx) < 7 /\ 0 <= col (indexToCoords idx) < 7
  /\ coordsToIndex (row (indexToCoords idx)) (col (indexToCoords idx)) = idx.
Proof.
  intros H. unfold indexToCoords, coordsToIndex. simpl.
  rewrite Z.rem_mod_nonneg by lia.
  pose proof (Z.mod_pos_bound idx 7 ltac:(lia)).
  pose proof (Z.div_mod idx 7 ltac:(lia)).
  assert (0 <= idx / 7 < 7)
    by (split; [apply Z.div_pos; lia | apply Z.div_lt_upper_bound; lia]).
  lia.
Qed.

Lemma movesOfPiece_length (state : BoardState) (fromIdx : Z) :
  0 <= fromIdx < 49 -> len (movesOfPiece state fromIdx) <= 12.
Proof.
  intros H. destruct (indexToCoords_bounds fromIdx H) as (Hr & Hc & _).
  set (r := row (indexToCoords fromIdx)) in *.
  set (c := col (indexToCoords fromIdx)) in *.
  assert (E : movesOfPiece state fromIdx
              = slide slide_fuel state (-1) 0 fromIdx r c
                ++ slide slide_fuel state 1 0 fromIdx r c
                ++ slide slide_fuel state 0 (-1) fromIdx r c
                ++ slide slide_fuel state 0 1 fromIdx r c ++ [])
    by reflexivity.
  rewrite E. unfold len. rewrite !length_app. simpl (length []).
  pose proof (slide_length state (-1) 0 fromIdx (fun r _ => r)
                ltac:(unfold isValidCoord; lia) slide_fuel r c) as H1.
  pose proof (slide_length state 1 0 fromIdx (fun r _ => 6 - r)
                ltac:(unfold isValidCoord; lia) slide_fuel r c) as H2.
  pose proof (slide_length state 0 (-1) fromIdx (fun _ c => c)
                ltac:(unfold isValidCoord; lia) slide_fuel r c) as H3.
  pose proof (slide_length state 0 1 fromIdx (fun _ c => 6 - c)
                ltac:(unfold isValidCoord; lia) slide_fuel r c) as H4.
  unfold len in H1, H2, H3, H4. cbv beta in H1, H2, H3, H4. lia.
Qed.

Lemma movesOfPiece_from (state : BoardState) (fromIdx : Z) (m : Move) :
  In m (movesOfPiece state fromIdx) -> from m = fromIdx.
Proof.
  unfold movesOfPiece. rewrite in_flat_map.
  intros (d & _ & Hin). now apply slide_sound in Hin.
Qed.

Lemma getLegalMovesForPiece_from (state : BoardState) (fromIdx : Z) (m : Move) :
  In m (getLegalMovesForPiece state fromIdx) -> from m = fromIdx.
Proof.
  unfold getLegalMovesForPiece. destruct (isEmpty _); [contradiction|].
  apply movesOfPiece_from.
Qed.

Lemma NoDup_range (lo hi : Z) : NoDup (range lo hi).
Proof.
  unfold range. apply NoDup_fmap_2; [|apply NoDup_seq].
  intros x y Hxy. lia.
Qed.

Lemma filter_none {A} (f : A -> bool) (l : list A) :
  (forall x, In x l -> f x = false) -> List.filter f l = [].
Proof.
  induction l as [|x l IH]; intros H; simpl; [reflexivity|].
  rewrite (H x) by auto with datatypes. apply IH. auto with datatypes.
Qed.

Lemma filter_all {A} (f : A -> bool) (l : list A) :
  (forall x, In x l -> f x = true) -> List.filter f l = l.
Proof.
  induction l as [|x l IH]; intros H; simpl; [reflexivity|].
  rewrite (H x) by auto with datatypes. f_equal. apply IH. auto with datatypes.
Qed.

Lemma filter_origin_flat_map (g : Z -> list Move) (i : Z) (l : list Z) :
  (forall j m, In m (g j) -> from m = j) ->
  NoDup l -> In i l ->
  List.filter (fun m => bool_decide (from m = i)) (flat_map g l) = g i.
Proof.
  intros Hg. induction l as [|x l IH]; intros Hnd Hin; [contradiction|].
  apply NoDup_cons in Hnd as [Hx Hnd]. rewrite list_elem_of_In in Hx.
  simpl. rewrite List.filter_app.
  destruct (Z.eq_dec x i) as [-> | Hxi].
  - rewrite filter_all, filter_none.
    + apply app_nil_r.
    + intros m Hm. apply in_flat_map in Hm as (j & Hj & Hm).
      apply Hg in Hm. apply bool_decide_eq_false. intros E.
      apply Hx. congruence.
    + intros m Hm. apply bool_decide_eq_true. now apply Hg.
  - rewrite filter_none.
    + simpl. apply IH; [exact Hnd|]. destruct Hin; [contradiction|assumption].
    + intros m Hm. apply Hg in Hm. apply bool_decide_eq_false. congruence.
Qed.

(** The moves the generator yields for one piece are those of
    [getLegalMovesForPiece]. *)
Lemma generateLegalMoves_of_piece (state : BoardState) (fromIdx : Z) :
  0 <= fromIdx < 49 ->
  List.filter (fun m => bool_decide (from m = fromIdx)) (generateLegalMoves state)
  = getLegalMovesForPiece state fromIdx.
Proof.
  intros H. unfold generateLegalMoves.
  rewrite (filter_origin_flat_map
             (fun i => if isEmpty (cell state i) then [] else movesOfPiece state i)).
  - reflexivity.
  - intros j m. destruct (isEmpty _); [contradiction|]. apply movesOfPiece_from.
  - apply NoDup_range.
  - apply in_range. lia.
Qed.

Lemma getLegalMovesForPiece_length (state : BoardState) (fromIdx : Z) :
  0 <= fromIdx < 49 -> 0 <= len (getLegalMovesForPiece state fromIdx) <= 12.
Proof.
  intros H. unfold getLegalMovesForPiece.
  destruct (isEmpty _).
  - unfold len. simpl. lia.
  - pose proof (movesOfPiece_length state fromIdx H). unfold len in *. lia.
Qed.

(** The claim as stated fails: a lone piece on cell 24 does not have 24
    slides. *)
Lemma lone_piece_not_24_slides :
  length (getAllLegalMoves (array_set (repeat Empty 49) 24 R)) <> 24%nat.
Proof. vm_compute. discriminate. Qed.

Lemma lone_piece_board (state : BoardState) :
  wf_board state ->
  (forall i, 0 <= i < 49 -> i <> 24 -> cell state i = Empty) ->
  state = array_set (repeat Empty 49) 24 (cell state 24).
Proof.
  intros Hwf Hcells. apply board_ext; [exact Hwf| |].
  - apply wf_array_set. unfold wf_board. apply repeat_length.
  - intros i Hi. rewrite cell_array_set by (unfold len; rewrite ?repeat_length; lia).
    case_bool_decide as E; [now subst i|].
    rewrite Hcells by lia. rewrite cell_nth by lia.
    symmetry. apply nth_repeat.
Qed.

(** C2, amended.  On a board that is empty except for a piece on cell 24,
    move generation yields exactly 12 slides, all of that piece: 3 up, 3
    down, 3 left and 3 right; and on every board the generator yields
    between 0 and 24 destinations for any one piece. *)
Theorem legal_moves_of_a_piece (state : BoardState) (fromIdx : Z) :
  wf_board state ->
  ((forall i, 0 <= i < 49 -> i <> 24 -> cell state i = Empty) ->
   cell state 24 <> Empty ->
   getAllLegalMoves state
   = map (fun t => {| from := 24; to := t |})
         [17; 10; 3; 31; 38; 45; 23; 22; 21; 25; 26; 27])
  /\ (0 <= fromIdx < 49 ->
      0 <= len (List.filter (fun m => bool_decide (from m = fromIdx))
                            (generateLegalMoves state)) <= 24).
Proof.
  intros Hwf. split.
  - intros Hcells Hpiece. rewrite (lone_piece_board state Hwf Hcells).
    destruct (cell state 24); try contradiction; vm_compute; reflexivity.
  - intros H. rewrite generateLegalMoves_of_piece by exact H.
    pose proof (getLegalMovesForPiece_length state fromIdx H). lia.
Qed.

Lemma legal_moves_of_a_piece_witness :
  length (getAllLegalMoves (array_set (repeat Empty 49) 24 G)) = 12%nat
  /\ 0 <= len (List.filter (fun m => bool_decide (from m = 24))
                 (generateLegalMoves (array_set (repeat Empty 49) 24 G))) <= 24.
Proof.
  pose proof (legal_moves_of_a_piece (array_set (repeat Empty 49) 24 G) 24
                ltac:(reflexivity)) as [H1 H2].
  split.
  - rewrite H1; [reflexivity| |discriminate].
    intros i Hi Hne.
    rewrite cell_array_set by (unfold len; simpl; lia).
    case_bool_decide; [lia|].
    rewrite cell_nth by lia. apply nth_repeat.
  - apply H2. lia.
Defined.

(** Every generated move is a slide the rules allow. *)
Lemma generateLegalMoves_sound (state : BoardState) (m : Move) :
  In m (generateLegalMoves state) -> legalSlide state m.
Proof.
  unfold generateLegalMoves. rewrite in_flat_map.
  intros (fromIdx & Hidx & Hin). apply in_range in Hidx.
  destruct (isEmpty (cell state fromIdx)) eqn:He; [contradiction|].
  unfold movesOfPiece in Hin. apply in_flat_map in Hin as ([dRow dCol] & Hd & Hin).
  apply slide_sound in Hin as (Hfrom & k & Hk & Hto & Hall).
  simpl fst in *. simpl snd in *. subst fromIdx.
  split; [lia|]. split.
  - intros E. apply isEmpty_true in E. congruence.
  - exists dRow, dCol, k. auto.
Qed.

Lemma legalSlide_bounds (state : BoardState) (m : Move) :
  legalSlide state m -> 0 <= from m < 49 /\ 0 <= to m < 49.
Proof.
  intros (Hf & _ & dRow & dCol & k & _ & Hk & Hto & Hall).
  split; [exact Hf|].
  destruct (Hall k ltac:(lia)) as [Hv _].
  unfold isValidCoord in Hv. unfold coordsToIndex in Hto. lia.
Qed.

(** ** Incremental scoring (C5) *)

Section ScoreDelta.

Lemma applyMove_cell_other (s : BoardState) (m : Move) (j : Z) :
  wf_board s -> 0 <= from m < 49 -> 0 <= to m < 49 ->
  0 <= j -> j <> from m -> j <> to m ->
  cell (applyMove s m) j = cell s j.
Proof.
  unfold wf_board, applyMove. intros Hwf Hf Ht Hj Hjf Hjt.
  rewrite !cell_array_set
    by (unfold len; rewrite ?length_array_set, ?Hwf; lia).
  repeat case_bool_decide; congruence.
Qed.

Lemma getRow_applyMove_other (s : BoardState) (m : Move) (r : Z) :
  wf_board s -> 0 <= from m < 49 -> 0 <= to m < 49 -> 0 <= r < 7 ->
  r <> row (indexToCoords (from m)) -> r <> row (indexToCoords (to m)) ->
  getRow (applyMove s m) r = getRow s r.
Proof.
  intros Hwf Hf Ht Hr Hrf Hrt. unfold getRow.
  apply map_ext_in. intros c Hc. apply in_range in Hc.
  destruct (indexToCoords_bounds _ Hf) as (_ & _ & Ef).
  destruct (indexToCoords_bounds _ Ht) as (_ & _ & Et).
  pose proof (indexToCoords_bounds _ Hf) as (? & ? & _).
  pose proof (indexToCoords_bounds _ Ht) as (? & ? & _).
  unfold coordsToIndex in Ef, Et.
  apply applyMove_cell_other; auto; lia.
Qed.

Lemma getColumn_applyMove_other (s : BoardState) (m : Move) (c : Z) :
  wf_board s -> 0 <= from m < 49 -> 0 <= to m < 49 -> 0 <= c < 7 ->
  c <> col (indexToCoords (from m)) -> c <> col (indexToCoords (to m)) ->
  getColumn (applyMove s m) c = getColumn s c.
Proof.
  intros Hwf Hf Ht Hc Hcf Hct. unfold getColumn.
  apply map_ext_in. intros r Hr. apply in_range in Hr.
  destruct (indexToCoords_bounds _ Hf) as (_ & _ & Ef).
  destruct (indexToCoords_bounds _ Ht) as (_ & _ & Et).
  pose proof (indexToCoords_bounds _ Hf) as (? & ? & _).
  pose proof (indexToCoords_bounds _ Ht) as (? & ? & _).
  unfold coordsToIndex in Ef, Et.
  apply applyMove_cell_other; auto; lia.
Qed.

(** A sum over the seven lines of one kind, of a quantity that vanishes
    off the lines [a] and [b]. *)
Lemma sum_over_two_lines (d : Z -> Z) (a b : Z) :
  0 <= a < 7 -> 0 <= b < 7 ->
  (forall r, 0 <= r < 7 -> r <> a -> r <> b -> d r = 0) ->
  sum_over (range 0 7) d = d a + (if negb (b =? a) then d b else 0).
Proof.
  intros Ha Hb H.
  change (range 0 7) with [0; 1; 2; 3; 4; 5; 6].
  rewrite !sum_over_cons, sum_over_nil.
  pose proof (H 0 ltac:(lia)). pose proof (H 1 ltac:(lia)).
  pose proof (H 2 ltac:(lia)). pose proof (H 3 ltac:(lia)).
  pose proof (H 4 ltac:(lia)). pose proof (H 5 ltac:(lia)).
  pose proof (H 6 ltac:(lia)).
  destruct (Z.eqb_spec b a) as [-> | Hne]; simpl negb; cbv iota.
  - assert (Ea : a = 0 \/ a = 1 \/ a = 2 \/ a = 3 \/ a = 4 \/ a = 5 \/ a = 6)
      by lia.
    destruct Ea as [-> | [-> | [-> | [-> | [-> | [-> | ->]]]]]]; lia.
  - assert (Ea : a = 0 \/ a = 1 \/ a = 2 \/ a = 3 \/ a = 4 \/ a = 5 \/ a = 6)
      by lia.
    assert (Eb : b = 0 \/ b = 1 \/ b = 2 \/ b = 3 \/ b = 4 \/ b = 5 \/ b = 6)
      by lia.
    destruct Ea as [-> | [-> | [-> | [-> | [-> | [-> | ->]]]]]];
      destruct Eb as [-> | [-> | [-> | [-> | [-> | [-> | ->]]]]]]; lia.
Qed.

Lemma affectedScore_sum (s : BoardState) (fr fc tr tc : Z) :
  affectedScore s fr fc tr tc
  = (scoreSequence (getRow s fr)
     + (if negb (tr =? fr) then scoreSequence (getRow s tr) else 0))
    + (scoreSequence (getColumn s fc)
       + (if negb (tc =? fc) then scoreSequence (getColumn s tc) else 0)).
Proof.
  unfold affectedScore. destruct (negb (tr =? fr)), (negb (tc =? fc)); lia.
Qed.

(** The incremental delta is the difference of the full scores, for any
    two cells of the board. *)
Lemma calculateScoreDelta_full (oldState : BoardState) (move : Move) :
  wf_board oldState -> 0 <= from move < 49 -> 0 <= to move < 49 ->
  calculateScoreDelta oldState (applyMove oldState move) move
  = calculateFullBoardScore (applyMove oldState move)
    - calculateFullBoardScore oldState.
Proof.
  intros Hwf Hf Ht.
  destruct (indexToCoords_bounds _ Hf) as (Hfr & Hfc & _).
  destruct (indexToCoords_bounds _ Ht) as (Htr & Htc & _).
  unfold calculateScoreDelta, calculateFullBoardScore. cbv zeta.
  rewrite !affectedScore_sum.
  set (new := applyMove oldState move).
  set (fr := row (indexToCoords (from move))) in *.
  set (fc := col (indexToCoords (from move))) in *.
  set (tr := row (indexToCoords (to move))) in *.
  set (tc := col (indexToCoords (to move))) in *.
  pose proof (sum_over_two_lines
                (fun r => scoreSequence (getRow new r)
                          - scoreSequence (getRow oldState r)) fr tr Hfr Htr) as HR.
  pose proof (sum_over_two_lines
                (fun c => scoreSequence (getColumn new c)
                          - scoreSequence (getColumn oldState c)) fc tc Hfc Htc) as HC.
  cbv beta in HR, HC.
  rewrite <- !sum_over_sub in HR, HC.
  assert (HR' := HR ltac:(intros r Hr H1 H2; subst new;
                          rewrite getRow_applyMove_other by assumption; lia)).
  assert (HC' := HC ltac:(intros c Hc H1 H2; subst new;
                          rewrite getColumn_applyMove_other by assumption; lia)).
  destruct (negb (tr =? fr)), (negb (tc =? fc)); lia.
Qed.

End ScoreDelta.

(** C5.  For every board and every legal slide, the score delta computed
    over the affected rows and columns equals the full-board score after
    the slide minus the full-board score before it. *)
Theorem calculateScoreDelta_exact (oldState : BoardState) (move : Move) :
  wf_board oldState ->
  In move (getAllLegalMoves oldState) ->
  calculateScoreDelta oldState (applyMove oldState move) move
  = calculateFullBoardScore (applyMove oldState move)
    - calculateFullBoardScore oldState.
Proof.
  intros Hwf Hin.
  apply generateLegalMoves_sound, legalSlide_bounds in Hin as [Hf Ht].
  now apply calculateScoreDelta_full.
Qed.

Lemma calculateScoreDelta_exact_witness :
  calculateScoreDelta Samples.board_RRR
    (applyMove Samples.board_RRR {| from := 8; to := 1 |})
    {| from := 8; to := 1 |}
  = calculateFullBoardScore (applyMove Samples.board_RRR {| from := 8; to := 1 |})
    - calculateFullBoardScore Samples.board_RRR.
Proof.
  apply (calculateScoreDelta_exact Samples.board_RRR {| from := 8; to := 1 |}).
  - reflexivity.
  - vm_compute. tauto.
Defined.

(** ** Color relabeling (C9) *)

Section Relabeling.
Variable f : Color -> Color.
Hypothesis f_perm : colorPermutation f.

Lemma relabel_color_eqb (a b : Color) : color_eqb (f a) (f b) = color_eqb a b.
Proof.
  destruct f_perm as [_ Hinj]. unfold color_eqb.
  apply bool_decide_ext. split; [apply Hinj | congruence].
Qed.

Lemma relabel_nonEmpty (a : Color) : nonEmpty (f a) = nonEmpty a.
Proof.
  unfold nonEmpty. rewrite <- (proj1 f_perm) at 1.
  now rewrite relabel_color_eqb.
Qed.

Lemma relabel_cell (l : list Color) (i : Z) :
  cell (relabel f l) i = f (cell l i).
Proof.
  destruct f_perm as [Hempty _]. unfold cell, relabel.
  destruct (i <? 0); [now rewrite Hempty|].
  rewrite <- Hempty at 1. apply map_nth.
Qed.

Lemma relabel_len (l : list Color) : len (relabel f l) = len l.
Proof. unfold len, relabel. now rewrite length_map. Qed.

Lemma relabel_filled (l : list Color) :
  List.filter nonEmpty (relabel f l) = relabel f (List.filter nonEmpty l).
Proof.
  unfold relabel. induction l as [|a l IH]; simpl; [reflexivity|].
  rewrite relabel_nonEmpty, IH. now destruct (nonEmpty a).
Qed.

Lemma relabel_slice (l : list Color) (s e : Z) :
  slice (relabel f l) s e = relabel f (slice l s e).
Proof. unfold slice, relabel. now rewrite skipn_map, firstn_map. Qed.

Lemma relabel_isPalindrome (l : list Color) :
  isPalindrome (relabel f l) = isPalindrome l.
Proof.
  unfold isPalindrome. rewrite relabel_len.
  induction (range 0 (len l / 2)) as [|i r IH]; simpl; [reflexivity|].
  now rewrite !relabel_cell, relabel_color_eqb, IH.
Qed.

Lemma sigStep_related (st st' : SigState) (c : Color) :
  sig_related f st st' -> sig_related f (sigStep st c) (sigStep st' (f c)).
Proof.
  destruct f_perm as [_ Hinj].
  intros (Hn & Hs & Hm). unfold sigStep. rewrite (Hm c).
  destruct (mapping st !! c) as [letter|] eqn:Hc; simpl.
  - rewrite (Hm c), Hc, Hs. repeat split; assumption.
  - unfold sig_related. cbn [mapping nextLetter signature].
    rewrite !lookup_insert_eq, Hn, Hs. repeat split; try reflexivity.
    intros c'. destruct (decide (c = c')) as [-> | Hne].
    + now rewrite !lookup_insert_eq.
    + rewrite !lookup_insert_ne; [apply Hm | assumption |].
      intros E. apply Hne. now apply Hinj.
Qed.

Lemma fold_sigStep_related (l : list Color) (st st' : SigState) :
  sig_related f st st' ->
  sig_related f (fold_left sigStep l st) (fold_left sigStep (relabel f l) st').
Proof.
  revert st st'. induction l as [|c l IH]; intros st st' H; simpl; [exact H|].
  apply IH. now apply sigStep_related.
Qed.

Lemma relabel_signature (l : list Color) :
  getPalindromeSignature (relabel f l) = getPalindromeSignature l.
Proof.
  unfold getPalindromeSignature.
  apply (fold_sigStep_related l). repeat split.
Qed.

Lemma relabel_scorePalindrome (l : list Color) :
  scorePalindrome (relabel f l) = scorePalindrome l.
Proof. unfold scorePalindrome. now rewrite relabel_signature, relabel_len. Qed.

Lemma relabel_scoreSequence (l : list Color) :
  scoreSequence (relabel f l) = scoreSequence l.
Proof.
  unfold scoreSequence. rewrite relabel_filled, relabel_len.
  destruct (len (List.filter nonEmpty l) <? 2); [reflexivity|].
  apply sum_over_ext. intros n _. apply sum_over_ext. intros start _.
  cbv zeta.
  now rewrite relabel_slice, relabel_isPalindrome, relabel_scorePalindrome.
Qed.

Lemma relabel_getRow (s : BoardState) (r : Z) :
  getRow (relabel f s) r = relabel f (getRow s r).
Proof.
  unfold getRow. unfold relabel at 2. rewrite map_map.
  apply map_ext. intros c. apply relabel_cell.
Qed.

Lemma relabel_getColumn (s : BoardState) (c : Z) :
  getColumn (relabel f s) c = relabel f (getColumn s c).
Proof.
  unfold getColumn. unfold relabel at 2. rewrite map_map.
  apply map_ext. intros r. apply relabel_cell.
Qed.

Lemma relabel_calculateFullBoardScore (s : BoardState) :
  calculateFullBoardScore (relabel f s) = calculateFullBoardScore s.
Proof.
  unfold calculateFullBoardScore. cbv zeta. f_equal.
  - apply sum_over_ext. intros r _.
    now rewrite relabel_getRow, relabel_scoreSequence.
  - apply sum_over_ext. intros c _.
    now rewrite relabel_getColumn, relabel_scoreSequence.
Qed.
End Relabeling.

(** C9.  For every board and every permutation of the seven color
    identities, the board with every cell's color replaced by its image
    has the same total score. *)
Theorem score_invariant_under_relabeling (state : BoardState)
    (f : Color -> Color) :
  wf_board state -> colorPermutation f ->
  calculateFullBoardScore (relabel f state) = calculateFullBoardScore state.
Proof. intros _ Hf. now apply relabel_calculateFullBoardScore. Qed.

Lemma score_invariant_under_relabeling_witness :
  calculateFullBoardScore (relabel Samples.swapRG Samples.board_RRR)
  = calculateFullBoardScore Samples.board_RRR.
Proof.
  apply (score_invariant_under_relabeling Samples.board_RRR Samples.swapRG).
  - reflexivity.
  - split; [reflexivity|].
    intros a b. destruct a, b; simpl; intros E; (reflexivity || discriminate E).
Defined.

(** ** The minimax search: what every run preserves *)

Section SearchInvariants.
Import Minimax.

Lemma map_get_In {V} (m : JsMap V) (key : string) (v : V) :
  map_get m key = Some v -> In (key, v) m.
Proof.
  induction m as [|[k x] m IH]; simpl; [discriminate|].
  case_bool_decide as E.
  - intros [= ->]. subst k. now left.
  - intros H. right. now apply IH.
Qed.

Lemma map_delete_In {V} (m : JsMap V) (key : string) (e : string * V) :
  In e (map_delete m key) -> In e m.
Proof. unfold map_delete. intros H. now apply List.filter_In in H. Qed.

Lemma map_set_In {V} (m : JsMap V) (key : string) (value : V) (e : string * V) :
  In e (map_set m key value) -> In e m \/ e = (key, value).
Proof.
  induction m as [|[k x] m IH]; simpl.
  - intros [<- | []]. now right.
  - case_bool_decide as E.
    + subst k. intros [<- | H]; [now right | left; now right].
    + intros [<- | H]; [left; now left|].
      destruct (IH H); [left; now right | now right].
Qed.

Lemma lru_get_ok (t : LRUCache num) (key : string) :
  table_ok t ->
  table_ok (snd (lru_get t key))
  /\ forall v, fst (lru_get t key) = Some v -> v <> NegInf.
Proof.
  intros Hok. unfold lru_get.
  destruct (negb (map_has (cache t) key)); [split; [exact Hok | discriminate]|].
  destruct (map_get (cache t) key) as [value|] eqn:Hget;
    [|split; [exact Hok | discriminate]].
  apply map_get_In in Hget. simpl. split.
  - intros k v Hin. simpl in Hin.
    apply map_set_In in Hin as [Hin | [= -> ->]].
    + apply map_delete_In in Hin. now apply (Hok k).
    + now apply (Hok key).
  - intros v [= <-]. now apply (Hok key).
Qed.

Lemma lru_set_ok (t : LRUCache num) (key : string) (value : num) :
  table_ok t -> value <> NegInf -> table_ok (lru_set t key value).
Proof.
  intros Hok Hv. unfold lru_set.
  set (m1 := if map_has (cache t) key then map_delete (cache t) key else cache t).
  assert (H1 : forall e, In e m1 -> In e (cache t)).
  { intros e. subst m1. destruct (map_has _ _); [apply map_delete_In | auto]. }
  assert (H2 : forall k v, In (k, v) (map_set m1 key value) -> v <> NegInf).
  { intros k v Hin. apply map_set_In in Hin as [Hin | [= -> ->]]; [|exact Hv].
    apply H1 in Hin. now apply (Hok k). }
  intros k v. simpl.
  destruct (maxSize t <? len (map_set m1 key value)); [|apply H2].
  destruct (map_set m1 key value) as [|[firstKey x] m2] eqn:E; [apply H2|].
  intros Hin. apply map_delete_In in Hin. now apply (H2 k).
Qed.

Lemma poll_world_ok (tm : TimeManager) (w : World) :
  world_ok w -> world_ok (snd (poll tm w)).
Proof. unfold poll. now destruct (shouldStop tm (clock w)). Qed.

Lemma timeLeft_world_ok (tm : TimeManager) (w : World) :
  world_ok w -> world_ok (snd (timeLeft tm w)).
Proof. unfold timeLeft. now destruct (remaining tm (clock w)). Qed.

Lemma num_max_ok_l (a b : num) : a <> NegInf -> num_max a b <> NegInf.
Proof. unfold num_max. destruct a, b; simpl; try congruence;
       destruct (negb _); congruence. Qed.

Lemma num_max_ok_r (a b : num) : b <> NegInf -> num_max a b <> NegInf.
Proof. unfold num_max. destruct a, b; simpl; try congruence;
       destruct (negb _); congruence. Qed.

Lemma num_min_ok (a b : num) :
  a <> NegInf -> b <> NegInf -> num_min a b <> NegInf.
Proof. unfold num_min. destruct (num_ltb b a); auto. Qed.

Section PlayersOk.
Variable search : Search.
Variable tm : TimeManager.
Hypothesis Hsearch : search_ok search.

Lemma maximizingLoop_ok (gs : GameState) (moves : list Move) :
  forall maxEval alpha beta w,
    maxEval <> NegInf -> world_ok w ->
    fst (maximizingLoop search tm gs moves maxEval alpha beta w) <> NegInf
    /\ world_ok (snd (maximizingLoop search tm gs moves maxEval alpha beta w)).
Proof.
  induction moves as [|m rest IH]; intros maxEval alpha beta w Hm Hw;
    cbn [maximizingLoop]; [now split|].
  unfold bind. pose proof (poll_world_ok tm w Hw) as Hw1.
  destruct (poll tm w) as [stop w1]. simpl in Hw1.
  destruct (stop || num_leb beta alpha); [now split|].
  destruct (Hsearch (with_state gs (applyMove (state gs) m)) alpha beta false
                    w1 Hw1) as [He Hw2].
  destruct (search _ alpha beta false w1) as [eval w2]. simpl in He, Hw2.
  destruct (num_leb beta (num_max alpha eval)).
  - split; [now apply num_max_ok_r | exact Hw2].
  - apply IH; [now apply num_max_ok_r | exact Hw2].
Qed.

Lemma maximizingPlayer_ok (gs : GameState) (alpha beta : num) (w : World) :
  world_ok w ->
  fst (maximizingPlayer search tm gs alpha beta w) <> NegInf
  /\ world_ok (snd (maximizingPlayer search tm gs alpha beta w)).
Proof.
  intros Hw. unfold maximizingPlayer, bind.
  destruct (Hsearch gs alpha beta false w Hw) as [He Hw1].
  destruct (search gs alpha beta false w) as [passEval w1]. simpl in He, Hw1.
  apply maximizingLoop_ok; [now apply num_max_ok_r | exact Hw1].
Qed.

Lemma minimizingLoop_ok (gs : GameState) (positions : list Z) :
  forall minEval alpha beta w,
    minEval <> NegInf -> world_ok w ->
    fst (minimizingLoop search tm gs positions minEval alpha beta w) <> NegInf
    /\ world_ok (snd (minimizingLoop search tm gs positions minEval alpha beta w)).
Proof.
  induction positions as [|p rest IH]; intros minEval alpha beta w Hm Hw;
    cbn [minimizingLoop]; [now split|].
  unfold bind. pose proof (poll_world_ok tm w Hw) as Hw1.
  destruct (poll tm w) as [stop w1]. simpl in Hw1.
  destruct (stop || num_leb beta alpha); [now split|].
  destruct (Hsearch (with_state gs (applyPlacement (state gs) p (nextToken gs)))
                    alpha beta true w1 Hw1) as [He Hw2].
  destruct (search _ alpha beta true w1) as [eval w2]. simpl in He, Hw2.
  destruct (num_leb (num_min beta eval) alpha).
  - split; [now apply num_min_ok | exact Hw2].
  - apply IH; [now apply num_min_ok | exact Hw2].
Qed.

Lemma minimizingPlayer_ok (gs : GameState) (alpha beta : num) (w : World) :
  world_ok w ->
  fst (minimizingPlayer search tm gs alpha beta w) <> NegInf
  /\ world_ok (snd (minimizingPlayer search tm gs alpha beta w)).
Proof.
  intros Hw. unfold minimizingPlayer.
  apply minimizingLoop_ok; [discriminate | exact Hw].
Qed.
End PlayersOk.

(** [minimax] never returns [-Infinity] and stores only evaluator results. *)
Lemma minimax_ok (depth : nat) (tm : TimeManager) : search_ok (minimax depth tm).
Proof.
  induction depth as [|depth IH]; intros gs alpha beta b w Hw.
  - cbn [minimax]. unfold bind.
    pose proof (poll_world_ok tm w Hw) as Hw1.
    destruct (poll tm w) as [stop w1]. simpl in Hw1.
    destruct stop; [split; [discriminate | exact Hw1]|].
    unfold tableGet.
    destruct (lru_get_ok (table w1) (getBoardStateKey (state gs)) Hw1) as [Hg1 Hg2].
    destruct (lru_get (table w1) (getBoardStateKey (state gs))) as [[v|] t].
    + split; [now apply Hg2 | exact Hg1].
    + split; [discriminate|]. apply lru_set_ok; [exact Hg1 | discriminate].
  - cbn [minimax]. unfold bind.
    pose proof (poll_world_ok tm w Hw) as Hw1.
    destruct (poll tm w) as [stop w1]. simpl in Hw1.
    destruct stop; [split; [discriminate | exact Hw1]|].
    unfold tableGet.
    destruct (lru_get_ok (table w1) (getBoardStateKey (state gs)) Hw1) as [Hg1 Hg2].
    destruct (lru_get (table w1) (getBoardStateKey (state gs))) as [[v|] t].
    + split; [now apply Hg2 | exact Hg1].
    + destruct (isGameOver (state gs)).
      * split; [discriminate|]. apply lru_set_ok; [exact Hg1 | discriminate].
      * destruct b.
        -- apply maximizingPlayer_ok; [exact IH | exact Hg1].
        -- apply minimizingPlayer_ok; [exact IH | exact Hg1].
Qed.

End SearchInvariants.

(** ** The iterative-deepening driver (C4, C6) *)

Section Driver.
Import Minimax.

Lemma insertBy_In {A} (cmp : A -> A -> Z) (x y : A) (l : list A) :
  In y (insertBy cmp x l) <-> y = x \/ In y l.
Proof.
  induction l as [|z l IH]; simpl; [intuition congruence|].
  destruct (cmp x z <=? 0); simpl; [intuition congruence|].
  rewrite IH. intuition congruence.
Qed.

Lemma sortBy_In {A} (cmp : A -> A -> Z) (y : A) (l : list A) :
  In y (sortBy cmp l) <-> In y l.
Proof.
  unfold sortBy. induction l as [|x l IH]; simpl; [reflexivity|].
  rewrite insertBy_In, IH. intuition congruence.
Qed.

Lemma orderMovesByHeuristic_In (s : BoardState) (moves : list Move) (m : Move) :
  In m (orderMovesByHeuristic s moves) <-> In m moves.
Proof.
  unfold orderMovesByHeuristic. rewrite in_map_iff. split.
  - intros ([m' d] & <- & Hin). apply sortBy_In in Hin.
    apply in_map_iff in Hin as (m0 & [= <- _] & Hin). exact Hin.
  - intros Hin.
    exists (m, calculateScoreDelta s (applyMove s m) m). split; [reflexivity|].
    apply sortBy_In. apply in_map_iff. now exists m.
Qed.

Lemma orderMovesByHeuristic_nil (s : BoardState) (moves : list Move) :
  orderMovesByHeuristic s moves = [] <-> moves = [].
Proof.
  split.
  - intros H. destruct moves as [|m moves]; [reflexivity|].
    assert (Hin : In m (orderMovesByHeuristic s (m :: moves)))
      by (apply orderMovesByHeuristic_In; now left).
    rewrite H in Hin. contradiction.
  - intros ->. reflexivity.
Qed.

Section RootLoop.
Variable search : Search.
Variable tm : TimeManager.
Variable gs : GameState.

(** The move reported is the one held at the start or a candidate. *)
Lemma rootLoop_move (moves : list Move) :
  forall bestScore bestMove w,
    let r := fst (rootLoop search tm gs moves bestScore bestMove w) in
    move r = bestMove \/ exists m, In m moves /\ move r = Some m.
Proof.
  induction moves as [|m rest IH]; intros bestScore bestMove w;
    cbn [rootLoop]; [now left|].
  unfold bind. destruct (poll tm w) as [stop w1].
  destruct stop; [now left|].
  destruct (search _ NegInf PosInf false w1) as [score w2].
  destruct (num_ltb bestScore score).
  - destruct (IH score (Some m) w2) as [H | (m' & Hin & H)].
    + right. exists m. split; [now left | exact H].
    + right. exists m'. split; [now right | exact H].
  - destruct (IH bestScore bestMove w2) as [H | (m' & Hin & H)].
    + now left.
    + right. exists m'. split; [now right | exact H].
Qed.

(** A move once held is never given up. *)
Lemma rootLoop_keeps (moves : list Move) :
  forall bestScore bestMove w,
    bestMove <> None ->
    move (fst (rootLoop search tm gs moves bestScore bestMove w)) <> None.
Proof.
  induction moves as [|m rest IH]; intros bestScore bestMove w Hb;
    cbn [rootLoop]; [exact Hb|].
  unfold bind. destruct (poll tm w) as [stop w1].
  destruct stop; [exact Hb|].
  destruct (search _ NegInf PosInf false w1) as [score w2].
  destruct (num_ltb bestScore score); apply IH; [discriminate | exact Hb].
Qed.

Hypothesis Hsearch : search_ok search.

Lemma rootLoop_world_ok (moves : list Move) :
  forall bestScore bestMove w,
    world_ok w ->
    world_ok (snd (rootLoop search tm gs moves bestScore bestMove w)).
Proof.
  induction moves as [|m rest IH]; intros bestScore bestMove w Hw;
    cbn [rootLoop]; [exact Hw|].
  unfold bind. pose proof (poll_world_ok tm w Hw) as Hw1.
  destruct (poll tm w) as [stop w1]. simpl in Hw1.
  destruct stop; [exact Hw1|].
  destruct (Hsearch (with_state gs (applyMove (state gs) m)) NegInf PosInf
                    false w1 Hw1) as [_ Hw2].
  destruct (search _ NegInf PosInf false w1) as [score w2]. simpl in Hw2.
  destruct (num_ltb bestScore score); now apply IH.
Qed.

(** Started with nothing, the loop reports no move exactly when it
    evaluates no candidate. *)
Lemma rootLoop_none (moves : list Move) (w : World) :
  world_ok w ->
  move (fst (rootLoop search tm gs moves NegInf None w)) = None
  <-> moves = [] \/ fst (poll tm w) = true.
Proof.
  intros Hw. destruct moves as [|m rest]; cbn [rootLoop].
  - split; [now left | reflexivity].
  - unfold bind. pose proof (poll_world_ok tm w Hw) as Hw1.
    destruct (poll tm w) as [stop w1]. simpl in Hw1. simpl fst at 2.
    destruct stop; [split; [now right | reflexivity]|].
    destruct (Hsearch (with_state gs (applyMove (state gs) m)) NegInf PosInf
                      false w1 Hw1) as [He _].
    destruct (search _ NegInf PosInf false w1) as [score w2]. simpl in He.
    assert (Hlt : num_ltb NegInf score = true) by (now destruct score).
    rewrite Hlt. split.
    + intros H. exfalso. revert H. now apply rootLoop_keeps.
    + intros [H | H]; discriminate.
Qed.
End RootLoop.

Lemma iterativeDeepening_move (gs : GameState) (depth : nat) (tm : TimeManager)
    (w : World) :
  move (fst (iterativeDeepening gs depth tm w)) = None
  \/ exists m, In m (getAllLegalMoves (state gs))
               /\ move (fst (iterativeDeepening gs depth tm w)) = Some m.
Proof.
  unfold iterativeDeepening.
  destruct (rootLoop_move (minimax (Nat.pred depth) tm) tm gs
              (orderMovesByHeuristic (state gs) (getAllLegalMoves (state gs)))
              NegInf None w) as [H | (m & Hin & H)].
  - now left.
  - right. exists m. split; [|exact H]. now apply orderMovesByHeuristic_In in Hin.
Qed.

Lemma iterativeDeepening_none (gs : GameState) (depth : nat) (tm : TimeManager)
    (w : World) :
  world_ok w ->
  move (fst (iterativeDeepening gs depth tm w)) = None
  <-> getAllLegalMoves (state gs) = [] \/ fst (poll tm w) = true.
Proof.
  intros Hw. unfold iterativeDeepening.
  rewrite rootLoop_none by (apply minimax_ok || exact Hw).
  now rewrite orderMovesByHeuristic_nil.
Qed.

Lemma iterativeDeepening_world_ok (gs : GameState) (depth : nat)
    (tm : TimeManager) (w : World) :
  world_ok w -> world_ok (snd (iterativeDeepening gs depth tm w)).
Proof.
  intros Hw. unfold iterativeDeepening.
  apply rootLoop_world_ok; [apply minimax_ok | exact Hw].
Qed.

Lemma deepeningLoop_iterations (gs : GameState) (tm : TimeManager)
    (depths : list nat) :
  forall best w,
    fst (deepeningLoop gs tm depths best w)
    = fold_left adopt (fst (iterations gs tm depths w)) best.
Proof.
  induction depths as [|depth rest IH]; intros best w;
    cbn [deepeningLoop iterations]; unfold bind.
  - destruct (timeLeft tm w) as [left w1]. reflexivity.
  - destruct (timeLeft tm w) as [left w1].
    destruct (negb (500 <? left)); [reflexivity|].
    destruct (clearFired w1) as [u w2].
    destruct (iterativeDeepening gs depth tm w2) as [result w3].
    rewrite IH.
    destruct (iterations gs tm rest w3) as [its w4]. reflexivity.
Qed.

Lemma deepeningLoop_move (gs : GameState) (tm : TimeManager)
    (depths : list nat) :
  forall best w,
    fst (deepeningLoop gs tm depths best w) = best
    \/ exists m, In m (getAllLegalMoves (state gs))
                 /\ fst (deepeningLoop gs tm depths best w) = Some m.
Proof.
  induction depths as [|depth rest IH]; intros best w;
    cbn [deepeningLoop]; unfold bind.
  - destruct (timeLeft tm w) as [left w1]. now left.
  - destruct (timeLeft tm w) as [left w1].
    destruct (negb (500 <? left)); [now left|].
    destruct (clearFired w1) as [u w2].
    pose proof (iterativeDeepening_move gs depth tm w2) as Hr.
    destruct (iterativeDeepening gs depth tm w2) as [result w3]. simpl in Hr.
    destruct Hr as [-> | (m & Hin & ->)].
    + apply IH.
    + destruct (IH (Some m) w3) as [E | H]; [|right; exact H].
      right. exists m. split; [exact Hin | exact E].
Qed.

Lemma iterations_reports (gs : GameState) (tm : TimeManager)
    (depths : list nat) :
  forall w,
    world_ok w ->
    Forall (fun it =>
              move (itResult it) = None
              <-> getAllLegalMoves (state gs) = [] \/ itFirstPoll it = true)
           (fst (iterations gs tm depths w)).
Proof.
  induction depths as [|depth rest IH]; intros w Hw;
    cbn [iterations]; unfold bind.
  - destruct (timeLeft tm w) as [left w1]. constructor.
  - pose proof (timeLeft_world_ok tm w Hw) as Hw1.
    destruct (timeLeft tm w) as [left w1]. simpl in Hw1.
    destruct (negb (500 <? left)); [constructor|].
    unfold clearFired.
    set (w2 := {| clock := clock w1; table := table w1; fired := false |}).
    assert (Hw2 : world_ok w2) by exact Hw1.
    pose proof (iterativeDeepening_none gs depth tm w2 Hw2) as Hn.
    pose proof (iterativeDeepening_world_ok gs depth tm w2 Hw2) as Hw3.
    destruct (iterativeDeepening gs depth tm w2) as [result w3].
    simpl in Hn, Hw3.
    specialize (IH w3 Hw3).
    destruct (iterations gs tm rest w3) as [its w4]. simpl in IH.
    constructor; [exact Hn | exact IH].
Qed.

End Driver.

Lemma initialWorld_ok (capacity : Z) (c : Clock) :
  Minimax.world_ok (Minimax.initialWorld capacity c).
Proof. intros k v []. Qed.

(** C6.  Whatever the clock does, [orderNextTurn] returns (the model is a
    total function: nothing throws) either the token [pass] or the rendering
    of a slide that move generation yields for the input board, which is a
    slide the rules allow on it; with no legal slide it returns [pass]. *)
Theorem orderNextTurn_pass_or_legal (gameState : GameState) (c : Clock) :
  wf_board (state gameState) ->
  (Minimax.orderNextTurn gameState c = "pass"
   \/ exists m, In m (getAllLegalMoves (state gameState))
                /\ legalSlide (state gameState) m
                /\ Minimax.orderNextTurn gameState c = formatOrderMove (Some m))
  /\ (getAllLegalMoves (state gameState) = [] ->
      Minimax.orderNextTurn gameState c = "pass").
Proof.
  intros _. unfold Minimax.orderNextTurn, Minimax.orderNextTurnWith.
  destruct (newTimeManager 2000 c) as [tm c'].
  pose proof (deepeningLoop_move gameState tm [1; 2; 3; 4]%nat None
                (Minimax.initialWorld 5000 c')) as H.
  destruct (Minimax.deepeningLoop gameState tm [1; 2; 3; 4]%nat None
              (Minimax.initialWorld 5000 c')) as [best w].
  simpl in H. destruct H as [-> | (m & Hin & ->)].
  - split; [now left | reflexivity].
  - split.
    + right. exists m. split; [exact Hin|]. split; [|reflexivity].
      now apply generateLegalMoves_sound.
    + intros E. rewrite E in Hin. contradiction.
Qed.

Lemma orderNextTurn_pass_or_legal_witness :
  (Minimax.orderNextTurn Samples.loneR (Samples.clockJumpingAfter 30) = "pass"
   \/ exists m, In m (getAllLegalMoves (state Samples.loneR))
                /\ legalSlide (state Samples.loneR) m
                /\ Minimax.orderNextTurn Samples.loneR (Samples.clockJumpingAfter 30)
                   = formatOrderMove (Some m))
  /\ (getAllLegalMoves (state Samples.loneR) = [] ->
      Minimax.orderNextTurn Samples.loneR (Samples.clockJumpingAfter 30) = "pass").
Proof.
  apply (orderNextTurn_pass_or_legal Samples.loneR (Samples.clockJumpingAfter 30)).
  reflexivity.
Defined.

(** The claim as stated fails.  On the two-piece board, with a clock that
    jumps past the deadline after 53 readings, the depth-1 iteration runs
    to completion and finds a4-a3; the depth-2 iteration is cut off after
    its first root move; the driver returns that iteration's a4-b4. *)
Lemma partial_iteration_overrides :
  map Minimax.itDepth
      (Minimax.iterationsOf 5000 Samples.twoPieces (Samples.clockJumpingAfter 53))
  = [1; 2]%nat
  /\ map Minimax.itCutOff
         (Minimax.iterationsOf 5000 Samples.twoPieces
                               (Samples.clockJumpingAfter 53))
     = [false; true]
  /\ Minimax.deepestCompleted
       (Minimax.iterationsOf 5000 Samples.twoPieces (Samples.clockJumpingAfter 53))
     = Some {| from := 3; to := 2 |}
  /\ Minimax.orderNextTurn Samples.twoPieces (Samples.clockJumpingAfter 53)
     = "a4-b4"
  /\ Minimax.orderNextTurn Samples.twoPieces (Samples.clockJumpingAfter 53)
     <> formatOrderMove
          (Minimax.deepestCompleted
             (Minimax.iterationsOf 5000 Samples.twoPieces
                                   (Samples.clockJumpingAfter 53))).
Proof. vm_compute. repeat split; discriminate. Qed.

(** C4, amended.  The driver returns the move reported by the last
    iteration that reported one, whether or not that iteration ran to
    completion; an iteration reports no move exactly when it evaluated no
    root move: there is no legal slide, or the deadline had passed at its
    first poll. *)
Theorem orderNextTurn_last_reported (gameState : GameState) (c : Clock) :
  wf_board (state gameState) ->
  Minimax.orderNextTurn gameState c
  = formatOrderMove
      (Minimax.lastReported (Minimax.iterationsOf 5000 gameState c))
  /\ Forall (fun it =>
               Minimax.move (Minimax.itResult it) = None
               <-> getAllLegalMoves (state gameState) = []
                   \/ Minimax.itFirstPoll it = true)
            (Minimax.iterationsOf 5000 gameState c).
Proof.
  intros _.
  unfold Minimax.orderNextTurn, Minimax.orderNextTurnWith, Minimax.iterationsOf,
    Minimax.lastReported.
  destruct (newTimeManager 2000 c) as [tm c'].
  pose proof (deepeningLoop_iterations gameState tm [1; 2; 3; 4]%nat None
                (Minimax.initialWorld 5000 c')) as H.
  destruct (Minimax.deepeningLoop gameState tm [1; 2; 3; 4]%nat None
              (Minimax.initialWorld 5000 c')) as [best w].
  simpl in H. subst best. split; [reflexivity|].
  apply iterations_reports, initialWorld_ok.
Qed.

Lemma orderNextTurn_last_reported_witness :
  Minimax.orderNextTurn Samples.twoPieces (Samples.clockJumpingAfter 53)
  = formatOrderMove
      (Minimax.lastReported
         (Minimax.iterationsOf 5000 Samples.twoPieces
                               (Samples.clockJumpingAfter 53)))
  /\ Forall (fun it =>
               Minimax.move (Minimax.itResult it) = None
               <-> getAllLegalMoves (state Samples.twoPieces) = []
                   \/ Minimax.itFirstPoll it = true)
            (Minimax.iterationsOf 5000 Samples.twoPieces
                                  (Samples.clockJumpingAfter 53)).
Proof.
  apply (orderNextTurn_last_reported Samples.twoPieces
                                     (Samples.clockJumpingAfter 53)).
  reflexivity.
Defined.

(** ** The transposition table (C3) *)

(** A table of capacity 0 is a disabled cache: nothing stays in it and
    every lookup misses. *)
Lemma lru_capacity_0 (key : string) (value : num) :
  lru_set (newLRUCache 0) key value = newLRUCache 0
  /\ lru_get (newLRUCache 0 : LRUCache num) key = (None, newLRUCache 0).
Proof.
  split; [|reflexivity].
  unfold lru_set, newLRUCache. simpl. rewrite bool_decide_eq_true_2; reflexivity.
Qed.

(** C3, at a failing input.  [getBoardStateKey] joins the cells with
    nothing between them, so an empty cell leaves no trace in the key: the
    boards with G on a1 or on a2, and R on d4, share the key GR.  On the
    board with a lone R on d4 and G announced, the minimizing ply at depth 1
    (deadline never passing) returns -685 with the table of 5000 entries
    and -725 with the cache disabled; and with a clock that lets exactly
    the depth-1 iteration run, [orderNextTurn] on the two-piece board
    answers a4-a3 with the table and a4-c4 without. *)
Theorem transposition_table_changes_result :
  Minimax.getBoardStateKey (applyPlacement (state Samples.loneR) 0 G)
  = Minimax.getBoardStateKey (applyPlacement (state Samples.loneR) 1 G)
  /\ num_eq (fst (Minimax.minimax 1 Samples.tm0 Samples.loneR NegInf PosInf false
                    (Minimax.initialWorld 5000 Samples.stillClock)))
            (Fin (-685))
  /\ num_eq (fst (Minimax.minimax 1 Samples.tm0 Samples.loneR NegInf PosInf false
                    (Minimax.initialWorld 0 Samples.stillClock)))
            (Fin (-725))
  /\ Minimax.orderNextTurnWith 5000 Samples.twoPieces (Samples.clockJumpingAfter 50)
     = "a4-a3"
  /\ Minimax.orderNextTurnWith 0 Samples.twoPieces (Samples.clockJumpingAfter 50)
     = "a4-c4".
Proof. vm_compute. repeat split; reflexivity. Qed.

(** ** The placer (C8) *)

Section Placer.
Import Chaos.

Lemma getEmptyPositions_In (s : BoardState) (p : Z) :
  In p (getEmptyPositions s) <-> 0 <= p < 49 /\ cell s p = Empty.
Proof.
  unfold getEmptyPositions. rewrite List.filter_In, in_range, isEmpty_true.
  reflexivity.
Qed.

Lemma selectBest_In (better : num -> num -> bool) (scoreOf : Z -> num)
    (candidates : list Z) (start : num) (fallback : option Z) :
  selectBest better scoreOf candidates start fallback = fallback
  \/ exists p, In p candidates
               /\ selectBest better scoreOf candidates start fallback = Some p.
Proof.
  unfold selectBest.
  change fallback with (snd (start, fallback)) at 2.
  generalize (start, fallback) as acc.
  induction candidates as [|x l IH]; intros acc; simpl; [now left|].
  destruct (better (scoreOf x) (fst acc)).
  - destruct (IH (scoreOf x, Some x)) as [H | (p & Hin & H)].
    + right. exists x. split; [now left | exact H].
    + right. exists p. split; [now right | exact H].
  - destruct (IH acc) as [H | (p & Hin & H)].
    + now left.
    + right. exists p. split; [now right | exact H].
Qed.

Lemma selectBest_candidate (better : num -> num -> bool) (scoreOf : Z -> num)
    (candidates : list Z) (start : num) :
  candidates <> [] ->
  exists p, In p candidates
            /\ selectBest better scoreOf candidates start (head candidates)
               = Some p.
Proof.
  intros Hne.
  destruct (selectBest_In better scoreOf candidates start (head candidates))
    as [H | H]; [|exact H].
  destruct candidates as [|x l]; [contradiction|].
  exists x. split; [now left | exact H].
Qed.

Lemma address_of_index (p : Z) :
  0 <= p < 49 ->
  validAddress (indexToPosition p) = true
  /\ positionToIndex (indexToPosition p) = Some p.
Proof.
  intros Hp.
  assert (H : forallb (fun p => validAddress (indexToPosition p)
                                && bool_decide (positionToIndex (indexToPosition p)
                                                = Some p))
                      (range 0 49) = true) by (vm_compute; reflexivity).
  rewrite forallb_forall in H. specialize (H p (proj2 (in_range 0 49 p) Hp)).
  apply andb_true_iff in H as [H1 H2].
  apply bool_decide_eq_true in H2. now split.
Qed.

Lemma chosen_cell (s : BoardState) (best : option Z) :
  (exists p, In p (getEmptyPositions s) /\ best = Some p) ->
  validAddress (formatChaosMove best) = true
  /\ exists p, positionToIndex (formatChaosMove best) = Some p
               /\ 0 <= p < 49 /\ cell s p = Empty.
Proof.
  intros (p & Hin & ->). apply getEmptyPositions_In in Hin as [Hp He].
  destruct (address_of_index p Hp) as [Hv Hr]. simpl.
  split; [exact Hv|]. now exists p.
Qed.

Lemma has_empty_position (s : BoardState) :
  (exists i, 0 <= i < 49 /\ cell s i = Empty) -> getEmptyPositions s <> [].
Proof.
  intros (i & Hi & He) E.
  assert (Hin : In i (getEmptyPositions s)) by now apply getEmptyPositions_In.
  rewrite E in Hin. contradiction.
Qed.

(** The hybrid strategy answers with the address of an empty cell too,
    whatever its two evaluators compute. *)
Lemma chaosNextTurnHybrid_empty_cell
    (evaluateCompleteSpoilerPlacement : GameState -> Z -> Q)
    (evaluateEntropy : GameState -> Z -> Color -> Q) (gameState : GameState) :
  wf_board (state gameState) ->
  (exists i, 0 <= i < 49 /\ cell (state gameState) i = Empty) ->
  validAddress (chaosNextTurnHybrid evaluateCompleteSpoilerPlacement
                                    evaluateEntropy gameState) = true
  /\ exists p, positionToIndex (chaosNextTurnHybrid evaluateCompleteSpoilerPlacement
                                                    evaluateEntropy gameState)
               = Some p
               /\ 0 <= p < 49 /\ cell (state gameState) p = Empty.
Proof.
  intros _ He. apply has_empty_position in He.
  unfold chaosNextTurnHybrid.
  destruct (match determineGamePhase (state gameState) with
            | early => _ | mid => _ | late => _ end) as [spoilerWeight gapWeight].
  apply chosen_cell. now apply selectBest_candidate.
Qed.

End Placer.

(** The claim as stated fails: on a board with no empty cell the fallback
    [emptyPositions[0]] is [undefined] and the answer is not an address. *)
Lemma chaosNextTurn_full_board :
  validAddress (Chaos.chaosNextTurn Samples.fullBoard) = false
  /\ positionToIndex (Chaos.chaosNextTurn Samples.fullBoard) = None.
Proof. vm_compute. split; reflexivity. Qed.

(** C8, amended.  For every game state whose board has at least one empty
    cell, [chaosNextTurn] returns a well-formed single-cell address, and the
    cell it denotes is empty on the input board. *)
Theorem chaosNextTurn_empty_cell (gameState : GameState) :
  wf_board (state gameState) ->
  (exists i, 0 <= i < 49 /\ cell (state gameState) i = Empty) ->
  validAddress (Chaos.chaosNextTurn gameState) = true
  /\ exists p, positionToIndex (Chaos.chaosNextTurn gameState) = Some p
               /\ 0 <= p < 49 /\ cell (state gameState) p = Empty.
Proof.
  intros _ He. apply has_empty_position in He.
  unfold Chaos.chaosNextTurn.
  apply chosen_cell. now apply selectBest_candidate.
Qed.

Lemma chaosNextTurn_empty_cell_witness :
  validAddress (Chaos.chaosNextTurn Samples.twoPieces) = true
  /\ exists p, positionToIndex (Chaos.chaosNextTurn Samples.twoPieces) = Some p
               /\ 0 <= p < 49 /\ cell (state Samples.twoPieces) p = Empty.
Proof.
  apply (chaosNextTurn_empty_cell Samples.twoPieces).
  - reflexivity.
  - exists 0. split; [lia | reflexivity].
Defined.

(** ** The position evaluators (C10) *)

Section Evaluators.

Lemma sum_over_indicator {A} (f : A -> bool) (l : list A) :
  sum_over l (fun x => if f x then 1 else 0) = len (List.filter f l).
Proof.
  unfold len. induction l as [|x l IH]; [reflexivity|].
  rewrite sum_over_cons, IH. simpl. destruct (f x); simpl length; lia.
Qed.

Lemma filter_map_length {A B} (f : B -> bool) (g : A -> B) (l : list A) :
  length (List.filter (fun x => f (g x)) l) = length (List.filter f (map g l)).
Proof.
  induction l as [|x l IH]; simpl; [reflexivity|].
  destruct (f (g x)); simpl; now rewrite IH.
Qed.

Lemma cells_of_board (s : BoardState) :
  wf_board s -> map (cell s) (range 0 49) = s.
Proof.
  intros Hwf. apply (nth_ext _ _ Empty Empty).
  - rewrite length_map, length_range. now rewrite Hwf.
  - intros n Hn. rewrite length_map, length_range in Hn.
    unfold range. rewrite map_map.
    rewrite (nth_indep _ Empty (cell s (0 + Z.of_nat 0)))
      by (rewrite length_map, length_seq; lia).
    rewrite (map_nth (fun k => cell s (0 + Z.of_nat k)) (seq 0 (Z.to_nat (49 - 0))) 0%nat n).
    rewrite seq_nth by lia. simpl (0 + n)%nat.
    rewrite cell_nth by lia. f_equal. lia.
Qed.

Lemma getEmptyPositions_length (s : BoardState) :
  wf_board s -> len (getEmptyPositions s) = len (List.filter isEmpty s).
Proof.
  intros Hwf. unfold len, getEmptyPositions.
  rewrite (filter_map_length isEmpty (cell s)), cells_of_board by exact Hwf.
  reflexivity.
Qed.

Lemma no_empty_cell (line : list Color) :
  len (List.filter isEmpty line) = 0 <-> ~ In Empty line.
Proof.
  unfold len. split.
  - intros H Hin.
    assert (Hf : In Empty (List.filter isEmpty line))
      by (apply List.filter_In; split; [exact Hin | reflexivity]).
    destruct (List.filter isEmpty line); [contradiction | discriminate].
  - intros H. rewrite filter_none; [reflexivity|].
    intros x Hx. destruct (isEmpty x) eqn:E; [|reflexivity].
    apply isEmpty_true in E. subst x. contradiction.
Qed.

(** The code's test for a vulnerable line decides the design's notion. *)
Lemma isVulnerableToDisruption_spec (line : list Color) :
  Heuristic.isVulnerableToDisruption line = true <-> Design.vulnerableLine line.
Proof.
  unfold Heuristic.isVulnerableToDisruption, Design.vulnerableLine. cbv zeta.
  set (filled := List.filter nonEmpty line).
  pose proof (no_empty_cell line) as Hempty.
  assert (Hadj :
    existsb (fun i => color_eqb (cell filled i) (cell filled (i + 1)))
            (range 0 (len filled - 1)) = true
    <-> exists i, 0 <= i /\ i + 1 < len filled
                  /\ cell filled i = cell filled (i + 1)).
  { rewrite existsb_exists. split.
    - intros (i & Hi & He). apply in_range in Hi. apply color_eqb_eq in He.
      exists i. repeat split; (lia || exact He).
    - intros (i & H0 & H1 & He). exists i. split.
      + apply in_range. lia.
      + now apply color_eqb_eq. }
  destruct (Z.eqb_spec (len (List.filter isEmpty line)) 0) as [E0 | E0]; simpl.
  - split; [discriminate|]. intros (Hin & _). now apply Hempty in E0.
  - assert (Hin : In Empty line).
    { destruct (in_dec Color_eq_dec Empty line) as [H | H]; [exact H|].
      apply Hempty in H. contradiction. }
    destruct (Z.ltb_spec (len filled) 2) as [E2 | E2].
    + split; [discriminate|]. intros (_ & H2 & _). lia.
    + destruct (Z.leb_spec 2 (len filled)) as [_ | ?]; [|lia]. simpl.
      destruct (color_eqb (cell filled 0) (cell filled (len filled - 1))) eqn:Eq.
      * apply color_eqb_eq in Eq. split; [|reflexivity].
        intros _. repeat split; [exact Hin | lia | now left].
      * rewrite Hadj. split.
        -- intros H. repeat split; [exact Hin | lia | now right].
        -- intros (_ & _ & [H | H]); [|exact H].
           apply color_eqb_eq in H. congruence.
Qed.

End Evaluators.

(** The claim as stated fails for the evaluator the search calls: on the
    board with a lone R on d4 it is worth -680, the six-component sum
    -660. *)
Lemma minimax_evaluator_not_six_components :
  ~ (Minimax.evaluatePosition Samples.loneR
     == Design.weightedSum
          (inject_Z (calculateFullBoardScore (state Samples.loneR)))
          (inject_Z (Heuristic.calculatePatternPotential (state Samples.loneR)))
          (Heuristic.calculateBoardControl (state Samples.loneR))
          (Heuristic.calculateChaosOpportunities (state Samples.loneR))
          (inject_Z (Heuristic.analyzeColorDistribution
                       (state Samples.loneR) (nextToken Samples.loneR)))
          (Heuristic.calculateFertility (state Samples.loneR)))%Q.
Proof. vm_compute. discriminate. Qed.

(** C10, amended.  The evaluator of the heuristic Order bot is the weighted
    sum of the six components with weights 100, 50, 30, -40, 20 and 25; its
    opponent-opportunity component is 0.5 per empty cell plus 2 per
    vulnerable line.  The evaluator the minimax search calls is a sum of
    four components: score x100, pattern potential x50, board control x20
    and opponent opportunities x-30. *)
Theorem evaluatePosition_components (gameState : GameState) :
  wf_board (state gameState) ->
  (Heuristic.evaluatePosition gameState
   == Design.weightedSum
        (inject_Z (calculateFullBoardScore (state gameState)))
        (inject_Z (Heuristic.calculatePatternPotential (state gameState)))
        (Heuristic.calculateBoardControl (state gameState))
        (Heuristic.calculateChaosOpportunities (state gameState))
        (inject_Z (Heuristic.analyzeColorDistribution (state gameState)
                                                      (nextToken gameState)))
        (Heuristic.calculateFertility (state gameState)))%Q
  /\ (Heuristic.calculateChaosOpportunities (state gameState)
      == inject_Z (len (List.filter isEmpty (state gameState))) * 0.5
         + inject_Z (len (List.filter Heuristic.isVulnerableToDisruption
                                      (boardLines (state gameState)))) * 2)%Q
  /\ (forall line, In line (boardLines (state gameState)) ->
        Heuristic.isVulnerableToDisruption line = true
        <-> Design.vulnerableLine line)
  /\ (Minimax.evaluatePosition gameState
      == inject_Z (calculateFullBoardScore (state gameState)) * 100
         + inject_Z (Minimax.calculatePatternPotential (state gameState)) * 50
         + calculateBoardControl (state gameState) * 20
         + Minimax.calculateChaosOpportunities (state gameState) * -30)%Q.
Proof.
  intros Hwf. split; [reflexivity|]. split; [|split; [|reflexivity]].
  - unfold Heuristic.calculateChaosOpportunities,
      Heuristic.countDisruptablePatterns. cbv zeta.
    rewrite sum_over_indicator, getEmptyPositions_length by exact Hwf.
    reflexivity.
  - intros line _. apply isVulnerableToDisruption_spec.
Qed.

Lemma evaluatePosition_components_witness :
  (Heuristic.evaluatePosition Samples.twoPieces == -630)%Q
  /\ (Minimax.evaluatePosition Samples.twoPieces == -685)%Q.
Proof.
  destruct (evaluatePosition_components Samples.twoPieces ltac:(reflexivity))
    as (H6 & _ & _ & H4).
  split.
  - rewrite H6. vm_compute. reflexivity.
  - rewrite H4. vm_compute. reflexivity.
Defined.

(** * Further properties *)

Import Notions.

(** ** Coordinates and addresses *)

Lemma indexToCoords_coordsToIndex (row col : Z) :
  isValidCoord row col = true ->
  0 <= coordsToIndex row col < 49
  /\ indexToCoords (coordsToIndex row col)
     = {| Common.row := row; Common.col := col |}.
Proof.
  unfold isValidCoord, coordsToIndex, indexToCoords. intros H.
  assert (Hb : 0 <= row < 7 /\ 0 <= col < 7) by lia. destruct Hb as [Hr Hc].
  split; [lia|].
  rewrite Z.rem_mod_nonneg by lia.
  f_equal.
  - symmetry. apply (Z.div_unique (row * 7 + col) 7 row col); lia.
  - symmetry. apply (Z.mod_unique (row * 7 + col) 7 row col); lia.
Qed.

(** X1.  Cell indices and coordinates correspond one to one: for an index from 0
    to 48, [indexToCoords] gives a row and a column on the board from which
    [coordsToIndex] gives the index back; for a row and a column on the
    board, [coordsToIndex] gives an index from 0 to 48 from which
    [indexToCoords] gives the same row and column back. *)
Theorem coords_round_trip (idx row col : Z) :
  0 <= idx < 49 -> isValidCoord row col = true ->
  (isValidCoord (Common.row (indexToCoords idx)) (Common.col (indexToCoords idx)) = true
   /\ coordsToIndex (Common.row (indexToCoords idx)) (Common.col (indexToCoords idx)) = idx)
  /\ (0 <= coordsToIndex row col < 49
      /\ indexToCoords (coordsToIndex row col) = {| Common.row := row; Common.col := col |}).
Proof.
  intros H Hv. split.
  - destruct (indexToCoords_bounds idx H) as (Hr & Hc & E).
    split; [|exact E]. unfold isValidCoord. lia.
  - now apply indexToCoords_coordsToIndex.
Qed.

Lemma coords_round_trip_witness :
  (isValidCoord (Common.row (indexToCoords 17)) (Common.col (indexToCoords 17)) = true
   /\ coordsToIndex (Common.row (indexToCoords 17)) (Common.col (indexToCoords 17)) = 17)
  /\ (0 <= coordsToIndex 2 3 < 49
      /\ indexToCoords (coordsToIndex 2 3) = {| Common.row := 2; Common.col := 3 |}).
Proof. apply (coords_round_trip 17 2 3); [lia | reflexivity]. Defined.

Lemma valid_address_shape (pos : Position) :
  validAddress pos = true ->
  exists r c, 0 <= r < 7 /\ 0 <= c < 7
              /\ pos = String (ascii_of_nat (Z.to_nat (97 + r)))
                              (String (ascii_of_nat (Z.to_nat (49 + c))) EmptyString).
Proof.
  unfold validAddress.
  destruct pos as [|c0 [|c1 [|? ?]]]; try discriminate.
  unfold charCode. intros H.
  exists (Z.of_nat (nat_of_ascii c0) - 97), (Z.of_nat (nat_of_ascii c1) - 49).
  change (Z.of_nat (nat_of_ascii "a")) with 97 in H.
  change (Z.of_nat (nat_of_ascii "g")) with 103 in H.
  change (Z.of_nat (nat_of_ascii "1")) with 49 in H.
  change (Z.of_nat (nat_of_ascii "7")) with 55 in H.
  split; [lia|]. split; [lia|].
  replace (97 + (Z.of_nat (nat_of_ascii c0) - 97)) with (Z.of_nat (nat_of_ascii c0)) by lia.
  replace (49 + (Z.of_nat (nat_of_ascii c1) - 49)) with (Z.of_nat (nat_of_ascii c1)) by lia.
  now rewrite !Nat2Z.id, !ascii_nat_embedding.
Qed.

(** X2.  Cell addresses round-trip: the address printed for an index from 0 to
    48 is a letter a..g followed by a digit 1..7 and parses back to that
    index; and every such address parses to an index from 0 to 48 whose
    printed address it is. *)
Theorem address_round_trip (idx : Z) (pos : Position) :
  0 <= idx < 49 -> validAddress pos = true ->
  (validAddress (indexToPosition idx) = true
   /\ positionToIndex (indexToPosition idx) = Some idx)
  /\ (exists i, 0 <= i < 49 /\ positionToIndex pos = Some i
                /\ indexToPosition i = pos).
Proof.
  intros Hidx H. split; [now apply address_of_index|].
  destruct (valid_address_shape pos H) as (r & c & Hr & Hc & ->).
  assert (Er : r = 0 \/ r = 1 \/ r = 2 \/ r = 3 \/ r = 4 \/ r = 5 \/ r = 6) by lia.
  assert (Ec : c = 0 \/ c = 1 \/ c = 2 \/ c = 3 \/ c = 4 \/ c = 5 \/ c = 6) by lia.
  exists (r * 7 + c).
  destruct Er as [-> | [-> | [-> | [-> | [-> | [-> | ->]]]]]];
    destruct Ec as [-> | [-> | [-> | [-> | [-> | [-> | ->]]]]]];
    (split; [lia | split; vm_compute; reflexivity]).
Qed.

Lemma address_round_trip_witness :
  (validAddress (indexToPosition 48) = true
   /\ positionToIndex (indexToPosition 48) = Some 48)
  /\ (exists i, 0 <= i < 49 /\ positionToIndex "c4" = Some i
                /\ indexToPosition i = "c4"%string).
Proof. apply (address_round_trip 48 "c4"); [lia | reflexivity]. Defined.


(** ** Move generation and move application *)

Lemma slide_complete (state : BoardState) (dRow dCol fromIdx : Z) (fuel : nat) :
  forall row col k,
    1 <= k <= Z.of_nat fuel ->
    (forall j, 1 <= j <= k ->
       isValidCoord (row + j * dRow) (col + j * dCol) = true
       /\ cell state (coordsToIndex (row + j * dRow) (col + j * dCol)) = Empty) ->
    In {| from := fromIdx;
          to := coordsToIndex (row + k * dRow) (col + k * dCol) |}
       (slide fuel state dRow dCol fromIdx row col).
Proof.
  induction fuel as [|fuel IH]; intros row col k Hk Hall; [lia|].
  cbn [slide]. cbv zeta.
  destruct (Hall 1 ltac:(lia)) as [Hv He]. rewrite !Z.mul_1_l in Hv, He.
  rewrite Hv, He. cbn [negb nonEmpty].
  change (nonEmpty Empty) with false. cbv iota.
  destruct (Z.eq_dec k 1) as [-> | Hk1].
  - left. now rewrite !Z.mul_1_l.
  - right.
    replace (row + k * dRow) with (row + dRow + (k - 1) * dRow) by ring.
    replace (col + k * dCol) with (col + dCol + (k - 1) * dCol) by ring.
    apply IH; [lia|].
    intros j Hj. specialize (Hall (j + 1) ltac:(lia)).
    replace (row + (j + 1) * dRow) with (row + dRow + j * dRow) in Hall by ring.
    replace (col + (j + 1) * dCol) with (col + dCol + j * dCol) in Hall by ring.
    exact Hall.
Qed.

Lemma generateLegalMoves_complete (state : BoardState) (m : Move) :
  legalSlide state m -> In m (generateLegalMoves state).
Proof.
  intros (Hf & Hp & dRow & dCol & k & Hd & Hk & Hto & Hall).
  unfold generateLegalMoves. apply in_flat_map. exists (from m). split.
  - apply in_range. lia.
  - destruct (isEmpty (cell state (from m))) eqn:E.
    + apply isEmpty_true in E. contradiction.
    + unfold movesOfPiece. apply in_flat_map. exists (dRow, dCol).
      split; [exact Hd|]. cbn [fst snd].
      destruct m as [f t]. cbn [from to] in *. subst t.
      apply slide_complete; [|exact Hall].
      destruct (indexToCoords_bounds f Hf) as (Hr & Hc & _).
      destruct (Hall k ltac:(lia)) as [Hv _].
      unfold isValidCoord in Hv. unfold slide_fuel.
      simpl in Hd.
      destruct Hd as [[= <- <-] | [[= <- <-] | [[= <- <-] | [[= <- <-] | []]]]];
        lia.
Qed.

Lemma legal_move_cells (state : BoardState) (m : Move) :
  In m (generateLegalMoves state) ->
  0 <= from m < 49 /\ 0 <= to m < 49 /\ to m <> from m
  /\ cell state (from m) <> Empty /\ cell state (to m) = Empty.
Proof.
  intros Hin. apply generateLegalMoves_sound in Hin.
  destruct (legalSlide_bounds state m Hin) as [Hf Ht].
  destruct Hin as (_ & Hp & dRow & dCol & k & _ & Hk & Hto & Hall).
  destruct (Hall k ltac:(lia)) as [_ He]. rewrite <- Hto in He.
  repeat split; try assumption; try lia.
  intros E. rewrite E in He. contradiction.
Qed.

(** X3.  On a board of 49 cells the generator yields exactly the slides the
    rules allow: a move is generated if and only if its origin holds a piece
    and its destination lies one or more steps away in one of the four
    directions, every cell on the way, the destination included, being on
    the board and empty.  In particular a generated move ends on the board,
    on an empty cell other than its origin. *)
Theorem generateLegalMoves_exact (state : BoardState) (m : Move) :
  wf_board state ->
  (In m (getAllLegalMoves state) <-> legalSlide state m)
  /\ (In m (getAllLegalMoves state) ->
      0 <= to m < 49 /\ to m <> from m
      /\ cell state (from m) <> Empty /\ cell state (to m) = Empty).
Proof.
  intros _. split.
  - split; [apply generateLegalMoves_sound | apply generateLegalMoves_complete].
  - intros Hin. destruct (legal_move_cells state m Hin) as (_ & H). exact H.
Qed.

Lemma generateLegalMoves_exact_witness :
  (In {| from := 8; to := 1 |} (getAllLegalMoves Samples.board_RRR)
   <-> legalSlide Samples.board_RRR {| from := 8; to := 1 |})
  /\ (In {| from := 8; to := 1 |} (getAllLegalMoves Samples.board_RRR) ->
      0 <= to {| from := 8; to := 1 |} < 49
      /\ to {| from := 8; to := 1 |} <> from {| from := 8; to := 1 |}
      /\ cell Samples.board_RRR (from {| from := 8; to := 1 |}) <> Empty
      /\ cell Samples.board_RRR (to {| from := 8; to := 1 |}) = Empty).
Proof.
  apply (generateLegalMoves_exact Samples.board_RRR {| from := 8; to := 1 |}).
  reflexivity.
Defined.

(** X4.  [getLegalMovesForPiece] agrees with the generator: for a cell index
    from 0 to 48 its moves are exactly the generated moves that start on
    that cell, and there are none when the cell is empty. *)
Theorem getLegalMovesForPiece_agrees (state : BoardState) (fromIdx : Z) (m : Move) :
  wf_board state -> 0 <= fromIdx < 49 ->
  (In m (getLegalMovesForPiece state fromIdx)
   <-> In m (getAllLegalMoves state) /\ from m = fromIdx)
  /\ (cell state fromIdx = Empty -> getLegalMovesForPiece state fromIdx = []).
Proof.
  intros _ Hi. split.
  - rewrite <- (generateLegalMoves_of_piece state fromIdx Hi).
    rewrite List.filter_In, bool_decide_eq_true. reflexivity.
  - intros E. unfold getLegalMovesForPiece.
    now rewrite (proj2 (isEmpty_true _) E).
Qed.

Lemma getLegalMovesForPiece_agrees_witness :
  (In {| from := 8; to := 1 |} (getLegalMovesForPiece Samples.board_RRR 8)
   <-> In {| from := 8; to := 1 |} (getAllLegalMoves Samples.board_RRR)
       /\ from {| from := 8; to := 1 |} = 8)
  /\ (cell Samples.board_RRR 8 = Empty ->
      getLegalMovesForPiece Samples.board_RRR 8 = []).
Proof.
  apply (getLegalMovesForPiece_agrees Samples.board_RRR 8 {| from := 8; to := 1 |}).
  - reflexivity.
  - lia.
Defined.

Lemma applyMove_cells (s : BoardState) (m : Move) (j : Z) :
  wf_board s -> 0 <= from m < 49 -> 0 <= to m < 49 -> 0 <= j ->
  cell (applyMove s m) j
  = if bool_decide (from m = j) then Empty
    else if bool_decide (to m = j) then cell s (from m) else cell s j.
Proof.
  unfold wf_board, applyMove. intros Hwf Hf Ht Hj.
  rewrite !cell_array_set
    by (unfold len; rewrite ?length_array_set, ?Hwf; lia).
  reflexivity.
Qed.

Lemma wf_applyMove (s : BoardState) (m : Move) :
  wf_board s -> wf_board (applyMove s m).
Proof. intros H. unfold applyMove. now do 2 apply wf_array_set. Qed.

(** X5.  Applying a generated move to a board of 49 cells gives a board of 49
    cells on which the destination holds the piece that stood on the origin,
    the origin is empty, and every other cell is unchanged. *)
Theorem applyMove_moves_one_piece (state : BoardState) (move : Move) :
  wf_board state -> In move (getAllLegalMoves state) ->
  wf_board (applyMove state move)
  /\ cell (applyMove state move) (to move) = cell state (from move)
  /\ cell (applyMove state move) (from move) = Empty
  /\ forall j, 0 <= j < 49 -> j <> from move -> j <> to move ->
       cell (applyMove state move) j = cell state j.
Proof.
  intros Hwf Hin.
  destruct (legal_move_cells state move Hin) as (Hf & Ht & Hne & Hp & He).
  split; [now apply wf_applyMove|].
  repeat split.
  - rewrite applyMove_cells by (assumption || lia).
    rewrite bool_decide_eq_false_2 by congruence.
    now rewrite bool_decide_eq_true_2.
  - rewrite applyMove_cells by (assumption || lia).
    now rewrite bool_decide_eq_true_2.
  - intros j Hj H1 H2. rewrite applyMove_cells by (assumption || lia).
    rewrite !bool_decide_eq_false_2 by congruence. reflexivity.
Qed.

Lemma applyMove_moves_one_piece_witness :
  wf_board (applyMove Samples.board_RRR {| from := 8; to := 1 |})
  /\ cell (applyMove Samples.board_RRR {| from := 8; to := 1 |}) 1
     = cell Samples.board_RRR 8
  /\ cell (applyMove Samples.board_RRR {| from := 8; to := 1 |}) 8 = Empty
  /\ forall j, 0 <= j < 49 -> j <> 8 -> j <> 1 ->
       cell (applyMove Samples.board_RRR {| from := 8; to := 1 |}) j
       = cell Samples.board_RRR j.
Proof.
  apply (applyMove_moves_one_piece Samples.board_RRR {| from := 8; to := 1 |}).
  - reflexivity.
  - vm_compute. tauto.
Defined.

Lemma reverse_slide_legal (state : BoardState) (m : Move) :
  wf_board state -> legalSlide state m ->
  legalSlide (applyMove state m) {| from := to m; to := from m |}.
Proof.
  intros Hwf Hl.
  destruct (legalSlide_bounds state m Hl) as [Hf Ht].
  destruct Hl as (_ & Hp & dRow & dCol & k & Hd & Hk & Hto & Hall).
  destruct (indexToCoords_bounds (from m) Hf) as (Hr & Hc & Efrom).
  set (r := row (indexToCoords (from m))) in *.
  set (c := col (indexToCoords (from m))) in *.
  destruct (Hall k ltac:(lia)) as [Hvk Hek].
  destruct (indexToCoords_coordsToIndex _ _ Hvk) as [_ Eto].
  rewrite <- Hto in Eto, Hek.
  assert (Hne : to m <> from m) by (intros E; rewrite E in Hek; contradiction).
  unfold legalSlide. cbn [from to]. rewrite Eto. cbn [row col].
  split; [exact Ht|]. split.
  { rewrite applyMove_cells by (assumption || lia).
    rewrite bool_decide_eq_false_2 by congruence.
    now rewrite bool_decide_eq_true_2. }
  exists (- dRow), (- dCol), k. split; [|split; [exact Hk|split]].
  - simpl in Hd. simpl.
    destruct Hd as [[= <- <-] | [[= <- <-] | [[= <- <-] | [[= <- <-] | []]]]];
      simpl; tauto.
  - rewrite <- Efrom. f_equal; ring.
  - intros j Hj.
    replace (r + k * dRow + j * - dRow) with (r + (k - j) * dRow) by ring.
    replace (c + k * dCol + j * - dCol) with (c + (k - j) * dCol) by ring.
    destruct (Z.eq_dec j k) as [-> | Hjk].
    + rewrite !Z.sub_diag, !Z.mul_0_l, !Z.add_0_r. split.
      * unfold isValidCoord. lia.
      * rewrite Efrom. rewrite applyMove_cells by (assumption || lia).
        now rewrite bool_decide_eq_true_2.
    + destruct (Hall (k - j) ltac:(lia)) as [Hv He]. split; [exact Hv|].
      assert (Hidx : 0 <= coordsToIndex (r + (k - j) * dRow) (c + (k - j) * dCol))
        by (unfold isValidCoord in Hv; unfold coordsToIndex; lia).
      rewrite applyMove_cells by (assumption || lia).
      rewrite bool_decide_eq_false_2 by (intros E; rewrite <- E in He; contradiction).
      rewrite bool_decide_eq_false_2; [exact He|].
      rewrite Hto. unfold coordsToIndex.
      unfold isValidCoord in Hv, Hvk. simpl in Hd.
      destruct Hd as [[= <- <-] | [[= <- <-] | [[= <- <-] | [[= <- <-] | []]]]];
        lia.
Qed.

(** X6.  Every move can be taken back: after a generated move, the slide from
    its destination back to its origin is itself generated on the new
    board, and applying it restores the board exactly. *)
Theorem applyMove_undo (state : BoardState) (move : Move) :
  wf_board state -> In move (getAllLegalMoves state) ->
  In {| from := to move; to := from move |}
     (getAllLegalMoves (applyMove state move))
  /\ applyMove (applyMove state move) {| from := to move; to := from move |}
     = state.
Proof.
  intros Hwf Hin. split.
  - apply generateLegalMoves_complete, reverse_slide_legal; [exact Hwf|].
    now apply generateLegalMoves_sound.
  - destruct (legal_move_cells state move Hin) as (Hf & Ht & Hne & Hp & He).
    apply board_ext; [now do 2 apply wf_applyMove | exact Hwf |].
    intros i Hi.
    rewrite applyMove_cells by (cbn [from to]; (apply wf_applyMove; exact Hwf) || lia).
    cbn [from to].
    rewrite !applyMove_cells by (assumption || lia).
    repeat case_bool_decide; congruence.
Qed.

Lemma applyMove_undo_witness :
  In {| from := 1; to := 8 |}
     (getAllLegalMoves (applyMove Samples.board_RRR {| from := 8; to := 1 |}))
  /\ applyMove (applyMove Samples.board_RRR {| from := 8; to := 1 |})
               {| from := 1; to := 8 |}
     = Samples.board_RRR.
Proof.
  apply (applyMove_undo Samples.board_RRR {| from := 8; to := 1 |}).
  - reflexivity.
  - vm_compute. tauto.
Defined.

(** ** Empty and filled positions *)

Lemma getFilledPositions_In (s : BoardState) (p : Z) :
  In p (getFilledPositions s) <-> 0 <= p < 49 /\ cell s p <> Empty.
Proof.
  unfold getFilledPositions. rewrite List.filter_In, in_range, nonEmpty_true.
  reflexivity.
Qed.

Lemma filter_partition_length {A} (f : A -> bool) (l : list A) :
  (length (List.filter f l) + length (List.filter (fun x => negb (f x)) l)
   = length l)%nat.
Proof.
  induction l as [|x l IH]; simpl; [reflexivity|].
  destruct (f x); simpl; lia.
Qed.

(** X7.  On a board of 49 cells [getEmptyPositions] and [getFilledPositions]
    split the 49 indices: their lengths add up to 49, an index from 0 to 48
    is in one exactly when it is not in the other, and [isGameOver] holds
    exactly when no cell is empty. *)
Theorem positions_partition (state : BoardState) (i : Z) :
  wf_board state ->
  len (getEmptyPositions state) + len (getFilledPositions state) = 49
  /\ (0 <= i < 49 ->
      (In i (getEmptyPositions state) <-> ~ In i (getFilledPositions state)))
  /\ (Minimax.isGameOver state = true
      <-> forall j, 0 <= j < 49 -> cell state j <> Empty).
Proof.
  intros _. split; [|split].
  - unfold len, getEmptyPositions, getFilledPositions.
    rewrite <- Nat2Z.inj_add.
    rewrite (List.filter_ext (fun i => nonEmpty (cell state i))
                             (fun i => negb (isEmpty (cell state i))))
      by (intros a; unfold nonEmpty, isEmpty; reflexivity).
    rewrite filter_partition_length, length_range. reflexivity.
  - intros Hi. rewrite getEmptyPositions_In, getFilledPositions_In.
    destruct (decide (cell state i = Empty)); tauto.
  - unfold Minimax.isGameOver, len. rewrite Z.eqb_eq. split.
    + intros H j Hj E.
      assert (Hin : In j (getEmptyPositions state))
        by now apply getEmptyPositions_In.
      destruct (getEmptyPositions state); [contradiction | discriminate].
    + intros H. destruct (getEmptyPositions state) as [|p l] eqn:E;
        [reflexivity|].
      assert (Hin : In p (getEmptyPositions state)) by (rewrite E; now left).
      apply getEmptyPositions_In in Hin as [Hp He]. now apply H in He.
Qed.

Lemma positions_partition_witness :
  len (getEmptyPositions Samples.board_RRR)
  + len (getFilledPositions Samples.board_RRR) = 49
  /\ (0 <= 8 < 49 ->
      (In 8 (getEmptyPositions Samples.board_RRR)
       <-> ~ In 8 (getFilledPositions Samples.board_RRR)))
  /\ (Minimax.isGameOver Samples.board_RRR = true
      <-> forall j, 0 <= j < 49 -> cell Samples.board_RRR j <> Empty).
Proof.
  apply (positions_partition Samples.board_RRR 8). reflexivity.
Defined.


(** ** Palindromes and line scores *)

Lemma isPalindrome_mirror (l : list Color) :
  isPalindrome l = true
  <-> forall i, 0 <= i < len l / 2 -> cell l i = cell l (len l - 1 - i).
Proof.
  unfold isPalindrome. cbv zeta. rewrite forallb_forall. split.
  - intros H i Hi. apply color_eqb_eq, H, in_range. lia.
  - intros H i Hi. apply in_range in Hi. apply color_eqb_eq, H. lia.
Qed.

Lemma cell_rev (l : list Color) (i : Z) :
  0 <= i < len l -> cell (rev l) i = cell l (len l - 1 - i).
Proof.
  unfold len. intros Hi. rewrite !cell_nth by lia.
  rewrite rev_nth by lia. f_equal. lia.
Qed.

Lemma isPalindrome_rev_eq (l : list Color) :
  isPalindrome l = true <-> rev l = l.
Proof.
  rewrite isPalindrome_mirror. split.
  - intros H. apply (nth_ext _ _ Empty Empty); [apply length_rev|].
    intros k Hk. rewrite length_rev in Hk.
    pose proof (cell_rev l (Z.of_nat k)) as Hr.
    rewrite !cell_nth, Nat2Z.id in Hr by lia.
    rewrite Hr by (unfold len; lia). clear Hr.
    pose proof (Z.div_mod (len l) 2 ltac:(lia)) as Hdm.
    pose proof (Z.mod_pos_bound (len l) 2 ltac:(lia)) as Hmb.
    assert (Hlen : len l = Z.of_nat (length l)) by reflexivity.
    destruct (Z.lt_ge_cases (Z.of_nat k) (len l / 2)) as [Hlt | Hge].
    + symmetry. rewrite <- (Nat2Z.id k) at 1.
      rewrite <- cell_nth by lia. apply H. lia.
    + destruct (Z.lt_ge_cases (len l - 1 - Z.of_nat k) (len l / 2)) as [Hlt' | Hge'].
      * specialize (H (len l - 1 - Z.of_nat k) ltac:(lia)).
        replace (len l - 1 - (len l - 1 - Z.of_nat k)) with (Z.of_nat k) in H by lia.
        rewrite H, cell_nth, Nat2Z.id by lia. reflexivity.
      * assert (E : len l - 1 - Z.of_nat k = Z.of_nat k) by lia.
        rewrite E, cell_nth, Nat2Z.id by lia. reflexivity.
  - intros E i Hi.
    pose proof (Z.div_mod (len l) 2 ltac:(lia)) as Hdm.
    pose proof (Z.mod_pos_bound (len l) 2 ltac:(lia)) as Hmb.
    rewrite <- E at 1. apply cell_rev. lia.
Qed.

(** X8.  [isPalindrome] holds exactly for the sequences equal to their own
    reversal, and a sequence and its reversal get the same answer. *)
Theorem isPalindrome_reads_both_ways (seq : list Color) :
  (isPalindrome seq = true <-> rev seq = seq)
  /\ isPalindrome (rev seq) = isPalindrome seq.
Proof.
  split; [apply isPalindrome_rev_eq|].
  apply eq_true_iff_eq. rewrite !isPalindrome_rev_eq, rev_involutive.
  split; congruence.
Qed.

Lemma PALINDROME_SCORES_positive (sig : string) (v : Z) :
  PALINDROME_SCORES !! sig = Some v -> 0 < v.
Proof.
  assert (H : map_Forall (fun _ v => 0 < v) PALINDROME_SCORES).
  { apply map_Forall_to_list. vm_compute. repeat constructor. }
  intros Hv. exact (H sig v Hv).
Qed.

Lemma scorePalindrome_nonneg (seq : list Color) : 0 <= scorePalindrome seq.
Proof.
  unfold scorePalindrome, len.
  destruct (PALINDROME_SCORES !! getPalindromeSignature seq) as [v|] eqn:E; [|lia].
  apply PALINDROME_SCORES_positive in E. destruct (v =? 0); lia.
Qed.

Lemma sum_over_nonneg {A} (f : A -> Z) (l : list A) :
  (forall x, 0 <= f x) -> 0 <= sum_over l f.
Proof.
  intros H. induction l as [|x l IH]; [rewrite sum_over_nil; lia|].
  rewrite sum_over_cons. specialize (H x). lia.
Qed.

Lemma filter_filter_same {A} (f : A -> bool) (l : list A) :
  List.filter f (List.filter f l) = List.filter f l.
Proof.
  apply filter_all. intros x Hx. now apply List.filter_In in Hx.
Qed.

(** X9.  The score of a line depends only on its filled cells, in order: the
    empty cells can be dropped without changing it.  The score is never
    negative, and it is 0 when fewer than two cells are filled. *)
Theorem scoreSequence_filled_cells (sequence : list Color) :
  scoreSequence sequence = scoreSequence (List.filter nonEmpty sequence)
  /\ 0 <= scoreSequence sequence
  /\ (len (List.filter nonEmpty sequence) < 2 -> scoreSequence sequence = 0).
Proof.
  split; [|split].
  - unfold scoreSequence. now rewrite filter_filter_same.
  - unfold scoreSequence. destruct (len _ <? 2); [lia|].
    apply sum_over_nonneg. intros n. apply sum_over_nonneg. intros start.
    cbv zeta. destruct (isPalindrome _); [apply scorePalindrome_nonneg | lia].
  - intros H. unfold scoreSequence.
    destruct (Z.ltb_spec (len (List.filter nonEmpty sequence)) 2); [reflexivity | lia].
Qed.

Lemma scoreSequence_filled_cells_witness :
  scoreSequence [Empty; R; Empty] = scoreSequence (List.filter nonEmpty [Empty; R; Empty])
  /\ 0 <= scoreSequence [Empty; R; Empty]
  /\ scoreSequence [Empty; R; Empty] = 0.
Proof.
  destruct (scoreSequence_filled_cells [Empty; R; Empty]) as (H1 & H2 & H3).
  split; [exact H1|]. split; [exact H2|]. apply H3. reflexivity.
Defined.

(** *** Reading a line backwards *)

Lemma sum_over_app {A} (f : A -> Z) (l1 l2 : list A) :
  sum_over (l1 ++ l2) f = sum_over l1 f + sum_over l2 f.
Proof.
  induction l1 as [|x l1 IH]; simpl; [rewrite sum_over_nil; lia|].
  rewrite !sum_over_cons, IH. lia.
Qed.

Lemma sum_over_map {A B} (g : A -> B) (f : B -> Z) (l : list A) :
  sum_over (map g l) f = sum_over l (fun x => f (g x)).
Proof.
  induction l as [|x l IH]; simpl; [reflexivity|].
  now rewrite !sum_over_cons, IH.
Qed.

Lemma sum_over_seq_reverse (k : nat) (h : nat -> Z) :
  sum_over (seq 0 k) (fun s => h (k - 1 - s)%nat) = sum_over (seq 0 k) h.
Proof.
  induction k as [|k IH]; [reflexivity|].
  rewrite seq_S at 2. rewrite sum_over_app, sum_over_cons, sum_over_nil.
  simpl seq. rewrite sum_over_cons, <- seq_shift, sum_over_map.
  replace (S k - 1 - 0)%nat with k by lia. simpl (0 + k)%nat.
  rewrite <- IH.
  rewrite (sum_over_ext (fun x => h (S k - 1 - S x)%nat)
                        (fun s => h (k - 1 - s)%nat)).
  - lia.
  - intros x _. f_equal. lia.
Qed.

(** A sum over [0 <= s < m], read from the other end. *)
Lemma sum_over_range_reverse (m : Z) (h : Z -> Z) :
  sum_over (range 0 m) (fun s => h (m - 1 - s)) = sum_over (range 0 m) h.
Proof.
  unfold range. rewrite !sum_over_map.
  rewrite <- (sum_over_seq_reverse _ (fun k => h (0 + Z.of_nat k))).
  apply sum_over_ext. intros s Hs. apply in_seq in Hs. f_equal. lia.
Qed.

Lemma slice_rev {A} (l : list A) (s n : Z) :
  0 <= s -> 0 <= n -> s + n <= len l ->
  slice (rev l) s (s + n) = rev (slice l (len l - n - s) (len l - s)).
Proof.
  unfold len, slice. intros Hs Hn Hb.
  replace (s + n - s) with n by lia.
  replace (Z.of_nat (length l) - s - (Z.of_nat (length l) - n - s)) with n by lia.
  rewrite skipn_rev, firstn_rev, length_firstn.
  f_equal. rewrite skipn_firstn_comm. f_equal; [lia|]. f_equal. lia.
Qed.

Lemma palindrome_score_rev (x : list Color) :
  (if isPalindrome (rev x) then scorePalindrome (rev x) else 0)
  = (if isPalindrome x then scorePalindrome x else 0).
Proof.
  assert (E : isPalindrome (rev x) = isPalindrome x).
  { apply eq_true_iff_eq. rewrite !isPalindrome_rev_eq, rev_involutive.
    split; congruence. }
  rewrite E. destruct (isPalindrome x) eqn:Hp; [|reflexivity].
  apply isPalindrome_rev_eq in Hp. now rewrite Hp.
Qed.

Lemma scoreSequence_rev (sequence : list Color) :
  scoreSequence (rev sequence) = scoreSequence sequence.
Proof.
  unfold scoreSequence. rewrite List.filter_rev.
  set (f := List.filter nonEmpty sequence).
  assert (El : len (rev f) = len f) by (unfold len; now rewrite length_rev).
  rewrite El. destruct (len f <? 2); [reflexivity|].
  apply sum_over_ext. intros n Hn. apply in_range in Hn. cbv zeta.
  rewrite <- (sum_over_range_reverse (len f - n + 1)
                (fun start => if isPalindrome (slice f start (start + n))
                              then scorePalindrome (slice f start (start + n))
                              else 0)).
  apply sum_over_ext. intros s Hs. apply in_range in Hs. cbv beta.
  rewrite slice_rev by lia. rewrite palindrome_score_rev.
  replace (len f - n + 1 - 1 - s) with (len f - n - s) by lia.
  replace (len f - n - s + n) with (len f - s) by lia.
  reflexivity.
Qed.

(** X10.  A line scores the same read in either direction. *)
Theorem scoreSequence_backwards (sequence : list Color) :
  scoreSequence (rev sequence) = scoreSequence sequence.
Proof. apply scoreSequence_rev. Qed.


(** ** Symmetries of the board score *)

Lemma cell_map_range (f : Z -> Color) (i : Z) :
  0 <= i < 49 -> cell (map f (range 0 49)) i = f i.
Proof.
  intros Hi. rewrite cell_nth by lia. unfold range. rewrite map_map.
  rewrite (nth_indep _ Empty (f (0 + Z.of_nat 0)))
    by (rewrite length_map, length_seq; lia).
  rewrite (map_nth (fun k => f (0 + Z.of_nat k)) (seq 0 (Z.to_nat (49 - 0))) 0%nat).
  rewrite seq_nth by lia. f_equal. lia.
Qed.

Lemma getRow_transpose (s : BoardState) (r : Z) :
  0 <= r < 7 -> getRow (transpose s) r = getColumn s r.
Proof.
  intros Hr. unfold getRow, getColumn. apply map_ext_in.
  intros c Hc. apply in_range in Hc. unfold transpose.
  rewrite cell_map_range by lia.
  destruct (indexToCoords_coordsToIndex r c ltac:(unfold isValidCoord; lia))
    as [_ E].
  unfold coordsToIndex in E at 1. rewrite E. reflexivity.
Qed.

Lemma getColumn_transpose (s : BoardState) (c : Z) :
  0 <= c < 7 -> getColumn (transpose s) c = getRow s c.
Proof.
  intros Hc. unfold getRow, getColumn. apply map_ext_in.
  intros r Hr. apply in_range in Hr. unfold transpose.
  rewrite cell_map_range by lia.
  destruct (indexToCoords_coordsToIndex r c ltac:(unfold isValidCoord; lia))
    as [_ E].
  unfold coordsToIndex in E at 1. rewrite E. reflexivity.
Qed.

Lemma getRow_mirror (s : BoardState) (r : Z) :
  0 <= r < 7 -> getRow (mirror s) r = rev (getRow s r).
Proof.
  intros Hr. unfold getRow.
  assert (E : forall c, 0 <= c < 7 ->
                cell (mirror s) (r * 7 + c) = cell s (r * 7 + (6 - c))).
  { intros c Hc. unfold mirror. rewrite cell_map_range by lia.
    destruct (indexToCoords_coordsToIndex r c ltac:(unfold isValidCoord; lia))
      as [_ E].
    unfold coordsToIndex in E at 1. rewrite E. reflexivity. }
  change (range 0 7) with [0; 1; 2; 3; 4; 5; 6]. simpl.
  rewrite !E by lia. repeat (f_equal; try lia).
Qed.

Lemma getColumn_mirror (s : BoardState) (c : Z) :
  0 <= c < 7 -> getColumn (mirror s) c = getColumn s (6 - c).
Proof.
  intros Hc. unfold getColumn. apply map_ext_in.
  intros r Hr. apply in_range in Hr. unfold mirror.
  rewrite cell_map_range by lia.
  destruct (indexToCoords_coordsToIndex r c ltac:(unfold isValidCoord; lia))
    as [_ E].
  unfold coordsToIndex in E at 1. rewrite E. reflexivity.
Qed.

(** X11.  The score of a board of 49 cells is unchanged by exchanging rows and
    columns ([transpose]) and by reading every row from right to left
    ([mirror]). *)
Theorem score_symmetric (state : BoardState) :
  wf_board state ->
  calculateFullBoardScore (transpose state) = calculateFullBoardScore state
  /\ calculateFullBoardScore (mirror state) = calculateFullBoardScore state.
Proof.
  intros _. unfold calculateFullBoardScore. cbv zeta. split.
  - rewrite (sum_over_ext (fun r => scoreSequence (getRow (transpose state) r))
                          (fun r => scoreSequence (getColumn state r)))
      by (intros r Hr; apply in_range in Hr; now rewrite getRow_transpose).
    rewrite (sum_over_ext (fun c => scoreSequence (getColumn (transpose state) c))
                          (fun c => scoreSequence (getRow state c)))
      by (intros c Hc; apply in_range in Hc; now rewrite getColumn_transpose).
    lia.
  - rewrite (sum_over_ext (fun r => scoreSequence (getRow (mirror state) r))
                          (fun r => scoreSequence (getRow state r)))
      by (intros r Hr; apply in_range in Hr;
          now rewrite getRow_mirror, scoreSequence_rev).
    rewrite (sum_over_ext (fun c => scoreSequence (getColumn (mirror state) c))
                          (fun c => scoreSequence (getColumn state (7 - 1 - c))))
      by (intros c Hc; apply in_range in Hc; now rewrite getColumn_mirror).
    now rewrite (sum_over_range_reverse 7
                   (fun c => scoreSequence (getColumn state c))).
Qed.

Lemma score_symmetric_witness :
  calculateFullBoardScore (transpose Samples.board_RRR)
  = calculateFullBoardScore Samples.board_RRR
  /\ calculateFullBoardScore (mirror Samples.board_RRR)
     = calculateFullBoardScore Samples.board_RRR.
Proof. apply (score_symmetric Samples.board_RRR). reflexivity. Defined.

(** *** Boards with at most one piece *)

Lemma board_with_one_piece (state : BoardState) (p : Z) :
  wf_board state -> 0 <= p < 49 ->
  (forall i, 0 <= i < 49 -> i <> p -> cell state i = Empty) ->
  state = array_set Samples.emptyBoard p (cell state p).
Proof.
  intros Hwf Hp Hcells. apply board_ext; [exact Hwf| |].
  - apply wf_array_set. unfold wf_board. apply repeat_length.
  - intros i Hi.
    rewrite cell_array_set
      by (unfold len, Samples.emptyBoard; rewrite ?repeat_length; lia).
    case_bool_decide as E; [now subst i|].
    rewrite Hcells by (lia || congruence). rewrite cell_nth by lia.
    symmetry. apply nth_repeat.
Qed.

(** X12.  A board of 49 cells that is empty except possibly for one cell scores
    0. *)
Theorem score_needs_two_pieces (state : BoardState) (p : Z) :
  wf_board state ->
  (forall i, 0 <= i < 49 -> i <> p -> cell state i = Empty) ->
  calculateFullBoardScore state = 0.
Proof.
  intros Hwf Hcells.
  assert (H : forallb
                (fun q => forallb
                            (fun c => calculateFullBoardScore
                                        (array_set Samples.emptyBoard q c) =? 0)
                            [R; G; Y; B; W; K; P; Empty])
                (range 0 49) = true) by (vm_compute; reflexivity).
  rewrite forallb_forall in H.
  destruct (decide (0 <= p < 49)) as [Hp | Hp].
  - rewrite (board_with_one_piece state p Hwf Hp Hcells).
    specialize (H p (proj2 (in_range 0 49 p) Hp)).
    rewrite forallb_forall in H. apply Z.eqb_eq, H.
    destruct (cell state p); simpl; tauto.
  - assert (E : state = Samples.emptyBoard).
    { apply board_ext; [exact Hwf | apply repeat_length |].
      intros i Hi. rewrite Hcells by lia.
      rewrite cell_nth by lia. symmetry. apply nth_repeat. }
    rewrite E. vm_compute. reflexivity.
Qed.

Lemma score_needs_two_pieces_witness :
  calculateFullBoardScore (state Samples.loneR) = 0.
Proof.
  apply (score_needs_two_pieces (state Samples.loneR) 24).
  - reflexivity.
  - intros i Hi Hne. unfold Samples.loneR, Samples.emptyBoard. cbn [state].
    rewrite cell_array_set by (unfold len; rewrite ?repeat_length; lia).
    rewrite bool_decide_eq_false_2 by congruence.
    rewrite cell_nth by lia. apply nth_repeat.
Defined.


(** ** Keys built with [join('')] *)

Lemma joinColors_filled (a : list Color) :
  joinColors a = joinColors (List.filter nonEmpty a).
Proof.
  induction a as [|c a IH]; simpl; [reflexivity|].
  destruct c; simpl; now rewrite IH.
Qed.

Lemma joinColors_cons_filled (c : Color) (a : list Color) :
  c <> Empty ->
  exists ch, joinColors (c :: a) = String ch (joinColors a)
             /\ Color_string c = String ch EmptyString.
Proof. intros H. destruct c; try contradiction; simpl; eauto. Qed.

Lemma joinColors_inj (a b : list Color) :
  Forall (fun c => c <> Empty) a -> Forall (fun c => c <> Empty) b ->
  joinColors a = joinColors b -> a = b.
Proof.
  intros Ha. revert b.
  induction Ha as [|c a Hc Ha IH]; intros b Hb E.
  - destruct Hb as [|d b Hd Hb]; [reflexivity|].
    destruct d; try contradiction; discriminate.
  - destruct Hb as [|d b Hd Hb].
    + destruct c; try contradiction; discriminate.
    + f_equal.
      * destruct c, d; try contradiction; try reflexivity; discriminate.
      * apply IH; [exact Hb|].
        destruct c, d; try contradiction; cbn in E;
          first [discriminate E | now injection E].
Qed.

Lemma filled_Forall (a : list Color) :
  Forall (fun c => c <> Empty) (List.filter nonEmpty a).
Proof.
  apply List.Forall_forall. intros c Hc. apply List.filter_In in Hc as [_ Hc].
  now apply nonEmpty_true.
Qed.

Lemma joinColors_eq_iff (a b : list Color) :
  joinColors a = joinColors b
  <-> List.filter nonEmpty a = List.filter nonEmpty b.
Proof.
  split.
  - intros E. apply joinColors_inj; try apply filled_Forall.
    now rewrite <- !joinColors_filled.
  - intros E. now rewrite (joinColors_filled a), (joinColors_filled b), E.
Qed.

Lemma joinColors_length (a : list Color) :
  String.length (joinColors a) = length (List.filter nonEmpty a).
Proof.
  induction a as [|c a IH]; [reflexivity|].
  destruct c; try exact IH;
    (transitivity (S (String.length (joinColors a)));
     [reflexivity | now rewrite IH]).
Qed.

(** X13.  Two boards get the same transposition key exactly when their filled
    cells, read in index order, carry the same colors; where the pieces
    stand plays no part.  The key has one character per filled cell. *)
Theorem getBoardStateKey_same_key (s1 s2 : BoardState) :
  (Minimax.getBoardStateKey s1 = Minimax.getBoardStateKey s2
   <-> List.filter nonEmpty s1 = List.filter nonEmpty s2)
  /\ String.length (Minimax.getBoardStateKey s1)
     = length (List.filter nonEmpty s1).
Proof.
  split; [apply (joinColors_eq_iff s1 s2) | apply (joinColors_length s1)].
Qed.

(** ** The insertion-ordered map *)

Section JsMapFacts.
Context {V : Type}.
Implicit Types (m : JsMap V) (key : string) (value : V).

Lemma map_get_set m key value key' :
  map_get (map_set m key value) key'
  = if bool_decide (key = key') then Some value else map_get m key'.
Proof.
  induction m as [|[k v] m IH]; simpl.
  - repeat case_bool_decide; congruence.
  - destruct (decide (k = key)) as [-> | Hk].
    + rewrite bool_decide_eq_true_2 by reflexivity. simpl.
      repeat case_bool_decide; congruence.
    + rewrite (bool_decide_eq_false_2 (k = key)) by exact Hk. simpl.
      rewrite IH. repeat case_bool_decide; congruence.
Qed.

Lemma map_get_delete m key key' :
  map_get (map_delete m key) key'
  = if bool_decide (key = key') then None else map_get m key'.
Proof.
  unfold map_delete. induction m as [|[k v] m IH]; simpl.
  - now case_bool_decide.
  - destruct (decide (k = key)) as [-> | Hk].
    + rewrite bool_decide_eq_true_2 by reflexivity. simpl. rewrite IH.
      repeat case_bool_decide; congruence.
    + rewrite (bool_decide_eq_false_2 (k = key)) by exact Hk. simpl.
      rewrite IH. repeat case_bool_decide; congruence.
Qed.

Lemma map_has_keys m key : map_has m key = true <-> In key (keysOf m).
Proof.
  unfold map_has, keysOf. rewrite existsb_exists, in_map_iff. split.
  - intros (e & He & Hk). apply bool_decide_eq_true in Hk. now exists e.
  - intros (e & Hk & He). exists e. split; [exact He|].
    now apply bool_decide_eq_true.
Qed.

Lemma map_get_keys m key : map_get m key <> None <-> In key (keysOf m).
Proof.
  unfold keysOf. induction m as [|[k v] m IH]; simpl; [tauto|].
  case_bool_decide as E.
  - split; [now left | discriminate].
  - rewrite IH. split; [now right | intros [? | ?]; [contradiction | assumption]].
Qed.

Lemma keysOf_delete m key :
  keysOf (map_delete m key)
  = List.filter (fun k => negb (bool_decide (k = key))) (keysOf m).
Proof.
  unfold keysOf, map_delete. induction m as [|[k v] m IH]; simpl; [reflexivity|].
  destruct (negb (bool_decide (k = key))); simpl; now rewrite IH.
Qed.

Lemma map_delete_absent m key : ~ In key (keysOf m) -> map_delete m key = m.
Proof.
  unfold keysOf, map_delete. intros H. apply filter_all.
  intros [k v] Hin. apply negb_true_iff, bool_decide_eq_false.
  intros E. apply H. apply in_map_iff. now exists (k, v).
Qed.

Lemma map_set_absent m key value :
  ~ In key (keysOf m) -> map_set m key value = m ++ [(key, value)].
Proof.
  unfold keysOf. induction m as [|[k v] m IH]; simpl; intros H; [reflexivity|].
  rewrite bool_decide_eq_false_2 by tauto. f_equal. apply IH. tauto.
Qed.

Lemma keysOf_delete_absent m key : ~ In key (keysOf (map_delete m key)).
Proof.
  rewrite keysOf_delete, List.filter_In.
  intros [_ H]. apply negb_true_iff, bool_decide_eq_false in H. now apply H.
Qed.

Lemma length_map_delete m key :
  (length (map_delete m key) <= length m)%nat.
Proof. unfold map_delete. apply List.filter_length_le. Qed.

Lemma length_map_delete_present m key :
  In key (keysOf m) -> (length (map_delete m key) < length m)%nat.
Proof.
  unfold keysOf, map_delete.
  induction m as [|[k v] m IH]; simpl; [contradiction|].
  intros Hin. destruct (decide (k = key)) as [-> | Hk].
  - rewrite bool_decide_eq_true_2 by reflexivity. simpl.
    pose proof (List.filter_length_le
                  (fun e : string * V => negb (bool_decide (e.1 = key))) m).
    lia.
  - rewrite (bool_decide_eq_false_2 (k = key)) by exact Hk. simpl.
    destruct Hin as [? | Hin]; [contradiction|]. specialize (IH Hin). lia.
Qed.

Lemma length_map_set m key value :
  (length (map_set m key value) <= S (length m))%nat.
Proof.
  induction m as [|[k v] m IH]; simpl; [lia|].
  case_bool_decide; simpl; lia.
Qed.

Lemma NoDup_filter_keys (f : string -> bool) (l : list string) :
  NoDup l -> NoDup (List.filter f l).
Proof.
  induction 1 as [|x l Hx Hl IH]; simpl; [constructor|].
  destruct (f x); [|exact IH]. constructor; [|exact IH].
  rewrite list_elem_of_In, List.filter_In. rewrite list_elem_of_In in Hx. tauto.
Qed.

End JsMapFacts.

(** ** The cached line score *)

Lemma cache_sound_set (cache : JsMap Z) (sequence : list Color) :
  cache_sound cache ->
  cache_sound (map_set cache (joinColors sequence) (scoreSequence sequence)).
Proof.
  intros H key v s Hget Hkey. rewrite map_get_set in Hget.
  case_bool_decide as E.
  - injection Hget as <-. rewrite <- Hkey in E.
    apply joinColors_eq_iff in E. unfold scoreSequence. now rewrite E.
  - now apply (H key).
Qed.

Lemma cache_sound_delete (cache : JsMap Z) (key : string) :
  cache_sound cache -> cache_sound (map_delete cache key).
Proof.
  intros H k v s Hget Hkey. rewrite map_get_delete in Hget.
  case_bool_decide; [discriminate|]. now apply (H k).
Qed.

(** X14.  The cached line score equals the plain one.  Starting from a cache
    whose every entry is the score of the lines that share its key and that
    holds at most 1001 entries (as the empty cache does),
    [scoreSequenceCached] returns [scoreSequence] of its argument and leaves
    a cache of the same kind: lines with the same key have the same score,
    so a hit is never wrong, and the size never exceeds 1001. *)
Theorem scoreSequenceCached_correct (sequence : list Color) (cache : JsMap Z) :
  cache_sound cache -> len cache <= 1001 ->
  fst (scoreSequenceCached sequence cache) = scoreSequence sequence
  /\ cache_sound (snd (scoreSequenceCached sequence cache))
  /\ len (snd (scoreSequenceCached sequence cache)) <= 1001.
Proof.
  intros Hs Hl. unfold scoreSequenceCached. cbv zeta.
  destruct (map_get cache (joinColors sequence)) as [cached|] eqn:Hget.
  - simpl. split; [|split; assumption]. symmetry. now apply (Hs _ _ _ Hget).
  - simpl. split; [reflexivity|].
    destruct (Z.ltb_spec 1000 (len cache)) as [Hbig | Hsmall].
    + destruct cache as [|[firstKey v0] cache'] eqn:Ec.
      { unfold len in Hbig. simpl in Hbig. lia. }
      rewrite <- Ec in *. split.
      * now apply cache_sound_set, cache_sound_delete.
      * pose proof (length_map_set (map_delete cache firstKey)
                      (joinColors sequence) (scoreSequence sequence)).
        pose proof (length_map_delete_present cache firstKey
                      ltac:(rewrite Ec; now left)).
        unfold len in *. lia.
    + split; [now apply cache_sound_set|].
      pose proof (length_map_set cache (joinColors sequence)
                                 (scoreSequence sequence)).
      unfold len in *. lia.
Qed.

Lemma scoreSequenceCached_correct_witness :
  fst (scoreSequenceCached [R; Empty; R] []) = scoreSequence [R; Empty; R]
  /\ cache_sound (snd (scoreSequenceCached [R; Empty; R] []))
  /\ len (snd (scoreSequenceCached [R; Empty; R] [])) <= 1001.
Proof.
  apply (scoreSequenceCached_correct [R; Empty; R] []).
  - intros key v s H. discriminate H.
  - unfold len. simpl. lia.
Defined.


(** ** The LRU cache *)

Section LRUFacts.
Context {V : Type}.
Implicit Types (c : LRUCache V) (m : JsMap V) (key : string) (value : V).

Lemma map_has_get m key : map_has m key = true <-> map_get m key <> None.
Proof. now rewrite map_has_keys, map_get_keys. Qed.

Lemma lru_get_fst c key : fst (lru_get c key) = map_get (cache c) key.
Proof.
  unfold lru_get. destruct (map_has (cache c) key) eqn:Hhas; simpl.
  - destruct (map_get (cache c) key); reflexivity.
  - destruct (map_get (cache c) key) eqn:Hget; [|reflexivity].
    assert (map_has (cache c) key = true) by (apply map_has_get; congruence).
    congruence.
Qed.

(** The map from which [set] starts after its conditional [delete]. *)
Lemma set_delete_absent m key :
  ~ In key (keysOf (if map_has m key then map_delete m key else m)).
Proof.
  destruct (map_has m key) eqn:Hhas.
  - apply keysOf_delete_absent.
  - intros Hin. apply map_has_keys in Hin. congruence.
Qed.

Lemma set_delete_eq m key :
  (if map_has m key then map_delete m key else m) = map_delete m key.
Proof.
  destruct (map_has m key) eqn:Hhas; [reflexivity|].
  symmetry. apply map_delete_absent. intros Hin.
  apply map_has_keys in Hin. congruence.
Qed.

Lemma keysOf_app m1 m2 : keysOf (m1 ++ m2) = keysOf m1 ++ keysOf m2.
Proof. unfold keysOf. apply map_app. Qed.

Lemma keysOf_touch m key value :
  keysOf (map_set (map_delete m key) key value) = touched (keysOf m) key.
Proof.
  rewrite map_set_absent by apply keysOf_delete_absent.
  rewrite keysOf_app, keysOf_delete. reflexivity.
Qed.

Lemma NoDup_touched (ks : list string) key : NoDup ks -> NoDup (touched ks key).
Proof.
  intros H. unfold touched. apply NoDup_app. split; [|split].
  - now apply NoDup_filter_keys.
  - intros x Hx Hk. apply list_elem_of_In in Hx. apply List.filter_In in Hx as [_ Hx].
    apply negb_true_iff, bool_decide_eq_false in Hx.
    apply list_elem_of_In in Hk. destruct Hk as [-> | []]. now apply Hx.
  - apply NoDup_singleton.
Qed.

Lemma map_delete_head m (k0 : string) (v0 : V) :
  NoDup (keysOf ((k0, v0) :: m)) -> map_delete ((k0, v0) :: m) k0 = m.
Proof.
  intros H. apply NoDup_cons in H as [Hk _]. rewrite list_elem_of_In in Hk.
  unfold map_delete. simpl. rewrite bool_decide_eq_true_2 by reflexivity. simpl.
  now apply map_delete_absent.
Qed.

Lemma length_touch m key value :
  (length (map_set (map_delete m key) key value) <= S (length m))%nat
  /\ (In key (keysOf m) ->
      (length (map_set (map_delete m key) key value) <= length m)%nat).
Proof.
  rewrite map_set_absent by apply keysOf_delete_absent.
  rewrite length_app. simpl. split.
  - pose proof (length_map_delete m key). lia.
  - intros Hin. pose proof (length_map_delete_present m key Hin). lia.
Qed.

(** The eviction step of [set]. *)
Lemma evict_keys m (maxSize : Z) :
  NoDup (keysOf m) ->
  keysOf (if maxSize <? len m
          then match m with
               | (firstKey, _) :: _ => map_delete m firstKey
               | [] => m
               end
          else m)
  = if maxSize <? len m then tl (keysOf m) else keysOf m.
Proof.
  intros Hnd. destruct (maxSize <? len m); [|reflexivity].
  destruct m as [|[k0 v0] m]; [reflexivity|].
  now rewrite map_delete_head.
Qed.

Lemma lru_set_keys c key value :
  NoDup (keysOf (cache c)) ->
  keysOf (cache (lru_set c key value))
  = if maxSize c <? len (touched (keysOf (cache c)) key)
    then tl (touched (keysOf (cache c)) key)
    else touched (keysOf (cache c)) key.
Proof.
  intros Hnd. unfold lru_set. cbv zeta. cbn [cache].
  rewrite set_delete_eq.
  rewrite evict_keys by (rewrite keysOf_touch; now apply NoDup_touched).
  rewrite keysOf_touch.
  replace (len (map_set (map_delete (cache c) key) key value))
    with (len (touched (keysOf (cache c)) key)); [reflexivity|].
  rewrite <- (keysOf_touch _ _ value). unfold len, keysOf.
  now rewrite length_map.
Qed.

Lemma NoDup_tl (ks : list string) : NoDup ks -> NoDup (tl ks).
Proof. destruct ks; simpl; [auto|]. intros H. now apply NoDup_cons in H. Qed.

Lemma lru_set_lru_ok c key value : lru_ok c -> lru_ok (lru_set c key value).
Proof.
  intros [Hnd Hlen].
  assert (Hk := lru_set_keys c key value Hnd).
  assert (Hl : len (cache (lru_set c key value))
               = Z.of_nat (length (keysOf (cache (lru_set c key value))))).
  { unfold len, keysOf. now rewrite length_map. }
  assert (Ht : len (touched (keysOf (cache c)) key) <= len (cache c) + 1).
  { unfold touched, len. rewrite length_app. simpl.
    pose proof (List.filter_length_le
                  (fun k => negb (bool_decide (k = key))) (keysOf (cache c))).
    unfold keysOf in *. rewrite length_map in *. lia. }
  split.
  - rewrite Hk. destruct (_ <? _); [apply NoDup_tl|]; now apply NoDup_touched.
  - rewrite Hl, Hk. change (maxSize (lru_set c key value)) with (maxSize c).
    destruct (Z.ltb_spec (maxSize c) (len (touched (keysOf (cache c)) key)))
      as [Hbig | Hsmall].
    + destruct (touched (keysOf (cache c)) key); unfold len in *; simpl in *; lia.
    + unfold len in *. lia.
Qed.

Lemma lru_get_keys c key :
  keysOf (cache (snd (lru_get c key)))
  = if map_has (cache c) key then touched (keysOf (cache c)) key
    else keysOf (cache c).
Proof.
  unfold lru_get. destruct (map_has (cache c) key) eqn:Hhas; simpl; [|reflexivity].
  destruct (map_get (cache c) key) as [value|] eqn:Hget.
  - simpl. apply keysOf_touch.
  - apply map_has_get in Hhas. contradiction.
Qed.

Lemma lru_get_lru_ok c key : lru_ok c -> lru_ok (snd (lru_get c key)).
Proof.
  intros [Hnd Hlen]. split.
  - rewrite lru_get_keys. destruct (map_has _ _); [now apply NoDup_touched | exact Hnd].
  - unfold lru_get. destruct (map_has (cache c) key) eqn:Hhas; simpl; [|exact Hlen].
    destruct (map_get (cache c) key) as [value|]; simpl; [|exact Hlen].
    apply map_has_keys in Hhas.
    pose proof (proj2 (length_touch (cache c) key value) Hhas).
    unfold len in *. lia.
Qed.

Lemma lru_get_bindings c key key' :
  map_get (cache (snd (lru_get c key))) key' = map_get (cache c) key'.
Proof.
  unfold lru_get. destruct (map_has (cache c) key) eqn:Hhas; simpl; [|reflexivity].
  destruct (map_get (cache c) key) as [value|] eqn:Hget; simpl; [|reflexivity].
  rewrite map_get_set, map_get_delete.
  case_bool_decide; congruence.
Qed.

Lemma lru_set_bindings c key value key' :
  NoDup (keysOf (cache c)) ->
  map_get (cache (lru_set c key value)) key'
  = if map_has (cache (lru_set c key value)) key'
    then if bool_decide (key = key') then Some value
         else map_get (cache c) key'
    else None.
Proof.
  intros Hnd. destruct (map_has _ key') eqn:Hin.
  - apply map_has_keys in Hin. unfold lru_set in *. cbv zeta in *. cbn [cache] in *.
    rewrite set_delete_eq in *.
    set (m2 := map_set (map_delete (cache c) key) key value) in *.
    assert (E2 : forall k, map_get m2 k
                 = if bool_decide (key = k) then Some value
                   else map_get (cache c) k).
    { intros k. subst m2. rewrite map_get_set, map_get_delete.
      now case_bool_decide. }
    destruct (maxSize c <? len m2); [|apply E2].
    destruct m2 as [|[k0 v0] m2'] eqn:Em2; [apply E2|].
    rewrite map_get_delete. case_bool_decide as E; [|apply E2].
    subst k0. exfalso. now apply keysOf_delete_absent in Hin.
  - destruct (map_get _ key') eqn:Hget; [|reflexivity].
    exfalso. assert (map_has (cache (lru_set c key value)) key' = true);
      [apply map_has_get|]; congruence.
Qed.

End LRUFacts.

(** X15.  In a cache of capacity at least 1, a value just stored is found: [get]
    right after [set] of the same key returns the value stored. *)
Theorem lru_set_then_get {V} (c : LRUCache V) (key : string) (value : V) :
  1 <= maxSize c ->
  fst (lru_get (lru_set c key value) key) = Some value.
Proof.
  intros Hmax. rewrite lru_get_fst.
  unfold lru_set. cbv zeta. cbn [cache].
  rewrite set_delete_eq.
  pose proof (keysOf_delete_absent (cache c) key) as Habs.
  destruct (map_delete (cache c) key) as [|[k0 v0] m1'].
  - unfold len. simpl map_set. simpl length.
    destruct (Z.ltb_spec (maxSize c) (Z.of_nat 1)); [lia|].
    simpl. now rewrite bool_decide_eq_true_2.
  - assert (Hk : k0 <> key) by (intros ->; apply Habs; now left).
    assert (Hget : map_get (map_set ((k0, v0) :: m1') key value) key = Some value).
    { rewrite map_get_set. now rewrite bool_decide_eq_true_2. }
    destruct (_ <? _); [|exact Hget].
    revert Hget. simpl map_set. rewrite (bool_decide_eq_false_2 (k0 = key)) by exact Hk.
    intros Hget. rewrite map_get_delete.
    now rewrite (bool_decide_eq_false_2 (k0 = key)) by exact Hk.
Qed.

Lemma lru_set_then_get_witness :
  fst (lru_get (lru_set (lru_set (newLRUCache 1) "GR" 5) "RG" 7) "RG") = Some 7.
Proof.
  apply (lru_set_then_get (lru_set (newLRUCache 1) "GR" 5) "RG" 7).
  simpl. lia.
Defined.

(** X16.  [set] and [get] keep the cache well formed: starting from distinct
    keys and at most [maxSize] entries, the keys stay distinct, the number
    of entries stays at most [maxSize], and [maxSize] does not change. *)
Theorem lru_cache_bounded {V} (c : LRUCache V) (key : string) (value : V) :
  lru_ok c ->
  lru_ok (lru_set c key value) /\ lru_ok (snd (lru_get c key))
  /\ maxSize (lru_set c key value) = maxSize c
  /\ maxSize (snd (lru_get c key)) = maxSize c.
Proof.
  intros Hok. split; [now apply lru_set_lru_ok|].
  split; [now apply lru_get_lru_ok|]. split; [reflexivity|].
  unfold lru_get. destruct (negb _); [reflexivity|].
  now destruct (map_get _ _).
Qed.

Lemma lru_cache_bounded_witness :
  lru_ok (lru_set (newLRUCache 2 : LRUCache Z) "GR" 5)
  /\ lru_ok (snd (lru_get (newLRUCache 2 : LRUCache Z) "GR"))
  /\ maxSize (lru_set (newLRUCache 2 : LRUCache Z) "GR" 5) = maxSize (newLRUCache 2 : LRUCache Z)
  /\ maxSize (snd (lru_get (newLRUCache 2 : LRUCache Z) "GR")) = maxSize (newLRUCache 2 : LRUCache Z).
Proof.
  apply (lru_cache_bounded (newLRUCache 2 : LRUCache Z) "GR" 5).
  split; [apply NoDup_nil_2 | unfold len; simpl; lia].
Defined.

(** X17.  What [set] does to a well-formed cache of capacity at least 1: a key
    already present moves to the most-recent end; a new key is appended, and
    when the cache was full the oldest key, and only it, is dropped.  Every
    key present afterwards maps to the value just stored, if it is the key
    set, and to what it mapped to before otherwise. *)
Theorem lru_set_evicts_least_recent {V} (c : LRUCache V) (key : string) (value : V) :
  lru_ok c -> 1 <= maxSize c ->
  keysOf (cache (lru_set c key value))
  = (if map_has (cache c) key then touched (keysOf (cache c)) key
     else if len (cache c) <? maxSize c then keysOf (cache c) ++ [key]
     else tl (keysOf (cache c)) ++ [key])
  /\ forall key', map_has (cache (lru_set c key value)) key' = true ->
       map_get (cache (lru_set c key value)) key'
       = if bool_decide (key = key') then Some value
         else map_get (cache c) key'.
Proof.
  intros [Hnd Hlen] Hmax. split.
  - rewrite lru_set_keys by exact Hnd.
    assert (Hl : len (cache c) = Z.of_nat (length (keysOf (cache c)))).
    { unfold len, keysOf. now rewrite length_map. }
    destruct (map_has (cache c) key) eqn:Hin;
      [apply map_has_keys in Hin
      |assert (~ In key (keysOf (cache c)))
         by (intros Hin'; apply map_has_keys in Hin'; congruence);
       clear Hin; rename H into Hin].
    + destruct (Z.ltb_spec (maxSize c) (len (touched (keysOf (cache c)) key)));
        [|reflexivity].
      exfalso. rewrite <- (keysOf_touch (cache c) key value) in H.
      pose proof (proj2 (length_touch (cache c) key value) Hin).
      unfold len, keysOf in *. rewrite length_map in *. lia.
    + assert (E : touched (keysOf (cache c)) key = keysOf (cache c) ++ [key]).
      { unfold touched. f_equal. apply filter_all. intros k Hk.
        apply negb_true_iff, bool_decide_eq_false. intros ->. contradiction. }
      rewrite E.
      assert (Hl' : len (keysOf (cache c) ++ [key]) = len (cache c) + 1).
      { rewrite Hl. unfold len. rewrite length_app. simpl. lia. }
      rewrite Hl'.
      destruct (Z.ltb_spec (len (cache c)) (maxSize c)) as [Hroom | Hfull].
      * destruct (Z.ltb_spec (maxSize c) (len (cache c) + 1)); [lia | reflexivity].
      * destruct (Z.ltb_spec (maxSize c) (len (cache c) + 1)); [|lia].
        destruct (keysOf (cache c)) as [|k0 ks] eqn:Ek; [|reflexivity].
        simpl in Hl. lia.
  - intros key' Hin. rewrite lru_set_bindings by exact Hnd.
    now rewrite Hin.
Qed.

Lemma lru_set_evicts_least_recent_witness :
  keysOf (cache (lru_set (lru_set (newLRUCache 1) "GR" 5) "RG" 7)) = ["RG"].
Proof.
  apply (lru_set_evicts_least_recent (lru_set (newLRUCache 1) "GR" 5) "RG" 7).
  - split; [apply NoDup_singleton | unfold len; simpl; lia].
  - simpl. lia.
Defined.

(** X18.  [get] returns what the map holds for the key, changes no binding, and
    moves a key that is present to the most-recent end; a miss leaves the
    order as it was. *)
Theorem lru_get_refreshes {V} (c : LRUCache V) (key : string) :
  fst (lru_get c key) = map_get (cache c) key
  /\ (forall key', map_get (cache (snd (lru_get c key))) key'
                   = map_get (cache c) key')
  /\ keysOf (cache (snd (lru_get c key)))
     = (if map_has (cache c) key
        then touched (keysOf (cache c)) key else keysOf (cache c)).
Proof.
  split; [apply lru_get_fst|]. split; [apply lru_get_bindings|].
  apply lru_get_keys.
Qed.


(** ** The Spoiler placer *)

Lemma array_set_idem {A} (a : list A) (i : Z) (v : A) :
  array_set (array_set a i v) i v = array_set a i v.
Proof.
  unfold array_set. destruct (i <? 0); [reflexivity|].
  apply list_insert_insert_eq.
Qed.

(** X19.  [evaluateSpoilerPlacement] calls [evaluatePatternBreaking] on the board
    that already holds the placed token; the placement simulated inside
    changes nothing, the potentials before and after coincide, and the
    component is 0.  The placement score is therefore 100 times the
    estimate of the mover's best score, minus 30 times the opportunity
    denial and 20 times the bag awareness. *)
Theorem evaluatePatternBreaking_after_placement (gameState : GameState)
    (position : Z) (color : Color) :
  wf_board (state gameState) -> 0 <= position < 49 ->
  Chaos.evaluatePatternBreaking
    (applyPlacement (state gameState) position color) position color = 0
  /\ Chaos.evaluateSpoilerPlacement gameState position color
     = Chaos.estimateOrderBestMove
         (applyPlacement (state gameState) position color) * 100
       - Chaos.evaluateOpportunityDenial
           (applyPlacement (state gameState) position color) position * 30
       - Chaos.evaluateBagAwareness
           (applyPlacement (state gameState) position color) position color * 20.
Proof.
  intros _ _.
  assert (E : Chaos.evaluatePatternBreaking
                (applyPlacement (state gameState) position color) position color = 0).
  { unfold Chaos.evaluatePatternBreaking, applyPlacement. cbv zeta.
    rewrite array_set_idem. lia. }
  split; [exact E|].
  unfold Chaos.evaluateSpoilerPlacement. cbv zeta. rewrite E. lia.
Qed.

Lemma evaluatePatternBreaking_after_placement_witness :
  Chaos.evaluatePatternBreaking
    (applyPlacement (state Samples.loneR) 0 G) 0 G = 0
  /\ Chaos.evaluateSpoilerPlacement Samples.loneR 0 G
     = Chaos.estimateOrderBestMove (applyPlacement (state Samples.loneR) 0 G) * 100
       - Chaos.evaluateOpportunityDenial
           (applyPlacement (state Samples.loneR) 0 G) 0 * 30
       - Chaos.evaluateBagAwareness
           (applyPlacement (state Samples.loneR) 0 G) 0 G * 20.
Proof.
  apply (evaluatePatternBreaking_after_placement Samples.loneR 0 G);
    [reflexivity | lia].
Defined.

Lemma num_ltb_Fin (a b : Z) :
  num_ltb (Fin (inject_Z a)) (Fin (inject_Z b)) = (a <? b).
Proof.
  simpl. destruct (Z.ltb_spec a b) as [H | H].
  - apply negb_true_iff. destruct (Qle_bool (inject_Z b) (inject_Z a)) eqn:E;
      [|reflexivity].
    apply Qle_bool_iff in E. rewrite <- Zle_Qle in E. lia.
  - apply negb_false_iff, Qle_bool_iff. rewrite <- Zle_Qle. exact H.
Qed.

(** The selection loop with [<] over finite scores, started from a
    candidate [p0]: the answer is the first candidate of lowest score. *)
Lemma selectBest_from (f : Z -> Z) (l : list Z) (p0 : Z) :
  let pick := snd (fold_left
                     (fun acc position =>
                        let score := Fin (inject_Z (f position)) in
                        if num_ltb score (fst acc) then (score, Some position)
                        else acc)
                     l (Fin (inject_Z (f p0)), Some p0)) in
  (pick = Some p0 /\ forall q, In q l -> f p0 <= f q)
  \/ exists l1 p l2,
       l = l1 ++ p :: l2 /\ pick = Some p /\ f p < f p0
       /\ (forall q, In q l1 -> f p < f q)
       /\ (forall q, In q l2 -> f p <= f q).
Proof.
  cbv zeta. revert p0.
  induction l as [|x l IH]; intros p0; [left; split; [reflexivity | intros q []]|].
  cbn [fold_left fst]. rewrite num_ltb_Fin.
  destruct (Z.ltb_spec (f x) (f p0)) as [Hlt | Hge].
  - right. destruct (IH x) as [[E Hall] | (l1 & p & l2 & -> & E & Hp & H1 & H2)].
    + exists [], x, l. repeat split; auto. intros q [].
    + exists (x :: l1), p, l2. repeat split; auto; [lia|].
      intros q [<- | Hq]; [exact Hp | now apply H1].
  - destruct (IH p0) as [[E Hall] | (l1 & p & l2 & -> & E & Hp & H1 & H2)].
    + left. split; [exact E|]. intros q [<- | Hq]; [exact Hge | now apply Hall].
    + right. exists (x :: l1), p, l2. repeat split; auto.
      intros q [<- | Hq]; [lia | now apply H1].
Qed.

Lemma selectBest_lowest (f : Z -> Z) (l : list Z) :
  l <> [] ->
  exists l1 p l2,
    l = l1 ++ p :: l2
    /\ Chaos.selectBest num_ltb (fun position => Fin (inject_Z (f position)))
         l PosInf (head l) = Some p
    /\ (forall q, In q l1 -> f p < f q)
    /\ (forall q, In q l2 -> f p <= f q).
Proof.
  destruct l as [|x l]; [contradiction|]. intros _.
  unfold Chaos.selectBest. cbn [fold_left fst head].
  change (num_ltb (Fin (inject_Z (f x))) PosInf) with true. cbv iota.
  destruct (selectBest_from f l x) as [[E Hall] | (l1 & p & l2 & -> & E & Hp & H1 & H2)].
  - exists [], x, l. repeat split; auto. intros q [].
  - exists (x :: l1), p, l2. repeat split; auto.
    intros q [<- | Hq]; [exact Hp | now apply H1].
Qed.

(** X20.  On a board of 49 cells with an empty cell, the Spoiler placer answers
    with the first empty cell of lowest [evaluateSpoilerPlacement]: every
    empty cell before it scores strictly higher, every empty cell after it
    at least as high. *)
Theorem chaosNextTurn_lowest_score (gameState : GameState) :
  wf_board (state gameState) ->
  (exists i, 0 <= i < 49 /\ cell (state gameState) i = Empty) ->
  exists before p after,
    getEmptyPositions (state gameState) = before ++ p :: after
    /\ Chaos.chaosNextTurn gameState = indexToPosition p
    /\ (forall q, In q before ->
          Chaos.evaluateSpoilerPlacement gameState p (nextToken gameState)
          < Chaos.evaluateSpoilerPlacement gameState q (nextToken gameState))
    /\ (forall q, In q after ->
          Chaos.evaluateSpoilerPlacement gameState p (nextToken gameState)
          <= Chaos.evaluateSpoilerPlacement gameState q (nextToken gameState)).
Proof.
  intros _ Hex. apply has_empty_position in Hex.
  destruct (selectBest_lowest
              (fun position =>
                 Chaos.evaluateSpoilerPlacement gameState position
                                                (nextToken gameState))
              (getEmptyPositions (state gameState)) Hex)
    as (l1 & p & l2 & El & E & H1 & H2).
  exists l1, p, l2. split; [exact El|]. split; [|split; assumption].
  unfold Chaos.chaosNextTurn. cbv zeta. rewrite E. reflexivity.
Qed.

Lemma chaosNextTurn_lowest_score_witness :
  exists before p after,
    getEmptyPositions (state Samples.loneR) = before ++ p :: after
    /\ Chaos.chaosNextTurn Samples.loneR = indexToPosition p
    /\ (forall q, In q before ->
          Chaos.evaluateSpoilerPlacement Samples.loneR p (nextToken Samples.loneR)
          < Chaos.evaluateSpoilerPlacement Samples.loneR q (nextToken Samples.loneR))
    /\ (forall q, In q after ->
          Chaos.evaluateSpoilerPlacement Samples.loneR p (nextToken Samples.loneR)
          <= Chaos.evaluateSpoilerPlacement Samples.loneR q (nextToken Samples.loneR)).
Proof.
  apply (chaosNextTurn_lowest_score Samples.loneR).
  - reflexivity.
  - exists 0. split; [lia | reflexivity].
Defined.

Lemma fold_max_spec {A} (score : A -> Z) (l : list A) (start : Z) :
  let best := fold_left (fun bestScore x =>
                           if bestScore <? score x then score x else bestScore)
                        l start in
  start <= best
  /\ (forall x, In x l -> score x <= best)
  /\ (best = start \/ exists x, In x l /\ best = score x).
Proof.
  cbv zeta. revert start. induction l as [|x l IH]; intros start; simpl.
  - split; [lia|]. split; [intros x [] | now left].
  - destruct (IH (if start <? score x then score x else start)) as (H1 & H2 & H3).
    destruct (Z.ltb_spec start (score x)) as [Hlt | Hge].
    + split; [lia|]. split.
      * intros y [<- | Hy]; [exact H1 | now apply H2].
      * right. destruct H3 as [-> | (y & Hy & ->)]; [exists x | exists y]; auto.
    + split; [lia|]. split.
      * intros y [<- | Hy]; [lia | now apply H2].
      * destruct H3 as [-> | (y & Hy & ->)]; [now left | right; exists y; auto].
Qed.

Lemma slice_In {A} (a : list A) (s e : Z) (x : A) : In x (slice a s e) -> In x a.
Proof.
  unfold slice. intros H.
  rewrite <- (firstn_skipn (Z.to_nat s) a). apply in_or_app. right.
  rewrite <- (firstn_skipn (Z.to_nat (e - s)) (skipn (Z.to_nat s) a)).
  apply in_or_app. now left.
Qed.

Lemma selectTopMovesByQuickHeuristic_In (s : BoardState) (moves : list Move)
    (count : Z) (m : Move) :
  In m (Chaos.selectTopMovesByQuickHeuristic s moves count) -> In m moves.
Proof.
  unfold Chaos.selectTopMovesByQuickHeuristic.
  destruct (len moves <=? count); [auto|].
  cbv zeta. rewrite in_map_iff. intros ([m' d] & <- & Hin).
  apply slice_In in Hin. apply sortBy_In in Hin. apply in_map_iff in Hin as (m0 & [= <- _] & Hin).
  exact Hin.
Qed.

(** X21.  [estimateOrderBestMove] is at least the current score of the board,
    and it is the current score or the score after some slide the rules
    allow.  When the board has at most 50 legal moves it is at least the
    score after every legal slide: it is the best score the mover can reach
    in one turn, passing included. *)
Theorem estimateOrderBestMove_bounds (s : BoardState) :
  wf_board s ->
  calculateFullBoardScore s <= Chaos.estimateOrderBestMove s
  /\ (Chaos.estimateOrderBestMove s = calculateFullBoardScore s
      \/ exists m, legalSlide s m
                   /\ Chaos.estimateOrderBestMove s
                      = calculateFullBoardScore (applyMove s m))
  /\ (len (getAllLegalMoves s) <= 50 ->
      forall m, legalSlide s m ->
                calculateFullBoardScore (applyMove s m)
                <= Chaos.estimateOrderBestMove s).
Proof.
  intros _. unfold Chaos.estimateOrderBestMove. cbv zeta.
  destruct (fold_max_spec (fun m => calculateFullBoardScore (applyMove s m))
              (Chaos.selectTopMovesByQuickHeuristic s (getAllLegalMoves s) 50)
              (calculateFullBoardScore s)) as (H1 & H2 & H3).
  cbv zeta in H1, H2, H3.
  split; [exact H1|]. split.
  - destruct H3 as [E | (m & Hin & E)]; [now left|]. right. exists m.
    split; [|exact E].
    apply generateLegalMoves_sound.
    now apply selectTopMovesByQuickHeuristic_In in Hin.
  - intros Hfew m Hm. apply H2.
    unfold Chaos.selectTopMovesByQuickHeuristic.
    apply Z.leb_le in Hfew. rewrite Hfew.
    now apply generateLegalMoves_complete.
Qed.

Lemma estimateOrderBestMove_bounds_witness :
  calculateFullBoardScore Samples.board_RRR
  <= Chaos.estimateOrderBestMove Samples.board_RRR
  /\ (Chaos.estimateOrderBestMove Samples.board_RRR
      = calculateFullBoardScore Samples.board_RRR
      \/ exists m, legalSlide Samples.board_RRR m
                   /\ Chaos.estimateOrderBestMove Samples.board_RRR
                      = calculateFullBoardScore (applyMove Samples.board_RRR m))
  /\ (len (getAllLegalMoves Samples.board_RRR) <= 50 ->
      forall m, legalSlide Samples.board_RRR m ->
                calculateFullBoardScore (applyMove Samples.board_RRR m)
                <= Chaos.estimateOrderBestMove Samples.board_RRR).
Proof. apply (estimateOrderBestMove_bounds Samples.board_RRR). reflexivity. Defined.


(** ** The heuristic mover *)

Lemma Qlt_of_not_le_bool (x y : Q) : negb (Qle_bool x y) = true -> (y < x)%Q.
Proof.
  intros H. apply negb_true_iff in H. apply Qnot_le_lt. intros Hle.
  apply Qle_bool_iff in Hle. congruence.
Qed.

Lemma orderNextTurnLoop_spec (gs : GameState) (currentScore : Z)
    (moves : list Move) (bestMove : option Move) (bestEvaluation : Q) :
  let r := Heuristic.orderNextTurnLoop gs currentScore moves bestMove
             bestEvaluation in
  r = bestMove
  \/ exists m, r = Some m /\ In m moves
       /\ (bestEvaluation
           < Heuristic.evaluatePosition (with_state gs (applyMove (state gs) m)))%Q.
Proof.
  cbv zeta. revert bestMove bestEvaluation.
  induction moves as [|move rest IH]; intros bestMove bestEvaluation;
    [now left|].
  cbn [Heuristic.orderNextTurnLoop]. cbv zeta.
  set (evaluation := Heuristic.evaluatePosition
                       (with_state gs (applyMove (state gs) move))).
  destruct (negb (Qle_bool evaluation bestEvaluation)) eqn:Hbetter.
  - apply Qlt_of_not_le_bool in Hbetter.
    destruct (negb (Qle_bool evaluation (inject_Z currentScore + 20))).
    + right. exists move. split; [reflexivity|]. split; [now left | exact Hbetter].
    + destruct (IH (Some move) evaluation) as [E | (m & E & Hin & Hlt)].
      * right. exists move. split; [exact E|]. split; [now left | exact Hbetter].
      * right. exists m. split; [exact E|]. split; [now right|].
        eapply Qlt_trans; eassumption.
  - destruct (negb (Qle_bool evaluation (inject_Z currentScore + 20)));
      [now left|].
    destruct (IH bestMove bestEvaluation) as [E | (m & E & Hin & Hlt)];
      [now left|].
    right. exists m. split; [exact E|]. split; [now right | exact Hlt].
Qed.

(** X22.  The heuristic mover passes or makes a slide the rules allow, and a
    slide only when its own evaluation of the resulting position is
    strictly higher than that of the current position: it never moves to a
    position it rates no better than passing. *)
Theorem heuristic_orderNextTurn_pass_or_better (gameState : GameState) :
  wf_board (state gameState) ->
  Heuristic.orderNextTurn gameState = "pass"
  \/ exists m,
       Heuristic.orderNextTurn gameState = formatOrderMove (Some m)
       /\ legalSlide (state gameState) m
       /\ (Heuristic.evaluatePosition gameState
           < Heuristic.evaluatePosition
               (with_state gameState (applyMove (state gameState) m)))%Q.
Proof.
  intros _. unfold Heuristic.orderNextTurn, Heuristic.chosenMove. cbv zeta.
  destruct (orderNextTurnLoop_spec gameState
              (calculateFullBoardScore (state gameState))
              (generateLegalMoves (state gameState)) None
              (Heuristic.evaluatePosition gameState))
    as [E | (m & E & Hin & Hlt)]; cbv zeta in E; rewrite E.
  - now left.
  - right. exists m. split; [reflexivity|].
    split; [now apply generateLegalMoves_sound | exact Hlt].
Qed.

Lemma heuristic_orderNextTurn_pass_or_better_witness :
  Heuristic.orderNextTurn Samples.loneR = "pass"
  \/ exists m,
       Heuristic.orderNextTurn Samples.loneR = formatOrderMove (Some m)
       /\ legalSlide (state Samples.loneR) m
       /\ (Heuristic.evaluatePosition Samples.loneR
           < Heuristic.evaluatePosition
               (with_state Samples.loneR (applyMove (state Samples.loneR) m)))%Q.
Proof.
  apply (heuristic_orderNextTurn_pass_or_better Samples.loneR). reflexivity.
Defined.

Lemma findBestMoveLoop_spec (gs : GameState) (currentScore : Z)
    (moves : list Move) (bestMove : option Move) (bestEval : num) :
  let r := Heuristic.findBestMoveLoop gs currentScore moves bestMove bestEval in
  (bestEval = NegInf -> moves <> [] -> exists m, r = Some m /\ In m moves)
  /\ (r = bestMove \/ exists m, r = Some m /\ In m moves).
Proof.
  cbv zeta. revert bestMove bestEval.
  induction moves as [|move rest IH]; intros bestMove bestEval.
  - split; [intros _ H; contradiction | now left].
  - cbn [Heuristic.findBestMoveLoop]. cbv zeta.
    set (eval := Heuristic.evaluatePosition
                   (with_state gs (applyMove (state gs) move))).
    assert (Hgen : forall b,
               (if negb (Qle_bool eval (inject_Z currentScore + 20))
                then Some move
                else Heuristic.findBestMoveLoop gs currentScore rest
                       (Some move) b)
               = Some move
               \/ exists m,
                    (if negb (Qle_bool eval (inject_Z currentScore + 20))
                     then Some move
                     else Heuristic.findBestMoveLoop gs currentScore rest
                            (Some move) b) = Some m
                    /\ In m rest).
    { intros b. destruct (negb _); [now left|].
      destruct (proj2 (IH (Some move) b)) as [E | (m & E & Hin)];
        [now left | right; now exists m]. }
    split.
    + intros -> _. cbn [num_ltb]. cbv iota.
      destruct (Hgen (Fin eval)) as [E | (m & E & Hin)].
      * exists move. split; [exact E | now left].
      * exists m. split; [exact E | now right].
    + destruct (num_ltb bestEval (Fin eval)).
      * right. destruct (Hgen (Fin eval)) as [E | (m & E & Hin)].
        -- exists move. split; [exact E | now left].
        -- exists m. split; [exact E | now right].
      * destruct (negb _); [now left|].
        destruct (proj2 (IH bestMove bestEval)) as [E | (m & E & Hin)];
          [now left | right; exists m; split; [exact E | now right]].
Qed.

(** X23.  [findBestMove], which starts from [-Infinity] instead of the
    evaluation of the current position, returns [null] exactly when the
    board has no legal slide; whenever it returns a move, the move is a
    slide the rules allow. *)
Theorem findBestMove_moves_when_possible (gameState : GameState) :
  wf_board (state gameState) ->
  (Heuristic.findBestMove gameState = None
   <-> forall m, ~ legalSlide (state gameState) m)
  /\ forall m, Heuristic.findBestMove gameState = Some m ->
               legalSlide (state gameState) m.
Proof.
  intros _. unfold Heuristic.findBestMove. cbv zeta.
  destruct (findBestMoveLoop_spec gameState
              (calculateFullBoardScore (state gameState))
              (generateLegalMoves (state gameState)) None NegInf) as [H1 H2].
  cbv zeta in H1, H2. split; [split|].
  - intros E m Hm. apply generateLegalMoves_complete in Hm.
    destruct (H1 eq_refl) as (m' & E' & _); [|congruence].
    intros E0. rewrite E0 in Hm. contradiction.
  - intros Hno. destruct (generateLegalMoves (state gameState)) as [|m l] eqn:El.
    + reflexivity.
    + exfalso. apply (Hno m). apply generateLegalMoves_sound. rewrite El. now left.
  - intros m E. destruct H2 as [E' | (m' & E' & Hin)]; [congruence|].
    apply generateLegalMoves_sound. congruence.
Qed.

Lemma findBestMove_moves_when_possible_witness :
  (Heuristic.findBestMove Samples.loneR = None
   <-> forall m, ~ legalSlide (state Samples.loneR) m)
  /\ forall m, Heuristic.findBestMove Samples.loneR = Some m ->
               legalSlide (state Samples.loneR) m.
Proof.
  apply (findBestMove_moves_when_possible Samples.loneR). reflexivity.
Defined.


(** ** Bag inference *)

Lemma countColor_cons (c x : Color) (l : list Color) :
  countColor c (x :: l) = (if color_eqb x c then 1 else 0) + countColor c l.
Proof.
  unfold countColor, len. simpl. destruct (color_eqb x c); simpl length; lia.
Qed.

Lemma getOr0_insert (m : gmap Color Z) (k c : Color) (v : Z) :
  getOr0 (<[k := v]> m) c = if color_eqb k c then v else getOr0 m c.
Proof.
  unfold getOr0, color_eqb. case_bool_decide as E.
  - subst. now rewrite lookup_insert_eq.
  - now rewrite lookup_insert_ne.
Qed.

Lemma countColor_nonneg (c : Color) (l : list Color) : 0 <= countColor c l.
Proof. unfold countColor, len. lia. Qed.

Lemma nonEmpty_false (c : Color) : nonEmpty c = false -> c = Empty.
Proof. destruct c; try discriminate; reflexivity. Qed.

(** The tallying loop shared by [inferRemainingColors] and
    [getColorDistribution]: each filled cell moves the entry of its color
    by [d]. *)
Lemma tally_lookup (upd : Z -> Z) (d : Z) (l : list Color) (m : gmap Color Z)
    (c : Color) :
  (forall v, upd v = v + d) ->
  fold_left (fun acc color =>
               if nonEmpty color
               then <[color := upd (getOr0 acc color)]> acc
               else acc) l m !! c
  = if bool_decide (c = Empty) || (countColor c l =? 0) then m !! c
    else Some (getOr0 m c + d * countColor c l).
Proof.
  intros Hupd. revert m. induction l as [|x l IH]; intros m.
  - unfold countColor, len. simpl. now rewrite orb_true_r.
  - cbn [fold_left]. rewrite IH, countColor_cons.
    pose proof (countColor_nonneg c l) as Hn.
    destruct (decide (c = Empty)) as [-> | Ec].
    + rewrite (bool_decide_eq_true_2 (Empty = Empty)) by reflexivity. simpl.
      destruct (nonEmpty x) eqn:Hx; [|reflexivity].
      apply nonEmpty_true in Hx. now rewrite lookup_insert_ne.
    + rewrite (bool_decide_eq_false_2 (c = Empty)) by exact Ec. simpl.
      destruct (nonEmpty x) eqn:Hx.
      * destruct (decide (x = c)) as [-> | E].
        -- unfold color_eqb. rewrite (bool_decide_eq_true_2 (c = c)) by reflexivity.
           rewrite getOr0_insert. unfold color_eqb.
           rewrite (bool_decide_eq_true_2 (c = c)) by reflexivity.
           rewrite lookup_insert_eq, Hupd.
           destruct (Z.eqb_spec (countColor c l) 0) as [E0 | E0];
             destruct (Z.eqb_spec (1 + countColor c l) 0); try lia.
           ++ rewrite E0. f_equal. lia.
           ++ f_equal. lia.
        -- unfold color_eqb. rewrite (bool_decide_eq_false_2 (x = c)) by exact E.
           rewrite getOr0_insert. unfold color_eqb.
           rewrite (bool_decide_eq_false_2 (x = c)) by exact E.
           rewrite lookup_insert_ne by exact E.
           replace (0 + countColor c l) with (countColor c l) by lia.
           reflexivity.
      * apply nonEmpty_false in Hx. subst x. unfold color_eqb.
        rewrite (bool_decide_eq_false_2 (Empty = c)) by congruence.
        replace (0 + countColor c l) with (countColor c l) by lia.
        reflexivity.
Qed.

Lemma tally_getOr0 (upd : Z -> Z) (d : Z) (l : list Color) (m : gmap Color Z)
    (c : Color) :
  (forall v, upd v = v + d) -> c <> Empty ->
  getOr0 (fold_left (fun acc color =>
                       if nonEmpty color
                       then <[color := upd (getOr0 acc color)]> acc
                       else acc) l m) c
  = getOr0 m c + d * countColor c l.
Proof.
  intros Hupd Hc. unfold getOr0 at 1. rewrite (tally_lookup upd d) by exact Hupd.
  rewrite bool_decide_eq_false_2 by exact Hc. simpl.
  destruct (Z.eqb_spec (countColor c l) 0) as [E | E]; [|reflexivity].
  rewrite E. unfold getOr0. lia.
Qed.

Lemma getColorDistribution_count (s : BoardState) (c : Color) :
  c <> Empty -> getOr0 (getColorDistribution s) c = countColor c s.
Proof.
  intros Hc. unfold getColorDistribution.
  rewrite (tally_getOr0 (fun v => v + 1) 1) by (auto; lia).
  unfold getOr0. rewrite lookup_empty. simpl. lia.
Qed.

Lemma inferRemainingColors_count (s : BoardState) (c : Color) :
  c <> Empty -> getOr0 (inferRemainingColors s) c = 7 - countColor c s.
Proof.
  intros Hc. unfold inferRemainingColors.
  rewrite (tally_getOr0 (fun v => v - 1) (-1)) by (auto; intros; lia).
  replace (getOr0 (list_to_map [(R, 7); (G, 7); (Y, 7); (B, 7); (W, 7); (K, 7); (P, 7)]) c)
    with 7; [lia|].
  destruct c; try contradiction; reflexivity.
Qed.

(** X24.  For every token color, [getColorDistribution] holds the number of
    cells of that color and [inferRemainingColors] holds 7 minus that number
    (both read with the default 0 of the source); nothing is clamped at 0. *)
Theorem bag_inference_counts (state : BoardState) (color : Color) :
  color <> Empty ->
  getOr0 (getColorDistribution state) color = countColor color state
  /\ getOr0 (inferRemainingColors state) color = 7 - countColor color state.
Proof.
  intros Hc. split.
  - now apply getColorDistribution_count.
  - now apply inferRemainingColors_count.
Qed.

Lemma bag_inference_counts_witness :
  getOr0 (getColorDistribution (state Samples.twoPieces)) R
  = countColor R (state Samples.twoPieces)
  /\ getOr0 (inferRemainingColors (state Samples.twoPieces)) R
     = 7 - countColor R (state Samples.twoPieces).
Proof. apply (bag_inference_counts (state Samples.twoPieces) R). discriminate. Defined.

Lemma one_color_per_cell (x : Color) :
  (if color_eqb x R then 1 else 0) + (if color_eqb x G then 1 else 0)
  + (if color_eqb x Y then 1 else 0) + (if color_eqb x B then 1 else 0)
  + (if color_eqb x W then 1 else 0) + (if color_eqb x K then 1 else 0)
  + (if color_eqb x P then 1 else 0)
  = if nonEmpty x then 1 else 0.
Proof. destruct x; reflexivity. Qed.

Lemma countColor_total (l : list Color) :
  sum_over COLORS (fun c => countColor c l) = len (List.filter nonEmpty l).
Proof.
  unfold COLORS, sum_over. cbn [fold_left].
  induction l as [|x l IH].
  - reflexivity.
  - rewrite !countColor_cons.
    replace (len (List.filter nonEmpty (x :: l)))
      with ((if nonEmpty x then 1 else 0) + len (List.filter nonEmpty l))
      by (unfold len; simpl; destruct (nonEmpty x); simpl length; lia).
    rewrite <- IH. pose proof (one_color_per_cell x). lia.
Qed.

(** X25.  On a board of 49 cells the counts of [inferRemainingColors], summed
    over the seven colors, equal the number of empty cells: the tokens left
    in the bag are exactly enough to fill the board. *)
Theorem remaining_tokens_fill_the_board (state : BoardState) :
  wf_board state ->
  sum_over COLORS (fun c => getOr0 (inferRemainingColors state) c)
  = len (getEmptyPositions state).
Proof.
  intros Hwf.
  rewrite (sum_over_ext _ (fun c => 7 - countColor c state)).
  - assert (E : sum_over COLORS (fun c => 7 - countColor c state)
                = 49 - sum_over COLORS (fun c => countColor c state)).
    { unfold COLORS, sum_over. cbn [fold_left]. lia. }
    rewrite E, countColor_total, getEmptyPositions_length by exact Hwf.
    pose proof (filter_partition_length nonEmpty state) as Hp.
    rewrite (List.filter_ext (fun x => negb (nonEmpty x)) isEmpty) in Hp
      by (intros x; now rewrite isEmpty_nonEmpty).
    unfold wf_board in Hwf. unfold len. lia.
  - intros c Hin. apply inferRemainingColors_count.
    unfold COLORS in Hin. simpl in Hin. intuition (subst; discriminate).
Qed.

Lemma remaining_tokens_fill_the_board_witness :
  sum_over COLORS (fun c => getOr0 (inferRemainingColors (state Samples.twoPieces)) c)
  = len (getEmptyPositions (state Samples.twoPieces)).
Proof.
  apply (remaining_tokens_fill_the_board (state Samples.twoPieces)). reflexivity.
Defined.

Lemma countColor_insert (c v : Color) (l : list Color) (n : nat) :
  (n < length l)%nat ->
  countColor c (<[n := v]> l)
  = countColor c l - (if color_eqb (nth n l Empty) c then 1 else 0)
    + (if color_eqb v c then 1 else 0).
Proof.
  revert n. induction l as [|x l IH]; intros n Hn; [simpl in Hn; lia|].
  destruct n as [|n].
  - cbn [list_insert insert]. simpl nth. rewrite !countColor_cons. lia.
  - change (<[S n := v]> (x :: l)) with (x :: <[n := v]> l).
    simpl nth. rewrite !countColor_cons, IH by (simpl in Hn; lia). lia.
Qed.

Lemma countColor_array_set (c v : Color) (s : list Color) (i : Z) :
  0 <= i < len s ->
  countColor c (array_set s i v)
  = countColor c s - (if color_eqb (cell s i) c then 1 else 0)
    + (if color_eqb v c then 1 else 0).
Proof.
  unfold len. intros Hi. unfold array_set.
  destruct (Z.ltb_spec i 0); [lia|].
  rewrite countColor_insert by lia. now rewrite cell_nth by lia.
Qed.

Lemma countColor_applyMove (c : Color) (s : BoardState) (m : Move) :
  wf_board s -> 0 <= from m < 49 -> 0 <= to m < 49 -> to m <> from m ->
  cell s (to m) = Empty ->
  countColor c (applyMove s m) = countColor c s.
Proof.
  intros Hwf Hf Ht Hne He. unfold applyMove. cbv zeta.
  unfold wf_board in Hwf.
  rewrite (countColor_array_set c Empty)
    by (unfold len; rewrite length_array_set, Hwf; lia).
  rewrite (countColor_array_set c (cell s (from m)))
    by (unfold len; rewrite Hwf; lia).
  rewrite cell_array_set by (unfold len; rewrite ?Hwf; lia).
  rewrite bool_decide_eq_false_2 by exact Hne.
  rewrite He. lia.
Qed.

Lemma tally_same_counts (upd : Z -> Z) (d : Z) (l1 l2 : list Color)
    (m : gmap Color Z) :
  (forall v, upd v = v + d) ->
  (forall c, countColor c l1 = countColor c l2) ->
  fold_left (fun acc color =>
               if nonEmpty color
               then <[color := upd (getOr0 acc color)]> acc
               else acc) l1 m
  = fold_left (fun acc color =>
               if nonEmpty color
               then <[color := upd (getOr0 acc color)]> acc
               else acc) l2 m.
Proof.
  intros Hupd Hc. apply map_eq. intros c.
  rewrite !(tally_lookup upd d) by exact Hupd. now rewrite Hc.
Qed.

(** X26.  A slide the rules allow changes neither [getColorDistribution] nor
    [inferRemainingColors]. *)
Theorem slide_keeps_the_bag (state : BoardState) (move : Move) :
  wf_board state -> legalSlide state move ->
  getColorDistribution (applyMove state move) = getColorDistribution state
  /\ inferRemainingColors (applyMove state move) = inferRemainingColors state.
Proof.
  intros Hwf Hm. apply generateLegalMoves_complete in Hm.
  apply legal_move_cells in Hm as (Hf & Ht & Hne & _ & He).
  split.
  - apply (tally_same_counts (fun v => v + 1) 1); [auto|].
    intros c. now apply countColor_applyMove.
  - apply (tally_same_counts (fun v => v - 1) (-1)); [intros; lia|].
    intros c. now apply countColor_applyMove.
Qed.

Lemma slide_keeps_the_bag_witness :
  getColorDistribution
    (applyMove (state Samples.loneR) {| from := 24; to := 25 |})
  = getColorDistribution (state Samples.loneR)
  /\ inferRemainingColors
       (applyMove (state Samples.loneR) {| from := 24; to := 25 |})
     = inferRemainingColors (state Samples.loneR).
Proof.
  apply (slide_keeps_the_bag (state Samples.loneR) {| from := 24; to := 25 |}).
  - reflexivity.
  - apply generateLegalMoves_sound. vm_compute. tauto.
Defined.

(** X27.  Placing a token on an empty cell of a board of 49 cells lowers the
    inferred remaining count of its color by exactly 1, leaves the counts of
    the other colors unchanged, and leaves one empty cell fewer. *)
Theorem placement_takes_one_token (state : BoardState) (position : Z)
    (color c : Color) :
  wf_board state -> 0 <= position < 49 -> cell state position = Empty ->
  color <> Empty -> c <> Empty ->
  getOr0 (inferRemainingColors (applyPlacement state position color)) c
  = getOr0 (inferRemainingColors state) c - (if color_eqb color c then 1 else 0)
  /\ len (getEmptyPositions (applyPlacement state position color))
     = len (getEmptyPositions state) - 1.
Proof.
  intros Hwf Hp He Hcolor Hc.
  assert (Hcount : forall x,
             countColor x (applyPlacement state position color)
             = countColor x state - (if color_eqb Empty x then 1 else 0)
               + (if color_eqb color x then 1 else 0)).
  { intros x. unfold applyPlacement.
    rewrite countColor_array_set by (unfold len; rewrite Hwf; lia).
    now rewrite He. }
  split.
  - rewrite !inferRemainingColors_count by exact Hc. rewrite Hcount.
    unfold color_eqb at 1. rewrite bool_decide_eq_false_2 by congruence. lia.
  - rewrite !getEmptyPositions_length
      by (try apply wf_array_set; exact Hwf).
    change (len (List.filter isEmpty (applyPlacement state position color)))
      with (countColor Empty (applyPlacement state position color)).
    change (len (List.filter isEmpty state)) with (countColor Empty state).
    rewrite Hcount. unfold color_eqb.
    rewrite bool_decide_eq_true_2 by reflexivity.
    rewrite bool_decide_eq_false_2 by exact Hcolor. lia.
Qed.

Lemma placement_takes_one_token_witness :
  getOr0 (inferRemainingColors (applyPlacement (state Samples.loneR) 0 G)) G
  = getOr0 (inferRemainingColors (state Samples.loneR)) G
    - (if color_eqb G G then 1 else 0)
  /\ len (getEmptyPositions (applyPlacement (state Samples.loneR) 0 G))
     = len (getEmptyPositions (state Samples.loneR)) - 1.
Proof.
  apply (placement_takes_one_token (state Samples.loneR) 0 G G);
    [reflexivity | lia | reflexivity | discriminate | discriminate].
Defined.


(** ** Move ordering *)

Section SortDescending.
Context {A : Type} (key : A -> Z).

Lemma insertBy_Permutation (x : A) (l : list A) :
  Permutation (x :: l) (insertBy (fun a b => key b - key a) x l).
Proof.
  induction l as [|y l IH]; simpl; [reflexivity|].
  destruct (key y - key x <=? 0); [reflexivity|].
  rewrite perm_swap. now apply perm_skip.
Qed.

Lemma sortBy_Permutation (l : list A) :
  Permutation l (sortBy (fun a b => key b - key a) l).
Proof.
  unfold sortBy. induction l as [|x l IH]; simpl; [reflexivity|].
  rewrite <- insertBy_Permutation. now apply perm_skip.
Qed.

Lemma insertBy_sorted (x : A) (l : list A) :
  StronglySorted (fun a b => key b <= key a) l ->
  StronglySorted (fun a b => key b <= key a)
                 (insertBy (fun a b => key b - key a) x l).
Proof.
  induction 1 as [|y l Hl IH Hy]; simpl.
  - constructor; constructor.
  - destruct (Z.leb_spec (key y - key x) 0) as [Hle | Hgt].
    + constructor; [now constructor|].
      constructor; [lia|].
      eapply List.Forall_impl; [|exact Hy]. intros z Hz. simpl in Hz. lia.
    + constructor; [exact IH|].
      apply List.Forall_forall. intros z Hz. apply insertBy_In in Hz as [-> | Hz].
      * lia.
      * rewrite List.Forall_forall in Hy. now apply Hy.
Qed.

Lemma sortBy_sorted (l : list A) :
  StronglySorted (fun a b => key b <= key a)
                 (sortBy (fun a b => key b - key a) l).
Proof.
  unfold sortBy. induction l as [|x l IH]; simpl; [constructor|].
  now apply insertBy_sorted.
Qed.

End SortDescending.

Lemma sorted_map_fst {A} (score : A -> Z) (l : list (A * Z)) :
  StronglySorted (fun a b : A * Z => snd b <= snd a) l ->
  (forall e, In e l -> snd e = score (fst e)) ->
  StronglySorted (fun a b => score b <= score a) (map fst l).
Proof.
  induction 1 as [|e rest Hrest IH He]; intros Hsnd; simpl; [constructor|].
  constructor.
  - apply IH. intros e' He'. apply Hsnd. now right.
  - apply List.Forall_forall. intros x Hx.
    apply in_map_iff in Hx as (e' & <- & He').
    rewrite List.Forall_forall in He. specialize (He e' He').
    rewrite <- (Hsnd e) by now left.
    rewrite <- (Hsnd e') by now right. exact He.
Qed.

(** The decorate-sort-undecorate pattern of the two ordering functions. *)
Lemma sort_by_score {A} (score : A -> Z) (l : list A) :
  Permutation l
    (map fst (sortBy (fun a b : A * Z => snd b - snd a)
                     (map (fun x => (x, score x)) l)))
  /\ StronglySorted (fun a b => score b <= score a)
       (map fst (sortBy (fun a b : A * Z => snd b - snd a)
                        (map (fun x => (x, score x)) l))).
Proof.
  set (scored := map (fun x => (x, score x)) l).
  pose proof (sortBy_Permutation (snd : A * Z -> Z) scored) as Hperm.
  pose proof (sortBy_sorted (snd : A * Z -> Z) scored) as Hsorted.
  split.
  - transitivity (map fst scored).
    + subst scored. rewrite map_map. simpl. now rewrite map_id.
    + now apply Permutation_map.
  - apply sorted_map_fst; [exact Hsorted|].
    intros e He. apply sortBy_In in He. subst scored.
    apply in_map_iff in He as (x & <- & _). reflexivity.
Qed.

(** X28.  Move ordering loses and invents nothing: [orderMovesByHeuristic]
    returns a permutation of the moves it is given, in descending order of
    score delta, and [orderChaosPlacementsByHeuristic] a permutation of the
    positions, in descending order of pattern disruption. *)
Theorem ordering_is_a_sorted_permutation (state : BoardState)
    (moves : list Move) (positions : list Z) (color : Color) :
  wf_board state ->
  (forall m, In m moves -> 0 <= from m < 49 /\ 0 <= to m < 49) ->
  (forall p, In p positions -> 0 <= p < 49) ->
  Permutation moves (Minimax.orderMovesByHeuristic state moves)
  /\ StronglySorted
       (fun a b => calculateScoreDelta state (applyMove state b) b
                   <= calculateScoreDelta state (applyMove state a) a)
       (Minimax.orderMovesByHeuristic state moves)
  /\ Permutation positions
       (Minimax.orderChaosPlacementsByHeuristic state positions color)
  /\ StronglySorted
       (fun a b => Minimax.evaluatePatternDisruption state b color
                   <= Minimax.evaluatePatternDisruption state a color)
       (Minimax.orderChaosPlacementsByHeuristic state positions color).
Proof.
  intros _ _ _.
  destruct (sort_by_score
              (fun move => calculateScoreDelta state (applyMove state move) move)
              moves) as [H1 H2].
  destruct (sort_by_score
              (fun pos => Minimax.evaluatePatternDisruption state pos color)
              positions) as [H3 H4].
  repeat split; assumption.
Qed.

Lemma ordering_is_a_sorted_permutation_witness :
  Permutation (getAllLegalMoves (state Samples.twoPieces))
    (Minimax.orderMovesByHeuristic (state Samples.twoPieces)
       (getAllLegalMoves (state Samples.twoPieces)))
  /\ StronglySorted
       (fun a b => calculateScoreDelta (state Samples.twoPieces)
                     (applyMove (state Samples.twoPieces) b) b
                   <= calculateScoreDelta (state Samples.twoPieces)
                        (applyMove (state Samples.twoPieces) a) a)
       (Minimax.orderMovesByHeuristic (state Samples.twoPieces)
          (getAllLegalMoves (state Samples.twoPieces)))
  /\ Permutation (getEmptyPositions (state Samples.twoPieces))
       (Minimax.orderChaosPlacementsByHeuristic (state Samples.twoPieces)
          (getEmptyPositions (state Samples.twoPieces)) B)
  /\ StronglySorted
       (fun a b => Minimax.evaluatePatternDisruption (state Samples.twoPieces) b B
                   <= Minimax.evaluatePatternDisruption (state Samples.twoPieces) a B)
       (Minimax.orderChaosPlacementsByHeuristic (state Samples.twoPieces)
          (getEmptyPositions (state Samples.twoPieces)) B).
Proof.
  apply (ordering_is_a_sorted_permutation (state Samples.twoPieces)
           (getAllLegalMoves (state Samples.twoPieces))
           (getEmptyPositions (state Samples.twoPieces)) B).
  - reflexivity.
  - intros m Hm. apply generateLegalMoves_sound in Hm.
    now apply legalSlide_bounds in Hm.
  - intros p Hp. now apply getEmptyPositions_In in Hp.
Defined.


(** ** How many moves there can be *)

Lemma isValidCoord_true (r c : Z) :
  isValidCoord r c = true <-> 0 <= r < 7 /\ 0 <= c < 7.
Proof. unfold isValidCoord. lia. Qed.

Lemma coordsToIndex_inj (r1 c1 r2 c2 : Z) :
  isValidCoord r1 c1 = true -> isValidCoord r2 c2 = true ->
  coordsToIndex r1 c1 = coordsToIndex r2 c2 -> r1 = r2 /\ c1 = c2.
Proof. rewrite !isValidCoord_true. unfold coordsToIndex. lia. Qed.

Lemma direction_step (d : Z * Z) (k : Z) :
  In d DIRECTIONS -> k * fst d = 0 -> k * snd d = 0 -> k = 0.
Proof.
  intros Hd. simpl in Hd.
  destruct Hd as [<- | [<- | [<- | [<- | []]]]]; simpl; lia.
Qed.

Lemma slide_destinations_NoDup (state : BoardState) (d : Z * Z)
    (fromIdx : Z) (fuel : nat) (row col : Z) :
  In d DIRECTIONS ->
  NoDup (map to (slide fuel state (fst d) (snd d) fromIdx row col)).
Proof.
  intros Hd. revert row col.
  induction fuel as [|fuel IH]; intros row col; simpl; [constructor|].
  destruct (isValidCoord (row + fst d) (col + snd d)) eqn:Hv; simpl;
    [|constructor].
  destruct (nonEmpty _); [constructor|]. simpl.
  constructor; [|apply IH].
  rewrite list_elem_of_In, in_map_iff. intros (m & Hto & Hin).
  apply slide_sound in Hin as (_ & k & Hk & Hto' & Hall).
  destruct (Hall k ltac:(lia)) as [Hvk _].
  rewrite Hto' in Hto. apply coordsToIndex_inj in Hto as [Hr Hc];
    [|exact Hvk | exact Hv].
  assert (k = 0) by (apply (direction_step d); [exact Hd | lia | lia]).
  lia.
Qed.

Lemma slidesToward_sound (state : BoardState) (d : Z * Z) (fromIdx : Z)
    (m : Move) :
  In m (slidesToward state d fromIdx) ->
  cell state fromIdx <> Empty
  /\ exists k, 1 <= k
     /\ to m = coordsToIndex (row (indexToCoords fromIdx) + k * fst d)
                             (col (indexToCoords fromIdx) + k * snd d)
     /\ forall j, 1 <= j <= k ->
          isValidCoord (row (indexToCoords fromIdx) + j * fst d)
                       (col (indexToCoords fromIdx) + j * snd d) = true
          /\ cell state (coordsToIndex (row (indexToCoords fromIdx) + j * fst d)
                                       (col (indexToCoords fromIdx) + j * snd d))
             = Empty.
Proof.
  unfold slidesToward. destruct (isEmpty (cell state fromIdx)) eqn:He;
    [contradiction|].
  intros Hin. split.
  - intros E. rewrite E in He. discriminate.
  - now apply slide_sound in Hin as [_ H].
Qed.

(** Two pieces never reach the same cell in the same direction: the one
    farther away would have to slide through the nearer one. *)
Lemma slidesToward_disjoint (state : BoardState) (d : Z * Z) (i i' : Z)
    (m m' : Move) :
  In d DIRECTIONS -> 0 <= i < 49 -> 0 <= i' < 49 ->
  In m (slidesToward state d i) -> In m' (slidesToward state d i') ->
  to m = to m' -> i = i'.
Proof.
  intros Hd Hi Hi' Hm Hm' Hto.
  apply slidesToward_sound in Hm as (Hp & k & Hk & Et & Hall).
  apply slidesToward_sound in Hm' as (Hp' & k' & Hk' & Et' & Hall').
  destruct (indexToCoords_bounds i Hi) as (Hr & Hc & Ei).
  destruct (indexToCoords_bounds i' Hi') as (Hr' & Hc' & Ei').
  set (r := row (indexToCoords i)) in *. set (c := col (indexToCoords i)) in *.
  set (r' := row (indexToCoords i')) in *. set (c' := col (indexToCoords i')) in *.
  rewrite Et, Et' in Hto.
  apply coordsToIndex_inj in Hto as [Er Ec];
    [|apply (Hall k); lia | apply (Hall' k'); lia].
  destruct (Z.lt_trichotomy k k') as [Hlt | [Heq | Hgt]].
  - exfalso. apply Hp. destruct (Hall' (k' - k) ltac:(lia)) as [_ He].
    replace (r' + (k' - k) * fst d) with r in He by lia.
    replace (c' + (k' - k) * snd d) with c in He by lia.
    now rewrite Ei in He.
  - subst k'. rewrite <- Ei, <- Ei'. f_equal; lia.
  - exfalso. apply Hp'. destruct (Hall (k - k') ltac:(lia)) as [_ He].
    replace (r + (k - k') * fst d) with r' in He by lia.
    replace (c + (k - k') * snd d) with c' in He by lia.
    now rewrite Ei' in He.
Qed.

Lemma NoDup_flat_map_disjoint {A B} (f : A -> list B) (l : list A) :
  NoDup l ->
  (forall x, In x l -> NoDup (f x)) ->
  (forall x y z, In x l -> In y l -> In z (f x) -> In z (f y) -> x = y) ->
  NoDup (flat_map f l).
Proof.
  induction 1 as [|x l Hx Hl IH]; intros Hf Hdis; simpl; [constructor|].
  apply NoDup_app. split; [|split].
  - apply Hf. now left.
  - intros z Hz Hz'. rewrite list_elem_of_In in Hz, Hz'.
    apply in_flat_map in Hz' as (y & Hy & Hzy).
    assert (x = y) by (apply (Hdis x y z); auto with datatypes).
    subst y. apply Hx. now apply list_elem_of_In.
  - apply IH.
    + intros y Hy. apply Hf. now right.
    + intros y1 y2 z H1 H2. apply Hdis; now right.
Qed.

Lemma destinations_in_direction (state : BoardState) (d : Z * Z) :
  In d DIRECTIONS ->
  (length (flat_map (slidesToward state d) (range 0 49))
   <= length (getEmptyPositions state))%nat.
Proof.
  intros Hd.
  rewrite <- (length_map to).
  apply NoDup_incl_length.
  - apply NoDup_ListNoDup.
    rewrite flat_map_concat_map, concat_map, map_map, <- flat_map_concat_map.
    apply NoDup_flat_map_disjoint.
    + apply NoDup_range.
    + intros i _. unfold slidesToward.
      destruct (isEmpty _); [constructor|].
      now apply slide_destinations_NoDup.
    + intros i i' t Hi Hi' Ht Ht'. apply in_range in Hi, Hi'.
      apply in_map_iff in Ht as (m & Em & Hm).
      apply in_map_iff in Ht' as (m' & Em' & Hm').
      apply (slidesToward_disjoint state d i i' m m'); auto. congruence.
  - intros t Ht. apply in_map_iff in Ht as (m & <- & Hm).
    apply in_flat_map in Hm as (i & Hi & Hm).
    apply slidesToward_sound in Hm as (_ & k & Hk & Et & Hall).
    destruct (Hall k ltac:(lia)) as [Hv He]. rewrite <- Et in He.
    apply getEmptyPositions_In. split; [|exact He].
    apply isValidCoord_true in Hv. rewrite Et. unfold coordsToIndex. lia.
Qed.

Lemma generateLegalMoves_by_direction (state : BoardState) (l : list Z) :
  length (flat_map (fun fromIdx =>
                      if isEmpty (cell state fromIdx) then []
                      else movesOfPiece state fromIdx) l)
  = (length (flat_map (slidesToward state ((-1)%Z, 0%Z)) l)
     + length (flat_map (slidesToward state (1%Z, 0%Z)) l)
     + length (flat_map (slidesToward state (0%Z, (-1)%Z)) l)
     + length (flat_map (slidesToward state (0%Z, 1%Z)) l))%nat.
Proof.
  induction l as [|i l IH]; [reflexivity|].
  cbn [flat_map]. rewrite !length_app, IH.
  unfold slidesToward, movesOfPiece, DIRECTIONS. cbn [flat_map fst snd].
  destruct (isEmpty (cell state i)); [simpl; lia|].
  rewrite !length_app. simpl length. lia.
Qed.

Lemma getAllLegalMoves_length (state : BoardState) :
  len (getAllLegalMoves state) <= 4 * len (getEmptyPositions state).
Proof.
  unfold getAllLegalMoves, generateLegalMoves, len.
  rewrite generateLegalMoves_by_direction.
  pose proof (destinations_in_direction state (-1, 0)) as H1.
  pose proof (destinations_in_direction state (1, 0)) as H2.
  pose proof (destinations_in_direction state (0, -1)) as H3.
  pose proof (destinations_in_direction state (0, 1)) as H4.
  unfold DIRECTIONS in *. simpl In in *.
  specialize (H1 ltac:(tauto)). specialize (H2 ltac:(tauto)).
  specialize (H3 ltac:(tauto)). specialize (H4 ltac:(tauto)).
  lia.
Qed.

Lemma getEmptyPositions_at_most_49 (state : BoardState) :
  len (getEmptyPositions state) <= 49.
Proof.
  unfold len, getEmptyPositions.
  pose proof (List.filter_length_le (fun i => isEmpty (cell state i)) (range 0 49)).
  rewrite length_range in H. lia.
Qed.

(** X29.  A board never has more than 4 legal slides per empty cell (an empty
    cell is reached by at most one piece from each direction), hence never
    more than 196.  The test [moveCount > 500] of [selectChaosStrategy]
    therefore always fails, and the function never answers [spoiler]. *)
Theorem selectChaosStrategy_never_spoiler (gameState : GameState) :
  wf_board (state gameState) ->
  len (getAllLegalMoves (state gameState))
  <= 4 * len (getEmptyPositions (state gameState))
  /\ len (getAllLegalMoves (state gameState)) <= 196
  /\ Chaos.selectChaosStrategy gameState <> Chaos.spoiler.
Proof.
  intros _.
  pose proof (getAllLegalMoves_length (state gameState)) as H.
  pose proof (getEmptyPositions_at_most_49 (state gameState)) as H'.
  split; [exact H|]. split; [lia|].
  unfold Chaos.selectChaosStrategy. cbv zeta.
  destruct (Z.ltb_spec 500 (len (getAllLegalMoves (state gameState))));
    [lia|].
  simpl. destruct (_ && _); discriminate.
Qed.

Lemma selectChaosStrategy_never_spoiler_witness :
  len (getAllLegalMoves (state Samples.twoPieces))
  <= 4 * len (getEmptyPositions (state Samples.twoPieces))
  /\ len (getAllLegalMoves (state Samples.twoPieces)) <= 196
  /\ Chaos.selectChaosStrategy Samples.twoPieces <> Chaos.spoiler.
Proof.
  apply (selectChaosStrategy_never_spoiler Samples.twoPieces). reflexivity.
Defined.


(** ** Killer moves *)

Lemma sameMove_true (m move : Move) :
  (from m =? from move) && (to m =? to move) = true <-> m = move.
Proof.
  rewrite andb_true_iff, !Z.eqb_eq. destruct m, move; simpl.
  split; [intros [-> ->]; reflexivity | intros [= -> ->]; auto].
Qed.

Lemma NoDup_removelast {A} (l : list A) : NoDup l -> NoDup (removelast l).
Proof.
  induction 1 as [|x l Hx Hl IH]; [constructor|].
  destruct l as [|y l]; [constructor|].
  change (removelast (x :: y :: l)) with (x :: removelast (y :: l)).
  constructor; [|exact IH].
  intros Hin. apply Hx. apply list_elem_of_In in Hin. apply list_elem_of_In.
  revert Hin. generalize (y :: l). clear. intros l.
  induction l as [|a l IH]; simpl; [auto|].
  destruct l; [intros []|]. intros [<- | H]; [now left | right; now apply IH].
Qed.

Lemma getKillers_addKiller (killers : Minimax.KillerMoves) (depth : Z)
    (move : Move) (depth' : Z) :
  Minimax.getKillers (Minimax.addKiller killers depth move) depth'
  = if bool_decide (depth' = depth)
    then let moves := Minimax.getKillers killers depth in
         if existsb (fun m => (from m =? from move) && (to m =? to move)) moves
         then moves
         else if Minimax.maxPerDepth <? len (move :: moves)
              then removelast (move :: moves) else move :: moves
    else Minimax.getKillers killers depth'.
Proof.
  unfold Minimax.addKiller, Minimax.getKillers. cbv zeta.
  destruct killers as [map]. cbn [Minimax.killers].
  destruct (map !! depth) as [old|] eqn:Hold.
  - rewrite Hold. change (default [] (Some old)) with old.
    destruct (existsb _ old); cbn [negb Minimax.killers].
    + case_bool_decide as E; [subst; now rewrite Hold | reflexivity].
    + case_bool_decide as E.
      * subst. now rewrite lookup_insert_eq.
      * now rewrite lookup_insert_ne by congruence.
  - rewrite lookup_insert_eq. change (default [] (Some [])) with (@nil Move).
    change (default [] None) with (@nil Move).
    cbn [existsb negb Minimax.killers].
    case_bool_decide as E.
    + subst. rewrite lookup_insert_eq. reflexivity.
    + rewrite !lookup_insert_ne by congruence. reflexivity.
Qed.

(** X30.  [addKiller] keeps, at every depth, at most two moves and no move
    twice.  After it the move is among the killers of its depth, at the
    front when it was not there before, and the killers of the other depths
    are unchanged. *)
Theorem addKiller_keeps_two_distinct (killers : Minimax.KillerMoves)
    (depth : Z) (move : Move) :
  Minimax.killers_ok killers ->
  Minimax.killers_ok (Minimax.addKiller killers depth move)
  /\ In move (Minimax.getKillers (Minimax.addKiller killers depth move) depth)
  /\ (~ In move (Minimax.getKillers killers depth) ->
      head (Minimax.getKillers (Minimax.addKiller killers depth move) depth)
      = Some move)
  /\ forall depth', depth' <> depth ->
       Minimax.getKillers (Minimax.addKiller killers depth move) depth'
       = Minimax.getKillers killers depth'.
Proof.
  intros Hok.
  assert (Hex : forall moves,
             existsb (fun m => (from m =? from move) && (to m =? to move)) moves
             = true <-> In move moves).
  { intros moves. rewrite existsb_exists. split.
    - intros (m & Hin & Hm). apply sameMove_true in Hm. now subst.
    - intros Hin. exists move. split; [exact Hin | now apply sameMove_true]. }
  destruct (Hok depth) as [Hnd Hlen].
  unfold Minimax.maxPerDepth in *.
  split; [|split; [|split]].
  - intros d. rewrite getKillers_addKiller. cbv zeta.
    case_bool_decide as E; [|apply Hok]. unfold Minimax.maxPerDepth.
    destruct (existsb _ _) eqn:Hin; [split; assumption|].
    assert (Hnew : NoDup (move :: Minimax.getKillers killers depth)).
    { constructor; [|exact Hnd]. rewrite list_elem_of_In, <- Hex. congruence. }
    destruct (Z.ltb_spec 2 (len (move :: Minimax.getKillers killers depth)))
      as [Hbig | Hsmall].
    + split; [now apply NoDup_removelast|].
      destruct (Minimax.getKillers killers depth) as [|a [|b [|c l]]];
        unfold len in *; simpl in *; lia.
    + split; [exact Hnew | exact Hsmall].
  - rewrite getKillers_addKiller. cbv zeta.
    rewrite bool_decide_eq_true_2 by reflexivity.
    destruct (existsb _ _) eqn:Hin; [now apply Hex|].
    unfold Minimax.maxPerDepth.
    destruct (Z.ltb_spec 2 (len (move :: Minimax.getKillers killers depth)))
      as [Hbig | Hsmall]; [|now left].
    destruct (Minimax.getKillers killers depth) as [|a l];
      [unfold len in Hbig; simpl in Hbig; lia | now left].
  - intros Hnew. rewrite getKillers_addKiller. cbv zeta.
    rewrite bool_decide_eq_true_2 by reflexivity.
    destruct (existsb _ _) eqn:Hin; [apply Hex in Hin; contradiction|].
    destruct (_ <? _) eqn:Hbig; [|reflexivity].
    destruct (Minimax.getKillers killers depth) as [|a l]; [|reflexivity].
    unfold len in Hbig. simpl in Hbig. discriminate.
  - intros d Hd. rewrite getKillers_addKiller.
    now rewrite bool_decide_eq_false_2.
Qed.

Lemma addKiller_keeps_two_distinct_witness :
  Minimax.killers_ok
    (Minimax.addKiller Minimax.newKillerMoves 3 {| from := 24; to := 25 |}).
Proof.
  apply (addKiller_keeps_two_distinct Minimax.newKillerMoves 3
           {| from := 24; to := 25 |}).
  intros d. unfold Minimax.getKillers, Minimax.newKillerMoves.
  cbn [Minimax.killers]. rewrite lookup_empty. simpl. split; [constructor | unfold len, Minimax.maxPerDepth; simpl; lia].
Defined.
